(** * synth-samples-sdl2: the wavetable oscillator and its audio callback

    A shallow embedding of [synth_samples_sdl2_2.c] ("produce notes"):
    the sine table builder, the pitch calculator, the phase accumulator,
    the SDL audio callback with its chunked fill routine, the keyboard
    handler that changes note and octave with the table of note names,
    the event poll and the main loop, and the allocation of the table;
    and of the noise callback of [synth_samples_sdl2_1.c].  The calls
    that only talk to SDL (window, renderer, audio device) are left out.

    Numbers.  C [int] and [long] values are integers of [Z]; where the
    program stores the result of an addition back into an [int] global the
    two's complement wrap-around is written out ([wrap32]).  C [double]
    is kept behind the interface [CDouble], with two instances:
    - [ieee_double]: Rocq's primitive binary64 floats, bit for bit what
      the compiled program computes with [+ - * /], comparisons and
      conversions;
    - [exact_double]: the rationals [Q], the same program run without
      rounding, used where a statement is about ideal arithmetic.
    The two C library routines whose results the C standard leaves to the
    implementation, [sin] and [pow], are a second interface, [Libm]; the
    theorems assume of them only what Annex F of the C standard fixes
    ([sin(0) = 0], [pow(x, 0) = 1]).

    Memory.  The audio buffer is the byte block SDL hands to the callback;
    the callback views it as an array of 16-bit samples (little endian,
    the [AUDIO_S16LSB] format it asked for).  The sine table is an array
    of [int16_t].  Every load and store is bounds-checked in the model and
    returns [None] outside its block, where the C program would have
    undefined behaviour. *)

From Stdlib Require Import ZArith QArith Qround Qpower Qabs Floats Lia Lqa.
From stdpp Require Import base option list strings pretty.

#[local] Set Warnings "-inexact-float".
#[local] Open Scope Z_scope.

(** ** Machine integers *)

Definition INT_MIN : Z := -2147483648.
Definition INT_MAX : Z := 2147483647.
Definition INT16_MAX : Z := 32767.

(** Two's complement wrap-around of a 32-bit [int]. *)
Definition wrap32 (z : Z) : Z := (z + 2147483648) mod 4294967296 - 2147483648.

(** The conversion [(int16_t)z] of an [int]. *)
Definition to_int16 (z : Z) : Z := (z + 32768) mod 65536 - 32768.

(** ** The C [double] interface *)

Class CDouble (D : Type) := {
  d_add : D -> D -> D;
  d_sub : D -> D -> D;
  d_mul : D -> D -> D;
  d_div : D -> D -> D;
  (** [x >= y] *)
  d_ge : D -> D -> bool;
  (** conversion of an [int] to [double] *)
  d_of_int : Z -> D;
  (** the integral part, toward zero; [None] for a NaN or an infinity *)
  d_trunc : D -> option Z;
  (** [fmod] and [floor] of [math.h], both exact by IEEE 754 *)
  d_fmod : D -> D -> D;
  d_floor : D -> D;
  (** the literals [3.14159265358979323846], [1.059463094359295264562]
      and [0.3] of the source *)
  d_pi : D;
  d_chromatic_ratio : D;
  d_volume : D
}.

(** [sin] and [pow] of [math.h]. *)
Class Libm (D : Type) := {
  c_sin : D -> D;
  c_pow : D -> D -> D
}.

(** The cast [(int)x].  Outside the range of [int] (and for a NaN) the C
    standard leaves the result undefined; x86-64 yields [INT_MIN]. *)
Definition double_to_int `{CDouble D} (x : D) : Z :=
  match d_trunc x with
  | Some z => if (INT_MIN <=? z) && (z <=? INT_MAX) then z else INT_MIN
  | None => INT_MIN
  end.

(** *** IEEE 754 binary64 *)

Module Ieee.

Definition of_Z (z : Z) : float :=
  match z with
  | Z0 => 0%float
  | Zpos _ => of_uint63 (Uint63.of_Z z)
  | Zneg p => (- of_uint63 (Uint63.of_Z (Zpos p)))%float
  end.

Definition trunc (x : float) : option Z :=
  match Prim2SF x with
  | S754_zero _ => Some 0
  | S754_finite s m e =>
      Some (cond_Zopp s (if 0 <=? e then Zpos m * 2 ^ e else Zpos m / 2 ^ (- e)))
  | S754_infinity _ | S754_nan => None
  end.

(** [fmod x y]: the remainder [x - n*y], [n] the quotient [x/y] truncated
    toward zero, computed on the mantissas at the smaller exponent; it
    is a binary64 number, so nothing is rounded. *)
Definition fmod (x y : float) : float :=
  match Prim2SF x, Prim2SF y with
  | S754_nan, _ | _, S754_nan => nan
  | S754_infinity _, _ | _, S754_zero _ => nan
  | _, S754_infinity _ | S754_zero _, _ => x
  | S754_finite sx mx ex, S754_finite _ my ey =>
      let e := Z.min ex ey in
      let r := Z.rem (Zpos mx * 2 ^ (ex - e)) (Zpos my * 2 ^ (ey - e)) in
      SF2Prim (binary_normalize prec emax (cond_Zopp sx r) e sx)
  end.

(** [floor x]: the largest integral value not above [x]. *)
Definition floor (x : float) : float :=
  match Prim2SF x with
  | S754_finite s m e =>
      if 0 <=? e then x
      else
        let q := Zpos m / 2 ^ (- e) in
        let exact := Zpos m mod 2 ^ (- e) =? 0 in
        if s then (if exact then of_Z (- q) else of_Z (- (q + 1)))
        else (if q =? 0 then 0%float else of_Z q)
  | _ => x
  end.

(** Stand-ins for the C library's [pow] and [sin], for running the model
    on concrete inputs: [pow] by repeated squaring for an integral
    exponent (the program only ever passes [note - 57]), [sin] by its
    Taylor polynomial of degree 41 in Horner form.  No theorem depends on
    how good they are. *)
Definition pow_int (x y : float) : float :=
  match trunc y with
  | Some n =>
      if PrimFloat.eqb (of_Z n) y then
        match n with
        | Z0 => 1%float
        | Zpos p => Pos.iter_op PrimFloat.mul p x
        | Zneg p => (1 / Pos.iter_op PrimFloat.mul p x)%float
        end
      else nan
  | None => nan
  end.

Fixpoint sin_horner (k : nat) (x2 acc : float) : float :=
  match k with
  | O => acc
  | S k' =>
      let d := of_Z (2 * Z.of_nat k * (2 * Z.of_nat k + 1)) in
      sin_horner k' x2 (1 - x2 / d * acc)%float
  end.

Definition sin_taylor (x : float) : float := (x * sin_horner 20 (x * x) 1)%float.

(** The rational a finite binary64 number stands for. *)
Definition value (x : float) : Q :=
  match Prim2SF x with
  | S754_finite s m e => (inject_Z (cond_Zopp s (Zpos m)) * 2 ^ e)%Q
  | _ => 0%Q
  end.

End Ieee.

#[export] Instance ieee_double : CDouble float := {
  d_add := PrimFloat.add;
  d_sub := PrimFloat.sub;
  d_mul := PrimFloat.mul;
  d_div := PrimFloat.div;
  d_ge x y := PrimFloat.leb y x;
  d_of_int := Ieee.of_Z;
  d_trunc := Ieee.trunc;
  d_fmod := Ieee.fmod;
  d_floor := Ieee.floor;
  d_pi := 3.14159265358979323846%float;
  d_chromatic_ratio := 1.059463094359295264562%float;
  d_volume := 0.3%float
}.

Definition ieee_libm : Libm float := {|
  c_sin := Ieee.sin_taylor;
  c_pow := Ieee.pow_int
|}.

(** *** Exact arithmetic *)

Module Exact.

Definition trunc (x : Q) : Z := Z.quot (Qnum x) (Zpos (Qden x)).

Definition fmod (x y : Q) : Q := (x - y * inject_Z (trunc (x / y)))%Q.

(** [pow] for an integral exponent, and the same Taylor polynomial for
    [sin] as above, without rounding. *)
Definition pow_int (x y : Q) : Q := (x ^ trunc y)%Q.

Fixpoint sin_horner (k : nat) (x2 acc : Q) : Q :=
  match k with
  | O => acc
  | S k' =>
      let d := inject_Z (2 * Z.of_nat k * (2 * Z.of_nat k + 1)) in
      sin_horner k' x2 (1 - x2 / d * acc)%Q
  end.

Definition sin_taylor (x : Q) : Q := (x * sin_horner 20 (x * x) 1)%Q.

End Exact.

#[export] Instance exact_double : CDouble Q := {
  d_add := Qplus;
  d_sub := Qminus;
  d_mul := Qmult;
  d_div := Qdiv;
  d_ge x y := Qle_bool y x;
  d_of_int := inject_Z;
  d_trunc x := Some (Exact.trunc x);
  d_fmod := Exact.fmod;
  d_floor x := inject_Z (Qfloor x);
  d_pi := 3.14159265358979323846%Q;
  d_chromatic_ratio := 1.059463094359295264562%Q;
  d_volume := 0.3%Q
}.


(** ** Memory *)

(** A pointer to the audio buffer, as [write_samples] receives it. *)
Inductive int16_ptr := NULL | Stream.

(** [sine_wave_table[i]]. *)
Definition load_table (table : list Z) (i : Z) : option Z :=
  if 0 <=? i then table !! Z.to_nat i else None.

(** [data[i] = v] on an array of [int16_t]. *)
Definition store_table (data : list Z) (i v : Z) : option (list Z) :=
  if (0 <=? i) && (i <? Z.of_nat (length data))
  then Some (<[Z.to_nat i := v]> data) else None.

(** [s[j] = v] for [Sint16 *s] over a block of bytes: the low byte first. *)
Definition store16 (bytes : list Z) (j v : Z) : option (list Z) :=
  if (0 <=? j) && (2 * j + 1 <? Z.of_nat (length bytes))
  then
    let u := v mod 65536 in
    Some (<[Z.to_nat (2 * j + 1) := u / 256]> (<[Z.to_nat (2 * j) := u mod 256]> bytes))
  else None.

(** [s[j]] for [Sint16 *s] over a block of bytes. *)
Definition load16 (bytes : list Z) (j : Z) : option Z :=
  if 0 <=? j then
    lo ← bytes !! Z.to_nat (2 * j);
    hi ← bytes !! Z.to_nat (2 * j + 1);
    Some (to_int16 (lo + 256 * hi))
  else None.

(** [memset(block, c, n)]. *)
Definition memset (block : list Z) (c n : Z) : option (list Z) :=
  if (0 <=? n) && (n <=? Z.of_nat (length block))
  then Some (replicate (Z.to_nat n) c ++ drop (Z.to_nat n) block) else None.

(** ** The program state: the file's static variables *)

Record state (D : Type) := mkState {
  quit : bool;
  sample_rate : Z;
  table_length : Z;
  phase_double : D;
  phase_int : Z;
  sine_wave_table : list Z;
  note : Z;
  octave : Z;
  max_note : Z;
  min_note : Z
}.
Arguments mkState {D}.
Arguments quit {D}.
Arguments sample_rate {D}.
Arguments table_length {D}.
Arguments phase_double {D}.
Arguments phase_int {D}.
Arguments sine_wave_table {D}.
Arguments note {D}.
Arguments octave {D}.
Arguments max_note {D}.
Arguments min_note {D}.

Definition set_phase {D} (st : state D) (pd : D) (pi : Z) : state D :=
  mkState (quit st) (sample_rate st) (table_length st) pd pi
          (sine_wave_table st) (note st) (octave st) (max_note st) (min_note st).

Definition set_note_octave {D} (st : state D) (n o : Z) : state D :=
  mkState (quit st) (sample_rate st) (table_length st) (phase_double st)
          (phase_int st) (sine_wave_table st) n o (max_note st) (min_note st).

(** The initial values of the static variables, with the table that
    [init_data] has built. *)
Definition initial_state `{CDouble D} (table : list Z) : state D :=
  mkState false 44100 1024 (d_of_int 0) 0 table 30 2 131 12.

Section Synth.
Context {D : Type} {DD : CDouble D} {LM : Libm D}.

(** ** build_sine_table *)

(** The loop [for(int i = 0; i < wave_length; i++)], [n] iterations
    left. *)
Fixpoint sine_loop (n : nat) (i : Z) (phase_increment current_phase : D)
    (data : list Z) : option (list Z) :=
  match n with
  | O => Some data
  | S n' =>
      let sample := double_to_int (d_mul (c_sin current_phase) (d_of_int INT16_MAX)) in
      data' ← store_table data i (to_int16 sample);
      sine_loop n' (i + 1) phase_increment (d_add current_phase phase_increment) data'
  end.

Definition build_sine_table (data : list Z) (wave_length : Z) : option (list Z) :=
  let phase_increment := d_div (d_mul (d_of_int 2) d_pi) (d_of_int wave_length) in
  let current_phase := d_of_int 0 in
  sine_loop (Z.to_nat wave_length) 0 phase_increment current_phase data.

(** The phase at which entry [i] is sampled: [i] increments added up
    from zero, one at a time. *)
Definition sine_phase (wave_length : Z) (i : nat) : D :=
  Nat.iter i (fun p => d_add p (d_div (d_mul (d_of_int 2) d_pi) (d_of_int wave_length)))
    (d_of_int 0).

(** The entry the loop body computes from a phase. *)
Definition sine_sample (current_phase : D) : Z :=
  to_int16 (double_to_int (d_mul (c_sin current_phase) (d_of_int INT16_MAX))).

(** The index the spec expects at step [k]:
    [floor(fmod(k * phase_increment, table_length))]. *)
Definition spec_index (phase_increment : D) (table_length : Z) (k : Z) : Z :=
  double_to_int
    (d_floor (d_fmod (d_mul (d_of_int k) phase_increment) (d_of_int table_length))).


(** ** get_pitch *)

Definition get_pitch (note : D) : D :=
  let p := c_pow d_chromatic_ratio (d_sub note (d_of_int 57)) in
  d_mul p (d_of_int 440).

(** ** write_samples *)

(** The phase increment of the current note (line 235). *)
Definition phase_increment_of (st : state D) : D :=
  let d_sample_rate := d_of_int (sample_rate st) in
  let d_table_length := d_of_int (table_length st) in
  let d_note := d_of_int (note st) in
  d_mul (d_div (get_pitch d_note) d_sample_rate) d_table_length.

(** The advance-and-wrap step (lines 241-247): the new [phase_double]
    and [phase_int]. *)
Definition osc_advance (phase_increment : D) (table_length : Z) (phase : D) : D * Z :=
  let phase_double := d_add phase phase_increment in
  let phase_int := double_to_int phase_double in
  if d_ge phase_double (d_of_int table_length) then
    let diff := d_sub phase_double (d_of_int table_length) in
    (diff, double_to_int diff)
  else (phase_double, phase_int).

(** [k] advance-and-wrap steps in a row, from the pair
    [(phase_double, phase_int)]. *)
Fixpoint osc_run (phase_increment : D) (table_length : Z) (k : nat) (ph : D * Z)
    : D * Z :=
  match k with
  | O => ph
  | S k' =>
      osc_run phase_increment table_length k'
        (osc_advance phase_increment table_length (fst ph))
  end.

(** The indices the oscillator samples over [n] frames in a row, from
    phase [phase]. *)
Fixpoint osc_indices (phase_increment : D) (table_length : Z) (n : nat) (phase : D)
    : list Z :=
  match n with
  | O => []
  | S n' =>
      let ph := osc_advance phase_increment table_length phase in
      snd ph :: osc_indices phase_increment table_length n' (fst ph)
  end.

(** [sample *= 0.3] on an [int16_t]. *)
Definition scale_volume (sample : Z) : Z :=
  to_int16 (double_to_int (d_mul (d_of_int sample) d_volume)).

(** One iteration of the loop of [write_samples] (lines 241-256). *)
Definition write_frame (st : state D) (s_byteStream : int16_ptr) (bytes : list Z)
    (begin i : Z) (phase_increment : D) : option (state D * list Z) :=
  let '(pd, pi) := osc_advance phase_increment (table_length st) (phase_double st) in
  let st' := set_phase st pd pi in
  if (pi <? table_length st) && (-1 <? pi) then
    match s_byteStream with
    | NULL => Some (st', bytes)
    | Stream =>
        sample ← load_table (sine_wave_table st) pi;
        let sample := scale_volume sample in
        bytes1 ← store16 bytes (i + begin) sample;
        bytes2 ← store16 bytes1 (i + begin + 1) sample;
        Some (st', bytes2)
    end
  else Some (st', bytes).

(** The loop [for (int i = 0; i < length; i+=2)], [n] iterations left. *)
Fixpoint frame_loop (n : nat) (st : state D) (s_byteStream : int16_ptr)
    (bytes : list Z) (begin i : Z) (phase_increment : D)
    : option (state D * list Z) :=
  match n with
  | O => Some (st, bytes)
  | S n' =>
      '(st', bytes') ← write_frame st s_byteStream bytes begin i phase_increment;
      frame_loop n' st' s_byteStream bytes' begin (i + 2) phase_increment
  end.

(** The number of turns of a loop that runs for [i = 0, 2, 4, ...] below
    [length], while the counter [i] stays an [int]. *)
Definition frame_count (length : Z) : nat := Z.to_nat ((length + 1) / 2).

(** The counter of the loop is an [int] and [length] a [long]: from
    [length = INT_MAX] on, the loop reaches [i = INT_MAX - 1] and the
    step [i += 2] overflows, which the C standard leaves undefined. *)
Definition write_samples (st : state D) (s_byteStream : int16_ptr) (bytes : list Z)
    (begin end_ length : Z) : option (state D * list Z) :=
  if note st >? 0 then
    if length <? INT_MAX then
      frame_loop (frame_count length) st s_byteStream bytes begin 0 (phase_increment_of st)
    else None
  else Some (st, bytes).

(** ** audio_callback *)

(** The loop [for(long i = 0; i < iterations; i++)], [n] iterations
    left. *)
Fixpoint chunk_loop (n : nat) (st : state D) (bytes : list Z) (i chunk_size : Z)
    : option (state D * list Z) :=
  match n with
  | O => Some (st, bytes)
  | S n' =>
      let begin := i * chunk_size in
      let end_ := i * chunk_size + chunk_size in
      '(st', bytes') ← write_samples st Stream bytes begin end_ chunk_size;
      chunk_loop n' st' bytes' (i + 1) chunk_size
  end.

Definition audio_callback (st : state D) (byte_stream : list Z)
    (byte_stream_length : Z) : option (state D * list Z) :=
  bytes ← memset byte_stream 0 byte_stream_length;
  if quit st then Some (st, bytes)
  else
    let remain := Z.quot byte_stream_length 2 in
    let chunk_size := 64 in
    let iterations := Z.quot remain chunk_size in
    chunk_loop (Z.to_nat iterations) st bytes 0 chunk_size.

End Synth.

(** ** handle_note_keys *)

(** The key codes the handler distinguishes; every other key is
    [SDLK_other]. *)
Inductive SDL_Keycode :=
  | SDLK_PLUS | SDLK_MINUS
  | SDLK_z | SDLK_s | SDLK_x | SDLK_d | SDLK_c | SDLK_v | SDLK_g | SDLK_b
  | SDLK_h | SDLK_n | SDLK_j | SDLK_m | SDLK_COMMA | SDLK_l | SDLK_PERIOD
  | SDLK_q | SDLK_2 | SDLK_w | SDLK_3 | SDLK_e | SDLK_r | SDLK_5 | SDLK_t
  | SDLK_6 | SDLK_y | SDLK_7 | SDLK_u | SDLK_i | SDLK_9 | SDLK_o | SDLK_0
  | SDLK_p
  | SDLK_other.

(** The [new_note] a note key selects (the cases that [break]). *)
Definition key_note (sym : SDL_Keycode) : option Z :=
  match sym with
  | SDLK_z => Some 12 | SDLK_s => Some 13 | SDLK_x => Some 14 | SDLK_d => Some 15
  | SDLK_c => Some 16 | SDLK_v => Some 17 | SDLK_g => Some 18 | SDLK_b => Some 19
  | SDLK_h => Some 20 | SDLK_n => Some 21 | SDLK_j => Some 22 | SDLK_m => Some 23
  | SDLK_COMMA => Some 24 | SDLK_l => Some 25 | SDLK_PERIOD => Some 26
  | SDLK_q => Some 24 | SDLK_2 => Some 25 | SDLK_w => Some 26 | SDLK_3 => Some 27
  | SDLK_e => Some 28 | SDLK_r => Some 29 | SDLK_5 => Some 30 | SDLK_t => Some 31
  | SDLK_6 => Some 32 | SDLK_y => Some 33 | SDLK_7 => Some 34 | SDLK_u => Some 35
  | SDLK_i => Some 36 | SDLK_9 => Some 37 | SDLK_o => Some 38 | SDLK_0 => Some 39
  | SDLK_p => Some 40
  | SDLK_PLUS | SDLK_MINUS | SDLK_other => None
  end.

(** The handler; what it prints is left out. *)
Definition handle_note_keys {D} (st : state D) (sym : SDL_Keycode) : state D :=
  match sym with
  | SDLK_PLUS =>
      let octave := wrap32 (octave st + 1) in
      if octave >? 6 then set_note_octave st (note st) 6
      else
        let note := wrap32 (note st + 12) in
        set_note_octave st (if note >? max_note st then max_note st else note) octave
  | SDLK_MINUS =>
      let octave := wrap32 (octave st - 1) in
      if octave <? 0 then set_note_octave st (note st) 0
      else
        let note := wrap32 (note st - 12) in
        set_note_octave st (if note <? min_note st then min_note st else note) octave
  | _ =>
      match key_note sym with
      | Some new_note =>
          if new_note >? -1
          then set_note_octave st (wrap32 (new_note + wrap32 (octave st * 12))) (octave st)
          else st
      | None => st
      end
  end.

(** [handle_key_down] for each event of a sequence, in order. *)
Definition handle_keys {D} (st : state D) (keys : list SDL_Keycode) : state D :=
  foldl handle_note_keys st keys.

(** ** note_to_char *)

Definition note_to_char (note : Z) : string :=
  match note with
  | 12 => "C-0" | 13 => "C#0" | 14 => "D-0" | 15 => "D#0" | 16 => "E-0" | 17 => "F-0"
  | 18 => "F#0" | 19 => "G-0" | 20 => "G#0" | 21 => "A-0" | 22 => "A#0" | 23 => "B-0"
  | 24 => "C-1" | 25 => "C#1" | 26 => "D-1" | 27 => "D#1" | 28 => "E-1" | 29 => "F-1"
  | 30 => "F#1" | 31 => "G-1" | 32 => "G#1" | 33 => "A-1" | 34 => "A#1" | 35 => "B-1"
  | 36 => "C-2" | 37 => "C#2" | 38 => "D-2" | 39 => "D#2" | 40 => "E-2" | 41 => "F-2"
  | 42 => "F#2" | 43 => "G-2" | 44 => "G#2" | 45 => "A-2" | 46 => "A#2" | 47 => "B-2"
  | 48 => "C-3" | 49 => "C#3" | 50 => "D-3" | 51 => "D#3" | 52 => "E-3" | 53 => "F-3"
  | 54 => "F#3" | 55 => "G-3" | 56 => "G#3" | 57 => "A-3" | 58 => "A#3" | 59 => "B-3"
  | 60 => "C-4" | 61 => "C#4" | 62 => "D-4" | 63 => "D#4" | 64 => "E-4" | 65 => "F-4"
  | 66 => "F#4" | 67 => "G-4" | 68 => "G#4" | 69 => "A-4" | 70 => "A#4" | 71 => "B-4"
  | 72 => "C-5" | 73 => "C#5" | 74 => "D-5" | 75 => "D#5" | 76 => "E-5" | 77 => "F-5"
  | 78 => "F#5" | 79 => "G-5" | 80 => "G#5" | 81 => "A-5" | 82 => "A#5" | 83 => "B-5"
  | 84 => "C-6" | 85 => "C#6" | 86 => "D-6" | 87 => "D#6" | 88 => "E-6" | 89 => "F-6"
  | 90 => "F#6" | 91 => "G-6" | 92 => "G#6" | 93 => "A-6" | 94 => "A#6" | 95 => "B-6"
  | 96 => "C-7" | 97 => "C#7" | 98 => "D-7" | 99 => "D#7" | 100 => "E-7" | 101 => "F-7"
  | 102 => "F#7" | 103 => "G-7" | 104 => "G#7" | 105 => "A-7" | 106 => "A#7" | 107 => "B-7"
  | 108 => "C-8" | 109 => "C#8" | 110 => "D-8" | 111 => "D#8" | 112 => "E-8" | 113 => "F-8"
  | 114 => "F#8" | 115 => "G-8" | 116 => "G#8" | 117 => "A-8" | 118 => "A#8" | 119 => "B-8"
  | 120 => "C-9" | 121 => "C#9" | 122 => "D-9" | 123 => "D#9" | 124 => "E-9" | 125 => "F-9"
  | 126 => "F#9" | 127 => "G-9" | 128 => "G#9" | 129 => "A-9" | 130 => "A#9" | 131 => "B-9"
  | _ => "err"
  end.

(** ** print_note, the earlier revision of the note printer *)

(** The [switch] on [note % 12]; [None] is the [NULL] that
    [note_chars] keeps when no case applies. *)
Definition note_chars (note_without_octave : Z) : option string :=
  match note_without_octave with
  | 0 => Some "C-" | 1 => Some "C#" | 2 => Some "D-" | 3 => Some "D#"
  | 4 => Some "E-" | 5 => Some "F-" | 6 => Some "F#" | 7 => Some "G-"
  | 8 => Some "G#" | 9 => Some "A-" | 10 => Some "A#" | 11 => Some "B-"
  | _ => None
  end.

(** The name [print_note] prints, the [%s%d] of its format; [None] where
    it would pass [NULL] for [%s]. *)
Definition print_note (note : Z) : option string :=
  let note_without_octave := Z.rem note 12 in
  let note_octave := Z.quot note 12 - 1 in
  chars ← note_chars note_without_octave;
  Some (chars +:+ pretty note_octave).

(** ** check_sdl_events, main_loop and the loop of run *)

(** The events the program distinguishes; every other type is
    [SDL_other_event]. *)
Inductive SDL_Event :=
  | SDL_QUIT
  | SDL_KEYDOWN (sym : SDL_Keycode)
  | SDL_KEYUP (sym : SDL_Keycode)
  | SDL_other_event.

Definition set_quit {D} (st : state D) (q : bool) : state D :=
  mkState q (sample_rate st) (table_length st) (phase_double st)
          (phase_int st) (sine_wave_table st) (note st) (octave st)
          (max_note st) (min_note st).

Definition handle_key_up {D} (st : state D) (sym : SDL_Keycode) : state D := st.

Definition handle_key_down {D} (st : state D) (sym : SDL_Keycode) : state D :=
  handle_note_keys st sym.

(** The loop [while (SDL_PollEvent(&event))] over the events that are
    pending, in the order SDL hands them out. *)
Fixpoint check_sdl_events {D} (st : state D) (pending : list SDL_Event) : state D :=
  match pending with
  | [] => st
  | event :: pending' =>
      let st' :=
        match event with
        | SDL_QUIT => set_quit st true
        | SDL_KEYDOWN sym => handle_key_down st sym
        | SDL_KEYUP sym => handle_key_up st sym
        | SDL_other_event => st
        end in
      check_sdl_events st' pending'
  end.

(** One turn of the main loop; clearing and presenting the window and
    the delay leave the variables alone. *)
Definition main_loop {D} (st : state D) (pending : list SDL_Event) : state D :=
  check_sdl_events st pending.

(** The loop [while (!quit) main_loop();] of [run]: turn [k] finds the
    events [turns !! k] pending.  The result is the state at the exit
    with the turns not taken, or [None] when the loop is still running
    after the last turn. *)
Fixpoint run_loop {D} (st : state D) (turns : list (list SDL_Event))
    : option (state D * list (list SDL_Event)) :=
  if quit st then Some (st, turns)
  else
    match turns with
    | [] => None
    | pending :: turns' => run_loop (main_loop st pending) turns'
    end.

(** ** alloc_memory, free_memory, init_data, cleanup_data *)

(** A pointer to a block of [int16_t] is [None] for [NULL], or the
    cells of the block.  [malloc] is what the allocator returns for the
    request. *)
Definition alloc_memory (malloc : option (list Z)) (alloc_count : Z)
    : option (list Z) * Z :=
  match malloc with
  | None => (None, alloc_count)
  | Some block => (Some block, wrap32 (alloc_count + 1))
  end.

Definition free_memory (ptr : option (list Z)) (alloc_count : Z)
    : option (list Z) * Z :=
  match ptr with
  | Some _ => (None, wrap32 (alloc_count - 1))
  | None => (None, alloc_count)
  end.

Definition set_table {D} (st : state D) (table : list Z) : state D :=
  mkState (quit st) (sample_rate st) (table_length st) (phase_double st)
          (phase_int st) table (note st) (octave st) (max_note st) (min_note st).

(** [init_data]: the new variables, the pointer now in
    [sine_wave_table] and the new [alloc_count].  The builder is called
    on the pointer as it is; through [NULL] no cell can be stored. *)
Definition init_data {D} {DD : CDouble D} {LM : Libm D} (st : state D) (alloc_count : Z)
    (malloc : option (list Z)) : option (state D * option (list Z) * Z) :=
  let '(ptr, alloc_count) := alloc_memory malloc alloc_count in
  table ← build_sine_table (default [] ptr) (table_length st);
  Some (set_table st table,
        match ptr with Some _ => Some table | None => None end,
        alloc_count).

(** [cleanup_data]: the [alloc_count] it prints after freeing the
    table. *)
Definition cleanup_data (sine_wave_table : option (list Z)) (alloc_count : Z) : Z :=
  snd (free_memory sine_wave_table alloc_count).

(** ** run *)

(** The static variables as the program starts: no table yet. *)
Definition static_state `{CDouble D} : state D :=
  mkState false 44100 1024 (d_of_int 0) 0 [] 30 2 131 12.

(** How [run] ends on the turns it is given: it returns, and
    [cleanup_data] has printed [alloc_count]; or it is still in the loop
    after the last turn; or [init_data] has stored outside every block.
    The calls that set up and close SDL change none of the variables
    here, and the audio callback, which runs beside the loop, changes
    only the phase. *)
Inductive run_result (D : Type) :=
  | Finished (st : state D) (alloc_count : Z)
  | Running
  | Undefined.
Arguments Finished {D}.
Arguments Running {D}.
Arguments Undefined {D}.

Definition run {D} {DD : CDouble D} {LM : Libm D}
    (malloc : option (list Z)) (turns : list (list SDL_Event)) : run_result D :=
  match init_data static_state 0 malloc with
  | None => Undefined
  | Some (st, sine_wave_table, alloc_count) =>
      match run_loop st turns with
      | None => Running
      | Some (st', _) => Finished st' (cleanup_data sine_wave_table alloc_count)
      end
  end.

(** * The first sample: white noise

    [synth_samples_sdl2_1.c] has the same callback frame, and fills the
    buffer with scaled values of [rand()].  The generator is the
    sequence [rand] of the values it returns, call after call, and
    [calls] counts the calls made so far. *)

Module Noise.

(** [(Sint16)(rand()%(INT16_MAX*2))-INT16_MAX], stored in a [Sint16]:
    the cast applies to the remainder, the subtraction is done in [int],
    and the initialisation converts the difference again. *)
Definition raw_sample (r : Z) : Z :=
  to_int16 (to_int16 (Z.rem r (INT16_MAX * 2)) - INT16_MAX).

(** The loop [for (int i = 0; i < remain; i += 2)], [n] iterations
    left. *)
Fixpoint noise_loop {D} {DD : CDouble D} (rand : nat -> Z) (n : nat) (bytes : list Z)
    (i : Z) (calls : nat) : option (list Z * nat) :=
  match n with
  | O => Some (bytes, calls)
  | S n' =>
      let sample := raw_sample (rand calls) in
      let sample := scale_volume sample in
      bytes1 ← store16 bytes i sample;
      bytes2 ← store16 bytes1 (i + 1) sample;
      noise_loop rand n' bytes2 (i + 2) (S calls)
  end.

Definition audio_callback {D} {DD : CDouble D} (quit : bool) (rand : nat -> Z) (calls : nat)
    (byte_stream : list Z) (byte_stream_length : Z) : option (list Z * nat) :=
  bytes ← memset byte_stream 0 byte_stream_length;
  if quit then Some (bytes, calls)
  else
    let remain := Z.quot byte_stream_length 2 in
    noise_loop rand (frame_count remain) bytes 0 calls.

End Noise.

(** * The vocabulary of the statements *)

(** ** States and runs *)

Section Vocabulary.
Context {D : Type} {DD : CDouble D} {LM : Libm D}.
Implicit Types (st : state D) (ph : D * Z).

(** The pair [(phase_double, phase_int)] of a state, and the state with
    another pair: what a run of frames changes. *)
Definition phase_of st : D * Z := (phase_double st, phase_int st).

Definition with_phase st ph : state D := set_phase st (fst ph) (snd ph).

(** The guard of line 249. *)
Definition in_table st (idx : Z) : Prop := 0 <= idx < table_length st.

(** The index the oscillator reaches at frame [f] (counted from 0) of a
    run that starts in state [st]. *)
Definition frame_index st (inc : D) (f : nat) : Z :=
  snd (osc_run inc (table_length st) (S f) (phase_of st)).

End Vocabulary.

(** The number of chunks of one callback. *)
Definition iterations_of (byte_stream_length : Z) : Z :=
  Z.quot (Z.quot byte_stream_length 2) 64.

(** What the key handler keeps true: the octave is within [0, 6], the
    note within the clamps, and the clamps are the initial ones. *)
Definition keys_inv {D} (st : state D) : Prop :=
  0 <= octave st <= 6 /\ 12 <= note st <= 131 /\
  min_note st = 12 /\ max_note st = 131.

(** In exact arithmetic: [p] is [x] reduced modulo [N]. *)
Definition reduced (x N p : Q) : Prop :=
  (0 <= p /\ p < N /\ exists q : Z, x == N * inject_Z q + p)%Q.

(** ** Binary64 numbers and their values

    The specification of the primitive floats ([SpecFloat]) describes a
    finite number by a mantissa and an exponent, and rounds by shifting
    the mantissa right. *)

(** The flag "some bit shifted out was a one". *)
Definition inexact (mrs : shr_record) : bool := shr_r mrs || shr_s mrs.

(** The value of mantissa [m] at exponent [e], in units of [2^-1074]. *)
Definition sv (m e : Z) : Z := m * 2 ^ (e + 1074).

(** [m] at exponent [e] is a number of the format, canonical or not. *)
Definition fits (m e : Z) : Prop := 0 < m < 2 ^ 53 /\ -1074 <= e <= 971.

(** What the rounding functions return on a nonnegative value: a
    nonnegative finite number. *)
Definition nonneg_finite (x : spec_float) : Prop :=
  match x with
  | S754_zero _ => True
  | S754_finite false _ e => -1074 <= e
  | _ => False
  end.

(** Its value, in units of [2^-1074]. *)
Definition val (x : spec_float) : Z :=
  match x with
  | S754_finite false m e => sv (Zpos m) e
  | _ => 0
  end.

(** The same for a primitive float. *)
Definition fin_nonneg (x : float) : Prop := nonneg_finite (Prim2SF x).

Definition fval (x : float) : Z := val (Prim2SF x).

(** The phase is in [0, N), and the increment in (0, N), as the program
    compares them with [table_length]. *)
Definition phase_in_range (N : Z) (p : float) : Prop :=
  (0 <=? p)%float = true /\ (p <? Ieee.of_Z N)%float = true.

Definition increment_in_range (N : Z) (inc : float) : Prop :=
  (0 <? inc)%float = true /\ (inc <? Ieee.of_Z N)%float = true.

(** ** Keys and events *)

(** The keys of a poll that reach the key handler. *)
Definition key_downs (pending : list SDL_Event) : list SDL_Keycode :=
  omap (fun event => match event with SDL_KEYDOWN sym => Some sym | _ => None end) pending.

Definition has_quit (pending : list SDL_Event) : bool :=
  existsb (fun event => match event with SDL_QUIT => true | _ => false end) pending.

(** The keys of a sequence are all octave keys. *)
Definition octave_keys (keys : list SDL_Keycode) : Prop :=
  Forall (fun sym => sym = SDLK_PLUS \/ sym = SDLK_MINUS) keys.

(** What every state the keyboard can reach satisfies: the note is a key
    offset (12 to 40) above twelve times the octave, or still the initial
    offset 6. *)
Definition reachable_inv {D} (st : state D) : Prop :=
  0 <= octave st <= 6 /\ min_note st = 12 /\ max_note st = 131 /\
  (12 <= note st - 12 * octave st <= 40 \/
   (note st - 12 * octave st = 6 /\ 1 <= octave st)).

(** The notes that have a name, 12 to 131, in order. *)
Definition named_notes : list Z := map Z.of_nat (seq 12 120).

(** A way to a note from the initial state: down to octave 0, up to
    the octave wanted, then the key of the offset. *)
Definition key_of_offset (offset : Z) : SDL_Keycode :=
  match offset with
  | 12 => SDLK_z | 13 => SDLK_s | 14 => SDLK_x | 15 => SDLK_d | 16 => SDLK_c
  | 17 => SDLK_v | 18 => SDLK_g | 19 => SDLK_b | 20 => SDLK_h | 21 => SDLK_n
  | 22 => SDLK_j | 23 => SDLK_m | 24 => SDLK_q | 25 => SDLK_2 | 26 => SDLK_w
  | 27 => SDLK_3 | 28 => SDLK_e | 29 => SDLK_r | 30 => SDLK_5 | 31 => SDLK_t
  | 32 => SDLK_6 | 33 => SDLK_y | 34 => SDLK_7 | 35 => SDLK_u | 36 => SDLK_i
  | 37 => SDLK_9 | 38 => SDLK_o | 39 => SDLK_0 | 40 => SDLK_p
  | _ => SDLK_other
  end.

Definition keys_to (n : Z) : list SDL_Keycode :=
  let o := Z.min 6 ((n - 12) / 12) in
  [SDLK_MINUS; SDLK_MINUS] ++ replicate (Z.to_nat o) SDLK_PLUS ++ [key_of_offset (n - 12 * o)].

(** ** Samples *)

(** The table holds [int16_t] values. *)
Definition int16_table (table : list Z) : Prop :=
  Forall (fun v => -32768 <= v <= 32767) table.

(** ** Checking a predicate on a run of integers *)

(** [f] holds at [z], [z + 1], ..., [n] numbers in all. *)
Fixpoint all_from (f : Z -> bool) (n : nat) (z : Z) : bool :=
  match n with
  | O => true
  | S n' => f z && all_from f n' (z + 1)
  end.

(** The product [s * 0.3] in binary64 lies between the integers
    [3 s / 10] and [3 s / 10 + 1]. *)
Definition scaled_between (s : Z) : bool :=
  let x := (Ieee.of_Z s * 0.3)%float in
  let q := 3 * s / 10 in
  (0 <=? x)%float && (Ieee.of_Z q <=? x)%float && (x <? Ieee.of_Z (q + 1))%float.

(** ** Concrete inputs *)

(** The table [init_data] builds, with the stand-in [sin]. *)
Definition ref_table : list Z :=
  default [] (build_sine_table (LM := ieee_libm) (replicate 1024 0) 1024).

(** The state while A4 (note 57) is held, and the state with no note. *)
Definition st_a4 : state float := mkState false 44100 1024 0%float 0 ref_table 57 2 131 12.

Definition st_idle : state float := mkState false 44100 1024 0%float 0 ref_table 0 2 131 12.

(** The increment for A4 at 44100 Hz on a table of 1024 entries. *)
Definition inc_a4 : float := (440 / 44100 * 1024)%float.

(** * Properties *)

(** ** Machine integers and memory *)

Lemma wrap32_id z : INT_MIN <= z <= INT_MAX -> wrap32 z = z.
Proof.
  unfold wrap32, INT_MIN, INT_MAX. intros Hz.
  rewrite Z.mod_small by lia. lia.
Qed.

Lemma to_int16_id z : -32768 <= z <= 32767 -> to_int16 z = z.
Proof.
  unfold to_int16. intros Hz. rewrite Z.mod_small by lia. lia.
Qed.

Lemma to_int16_range z : -32768 <= to_int16 z <= 32767.
Proof.
  unfold to_int16. pose proof (Z.mod_pos_bound (z + 32768) 65536). lia.
Qed.

(** ** Note and octave *)

Section Keys.
Context {D : Type}.
Implicit Types st : state D.

Lemma key_note_range sym n : key_note sym = Some n -> 12 <= n <= 40.
Proof. destruct sym; simpl; intros [= <-]; lia. Qed.

Lemma handle_note_keys_inv st sym :
  keys_inv st -> keys_inv (handle_note_keys st sym).
Proof.
  intros (Ho & Hn & Hmin & Hmax).
  assert (Hplus : wrap32 (octave st + 1) = octave st + 1)
    by (apply wrap32_id; unfold INT_MIN, INT_MAX; lia).
  assert (Hminus : wrap32 (octave st - 1) = octave st - 1)
    by (apply wrap32_id; unfold INT_MIN, INT_MAX; lia).
  assert (Hn12 : wrap32 (note st + 12) = note st + 12)
    by (apply wrap32_id; unfold INT_MIN, INT_MAX; lia).
  assert (Hn12' : wrap32 (note st - 12) = note st - 12)
    by (apply wrap32_id; unfold INT_MIN, INT_MAX; lia).
  assert (Ho12 : wrap32 (octave st * 12) = octave st * 12)
    by (apply wrap32_id; unfold INT_MIN, INT_MAX; lia).
  assert (Hnote : forall n, key_note sym = Some n ->
            keys_inv (if n >? -1
                      then set_note_octave st (wrap32 (n + wrap32 (octave st * 12))) (octave st)
                      else st)).
  { intros n Hk. apply key_note_range in Hk.
    destruct (Z.gtb_spec n (-1)); [|lia].
    rewrite Ho12, wrap32_id by (unfold INT_MIN, INT_MAX; lia).
    unfold keys_inv; simpl. lia. }
  unfold handle_note_keys.
  destruct sym; try (cbn [key_note]; apply Hnote; reflexivity).
  - rewrite Hplus, Hn12, Hmax.
    destruct (Z.gtb_spec (octave st + 1) 6);
      [|destruct (Z.gtb_spec (note st + 12) 131)];
      unfold keys_inv; simpl; lia.
  - rewrite Hminus, Hn12', Hmin.
    destruct (Z.ltb_spec (octave st - 1) 0);
      [|destruct (Z.ltb_spec (note st - 12) 12)];
      unfold keys_inv; simpl; lia.
  - simpl. unfold keys_inv. lia.
Qed.

Lemma handle_keys_inv keys st : keys_inv st -> keys_inv (handle_keys st keys).
Proof.
  unfold handle_keys. revert st.
  induction keys as [|sym keys IH]; intros st Hst; simpl; [assumption|].
  apply IH, handle_note_keys_inv, Hst.
Qed.

End Keys.

(** C7. From the initial state (note 30, octave 2, clamps 12 and 131),
    after any sequence of key-down events the octave is within [0, 6] and
    the note within [min_note, max_note] = [12, 131]. *)
Theorem note_octave_clamped `{CDouble D} (table : list Z) (keys : list SDL_Keycode) :
  let st := handle_keys (initial_state table) keys in
  0 <= octave st <= 6 /\
  min_note st <= note st <= max_note st /\
  min_note st = 12 /\ max_note st = 131.
Proof.
  intros st.
  assert (Hinv : keys_inv st).
  { apply handle_keys_inv. unfold keys_inv, initial_state; simpl. lia. }
  destruct Hinv as (Ho & Hn & Hmin & Hmax). rewrite Hmin, Hmax. lia.
Qed.

(** C8. An octave increment at octave 6 leaves the octave at 6 and the
    note as it was; an octave decrement at octave 0 leaves the octave at 0
    and the note as it was; so the note is shifted only when the octave
    was not at the boundary.  Below the boundary the octave moves by one
    and the note by twelve, clamped. *)
Theorem octave_keys_at_boundary {D} (st : state D) :
  (octave st = 6 ->
     octave (handle_note_keys st SDLK_PLUS) = 6 /\
     note (handle_note_keys st SDLK_PLUS) = note st) /\
  (octave st = 0 ->
     octave (handle_note_keys st SDLK_MINUS) = 0 /\
     note (handle_note_keys st SDLK_MINUS) = note st) /\
  (note (handle_note_keys st SDLK_PLUS) <> note st -> octave st <> 6) /\
  (note (handle_note_keys st SDLK_MINUS) <> note st -> octave st <> 0) /\
  (0 <= octave st < 6 -> INT_MIN <= note st <= INT_MAX - 12 ->
     octave (handle_note_keys st SDLK_PLUS) = octave st + 1 /\
     note (handle_note_keys st SDLK_PLUS) = Z.min (note st + 12) (max_note st)) /\
  (0 < octave st <= 6 -> INT_MIN + 12 <= note st <= INT_MAX ->
     octave (handle_note_keys st SDLK_MINUS) = octave st - 1 /\
     note (handle_note_keys st SDLK_MINUS) = Z.max (note st - 12) (min_note st)).
Proof.
  assert (Hplus : octave st = 6 ->
            octave (handle_note_keys st SDLK_PLUS) = 6 /\
            note (handle_note_keys st SDLK_PLUS) = note st).
  { intros Ho. unfold handle_note_keys. rewrite Ho. simpl. auto. }
  assert (Hminus : octave st = 0 ->
            octave (handle_note_keys st SDLK_MINUS) = 0 /\
            note (handle_note_keys st SDLK_MINUS) = note st).
  { intros Ho. unfold handle_note_keys. rewrite Ho. simpl. auto. }
  refine (conj Hplus (conj Hminus (conj _ (conj _ (conj _ _))))).
  - intros Hne Ho. apply Hplus in Ho. tauto.
  - intros Hne Ho. apply Hminus in Ho. tauto.
  - intros Ho Hn. unfold handle_note_keys, INT_MIN, INT_MAX in *.
    rewrite (wrap32_id (octave st + 1)) by (unfold INT_MIN, INT_MAX; lia).
    destruct (Z.gtb_spec (octave st + 1) 6); [lia|].
    rewrite wrap32_id by (unfold INT_MIN, INT_MAX; lia).
    destruct (Z.gtb_spec (note st + 12) (max_note st)); simpl; lia.
  - intros Ho Hn. unfold handle_note_keys, INT_MIN, INT_MAX in *.
    rewrite (wrap32_id (octave st - 1)) by (unfold INT_MIN, INT_MAX; lia).
    destruct (Z.ltb_spec (octave st - 1) 0); [lia|].
    rewrite wrap32_id by (unfold INT_MIN, INT_MAX; lia).
    destruct (Z.ltb_spec (note st - 12) (min_note st)); simpl; lia.
Qed.

(** ** Loads and stores *)

Lemma store16_length bytes j v bytes' :
  store16 bytes j v = Some bytes' -> length bytes' = length bytes.
Proof.
  unfold store16. destruct (_ && _); [|discriminate].
  intros [= <-]. now rewrite !length_insert.
Qed.

Lemma store16_in_bounds bytes j v :
  0 <= j -> 2 * j + 1 < Z.of_nat (length bytes) -> is_Some (store16 bytes j v).
Proof.
  intros Hj Hlen. unfold store16.
  destruct (Z.leb_spec 0 j); [|lia].
  destruct (Z.ltb_spec (2 * j + 1) (Z.of_nat (length bytes))); [|lia].
  simpl. eauto.
Qed.

Lemma store16_other bytes j v bytes' (k : nat) :
  store16 bytes j v = Some bytes' ->
  Z.of_nat k <> 2 * j -> Z.of_nat k <> 2 * j + 1 ->
  bytes' !! k = bytes !! k.
Proof.
  unfold store16.
  destruct (Z.leb_spec 0 j); [|discriminate].
  destruct (_ <? _); [|discriminate].
  simpl. intros [= <-] H0 H1.
  rewrite !list_lookup_insert_ne by lia. reflexivity.
Qed.

Lemma load16_ext bytes bytes' j :
  bytes' !! Z.to_nat (2 * j) = bytes !! Z.to_nat (2 * j) ->
  bytes' !! Z.to_nat (2 * j + 1) = bytes !! Z.to_nat (2 * j + 1) ->
  load16 bytes' j = load16 bytes j.
Proof. unfold load16. intros -> ->. reflexivity. Qed.

Lemma load16_store16_other bytes j v bytes' j' :
  store16 bytes j v = Some bytes' -> 0 <= j' -> j' <> j ->
  load16 bytes' j' = load16 bytes j'.
Proof.
  intros Hst Hj' Hne.
  apply load16_ext; apply (store16_other _ _ _ _ _ Hst); lia.
Qed.

Lemma int16_bytes v :
  -32768 <= v <= 32767 ->
  to_int16 ((v mod 65536) mod 256 + 256 * ((v mod 65536) / 256)) = v.
Proof.
  intros Hv.
  rewrite Z.add_comm, <- (Z.div_mod (v mod 65536) 256) by lia.
  unfold to_int16. Z.div_mod_to_equations. lia.
Qed.

Lemma load16_store16_eq bytes j v bytes' :
  store16 bytes j v = Some bytes' -> -32768 <= v <= 32767 ->
  load16 bytes' j = Some v.
Proof.
  unfold store16, load16.
  destruct (Z.leb_spec 0 j); [|discriminate].
  destruct (Z.ltb_spec (2 * j + 1) (Z.of_nat (length bytes))); [|discriminate].
  cbn [andb]. intros [= <-] Hv.
  rewrite (list_lookup_insert_ne _ (Z.to_nat (2 * j + 1)) (Z.to_nat (2 * j))) by lia.
  rewrite !list_lookup_insert_eq by (rewrite ?length_insert; lia).
  cbn [mbind option_bind]. now rewrite int16_bytes.
Qed.

Lemma load16_zero bytes j :
  0 <= j ->
  bytes !! Z.to_nat (2 * j) = Some 0 -> bytes !! Z.to_nat (2 * j + 1) = Some 0 ->
  load16 bytes j = Some 0.
Proof.
  intros Hj H0 H1. unfold load16.
  destruct (Z.leb_spec 0 j); [|lia]. now rewrite H0, H1.
Qed.

Lemma memset_full block n :
  n = Z.of_nat (length block) ->
  memset block 0 n = Some (replicate (length block) 0).
Proof.
  intros ->. unfold memset.
  destruct (Z.leb_spec 0 (Z.of_nat (length block))); [|lia].
  rewrite Z.leb_refl. simpl.
  rewrite Nat2Z.id, drop_all, app_nil_r. reflexivity.
Qed.

Lemma load_table_in_bounds (table : list Z) i :
  0 <= i < Z.of_nat (length table) -> is_Some (load_table table i).
Proof.
  intros Hi. unfold load_table.
  destruct (Z.leb_spec 0 i); [|lia].
  apply lookup_lt_is_Some_2. lia.
Qed.

(** ** The fill routine *)

Section Fill.
Context {D : Type} {DD : CDouble D} {LM : Libm D}.
Implicit Types (st : state D) (bytes : list Z) (ph : D * Z).

Lemma with_phase_phase_of st : with_phase st (phase_of st) = st.
Proof. now destruct st. Qed.

Lemma with_phase_twice st ph ph' : with_phase (with_phase st ph) ph' = with_phase st ph'.
Proof. reflexivity. Qed.

Lemma phase_increment_with_phase st ph :
  phase_increment_of (with_phase st ph) = phase_increment_of st.
Proof. reflexivity. Qed.

Lemma osc_run_snoc inc N k ph :
  osc_run inc N (S k) ph = osc_advance inc N (fst (osc_run inc N k ph)).
Proof.
  revert ph. induction k as [|k IH]; intros ph; [reflexivity|].
  change (osc_run inc N (S (S k)) ph)
    with (osc_run inc N (S k) (osc_advance inc N (fst ph))).
  rewrite IH. reflexivity.
Qed.

Lemma osc_run_add inc N j k ph :
  osc_run inc N (j + k) ph = osc_run inc N k (osc_run inc N j ph).
Proof.
  revert ph. induction j as [|j IH]; intros ph; [reflexivity|].
  simpl. apply IH.
Qed.

Lemma guard_true st idx :
  in_table st idx -> (idx <? table_length st) && (-1 <? idx) = true.
Proof.
  intros [H0 H1]. apply andb_true_intro.
  split; apply Z.ltb_lt; lia.
Qed.

Lemma guard_false st idx :
  ~ in_table st idx -> (idx <? table_length st) && (-1 <? idx) = false.
Proof.
  intros Hn. unfold in_table in Hn.
  destruct (Z.ltb_spec idx (table_length st)); [|reflexivity].
  destruct (Z.ltb_spec (-1) idx); [lia|reflexivity].
Qed.

(** A frame whose index fails the guard: the phase moves, nothing is
    read and nothing is written. *)
Lemma write_frame_skip st p bytes begin i inc :
  let ph := osc_advance inc (table_length st) (phase_double st) in
  ~ in_table st (snd ph) ->
  write_frame st p bytes begin i inc = Some (with_phase st ph, bytes).
Proof.
  intros ph Hn. unfold write_frame. fold ph.
  destruct ph as [pd pi] eqn:Eph. simpl in Hn.
  rewrite (guard_false st pi Hn). reflexivity.
Qed.

(** A frame whose index passes the guard, on a table of at least
    [table_length] entries and with both slots inside the buffer. *)
Lemma write_frame_play st bytes begin i inc :
  let ph := osc_advance inc (table_length st) (phase_double st) in
  in_table st (snd ph) ->
  table_length st <= Z.of_nat (length (sine_wave_table st)) ->
  0 <= i + begin -> 2 * (i + begin + 1) + 1 < Z.of_nat (length bytes) ->
  exists v bytes1 bytes2,
    load_table (sine_wave_table st) (snd ph) = Some v /\
    store16 bytes (i + begin) (scale_volume v) = Some bytes1 /\
    store16 bytes1 (i + begin + 1) (scale_volume v) = Some bytes2 /\
    write_frame st Stream bytes begin i inc = Some (with_phase st ph, bytes2).
Proof.
  intros ph Hin Htab Hlo Hhi. unfold write_frame. fold ph.
  destruct ph as [pd pi] eqn:Eph. simpl in Hin |- *.
  rewrite (guard_true st pi Hin).
  destruct (load_table_in_bounds (sine_wave_table st) pi) as [v Hv];
    [unfold in_table in Hin; lia|].
  destruct (store16_in_bounds bytes (i + begin) (scale_volume v)) as [b1 Hb1];
    [lia|lia|].
  destruct (store16_in_bounds b1 (i + begin + 1) (scale_volume v)) as [b2 Hb2];
    [lia|rewrite (store16_length _ _ _ _ Hb1); lia|].
  exists v, b1, b2. rewrite Hv, Hb1. cbn [mbind option_bind]. rewrite Hb1.
  cbn [mbind option_bind]. rewrite Hb2. auto.
Qed.

Lemma phase_of_with_phase st ph : phase_of (with_phase st ph) = ph.
Proof. now destruct ph. Qed.

Lemma frame_index_S st inc f :
  frame_index st inc (S f) =
  frame_index (with_phase st (osc_advance inc (table_length st) (phase_double st))) inc f.
Proof. unfold frame_index. rewrite phase_of_with_phase. reflexivity. Qed.

Lemma in_table_dec st idx : {in_table st idx} + {~ in_table st idx}.
Proof.
  unfold in_table.
  destruct (Z_le_dec 0 idx); [|right; lia].
  destruct (Z_lt_dec idx (table_length st)); [left|right]; lia.
Qed.

(** What one frame does to the buffer: two slots, nothing else. *)
Lemma write_frame_effect st bytes begin i inc :
  let ph := osc_advance inc (table_length st) (phase_double st) in
  table_length st <= Z.of_nat (length (sine_wave_table st)) ->
  0 <= i + begin -> 2 * (i + begin + 2) <= Z.of_nat (length bytes) ->
  exists bytes1,
    write_frame st Stream bytes begin i inc = Some (with_phase st ph, bytes1) /\
    length bytes1 = length bytes /\
    (forall k : nat,
       Z.of_nat k < 2 * (i + begin) \/ 2 * (i + begin + 2) <= Z.of_nat k ->
       bytes1 !! k = bytes !! k) /\
    (in_table st (snd ph) ->
       exists v, load_table (sine_wave_table st) (snd ph) = Some v /\
         load16 bytes1 (i + begin) = Some (scale_volume v) /\
         load16 bytes1 (i + begin + 1) = Some (scale_volume v)) /\
    (~ in_table st (snd ph) -> bytes1 = bytes).
Proof.
  intros ph Htab Hlo Hhi.
  destruct (in_table_dec st (snd ph)) as [Hin|Hout].
  - destruct (write_frame_play st bytes begin i inc Hin Htab Hlo)
      as (v & b1 & b2 & Hv & Hb1 & Hb2 & Hw); [lia|].
    exists b2. split; [exact Hw|]. split.
    { rewrite (store16_length _ _ _ _ Hb2). apply (store16_length _ _ _ _ Hb1). }
    split.
    { intros k Hk.
      rewrite (store16_other _ _ _ _ k Hb2) by lia.
      apply (store16_other _ _ _ _ k Hb1); lia. }
    split; [|tauto].
    intros _. exists v. split; [exact Hv|].
    assert (Hr : -32768 <= scale_volume v <= 32767) by apply to_int16_range.
    split.
    + rewrite (load16_store16_other _ _ _ _ (i + begin) Hb2) by lia.
      apply (load16_store16_eq _ _ _ _ Hb1 Hr).
    + apply (load16_store16_eq _ _ _ _ Hb2 Hr).
  - exists bytes. split; [apply write_frame_skip, Hout|].
    repeat split; auto. tauto.
Qed.

(** A run of [n] frames from slot [i + begin]: the phase has advanced
    [n] times; frame [f] has put its sample into slots [i + begin + 2f]
    and [i + begin + 2f + 1], or has left them alone if its index failed
    the guard; every other byte is as before. *)
Lemma frame_loop_spec inc begin n : forall st bytes i,
  table_length st <= Z.of_nat (length (sine_wave_table st)) ->
  0 <= i + begin -> 2 * (i + begin + 2 * Z.of_nat n) <= Z.of_nat (length bytes) ->
  exists bytes',
    frame_loop n st Stream bytes begin i inc =
      Some (with_phase st (osc_run inc (table_length st) n (phase_of st)), bytes') /\
    length bytes' = length bytes /\
    (forall k : nat,
       Z.of_nat k < 2 * (i + begin) \/ 2 * (i + begin + 2 * Z.of_nat n) <= Z.of_nat k ->
       bytes' !! k = bytes !! k) /\
    (forall f : nat, (f < n)%nat ->
       let idx := frame_index st inc f in
       let j := i + begin + 2 * Z.of_nat f in
       (in_table st idx ->
          exists v, load_table (sine_wave_table st) idx = Some v /\
            load16 bytes' j = Some (scale_volume v) /\
            load16 bytes' (j + 1) = Some (scale_volume v)) /\
       (~ in_table st idx ->
          load16 bytes' j = load16 bytes j /\
          load16 bytes' (j + 1) = load16 bytes (j + 1))).
Proof.
  induction n as [|n IH]; intros st bytes i Htab Hlo Hhi.
  - exists bytes. simpl. rewrite with_phase_phase_of.
    repeat split; auto; lia.
  - set (ph := osc_advance inc (table_length st) (phase_double st)).
    destruct (write_frame_effect st bytes begin i inc Htab Hlo)
      as (b1 & Hw & Hlen1 & Hout1 & Hplay & Hskip); [lia|].
    fold ph in Hw, Hplay, Hskip.
    destruct (IH (with_phase st ph) b1 (i + 2)) as (b' & Hl & Hlen & Hout & Hfr).
    { exact Htab. }
    { lia. }
    { rewrite Hlen1. lia. }
    exists b'.
    split.
    { cbn [frame_loop]. rewrite Hw. cbn [mbind option_bind]. rewrite Hl.
      rewrite with_phase_twice, phase_of_with_phase. reflexivity. }
    split; [congruence|].
    split.
    { intros k Hk. rewrite Hout by lia. apply Hout1. lia. }
    intros [|f] Hf idx j.
    + subst idx j. unfold frame_index. cbn [osc_run]. fold ph.
      change (fst (phase_of st)) with (phase_double st). fold ph.
      replace (i + begin + 2 * Z.of_nat 0) with (i + begin) by lia.
      assert (E0 : load16 b' (i + begin) = load16 b1 (i + begin))
        by (apply load16_ext; apply Hout; lia).
      assert (E1 : load16 b' (i + begin + 1) = load16 b1 (i + begin + 1))
        by (apply load16_ext; apply Hout; lia).
      rewrite E0, E1. split.
      * exact Hplay.
      * intros Hn. rewrite (Hskip Hn). auto.
    + subst idx j. rewrite frame_index_S. fold ph.
      replace (i + begin + 2 * Z.of_nat (S f)) with (i + 2 + begin + 2 * Z.of_nat f) by lia.
      destruct (Hfr f ltac:(lia)) as [Hp Hs].
      split; [exact Hp|].
      intros Hn. destruct (Hs Hn) as [E0 E1]. rewrite E0, E1.
      split; apply load16_ext; apply Hout1; lia.
Qed.

(** *** Chunks

    [write_samples] only ever adds [i] and [begin]; so a chunk that begins
    at slot [begin] is a run of frames from slot [begin], and the chunks of
    one callback, taken in order, are one run of frames over the buffer. *)

Lemma write_frame_shift st p bytes begin i inc :
  write_frame st p bytes begin i inc = write_frame st p bytes 0 (i + begin) inc.
Proof. unfold write_frame. rewrite !Z.add_0_r. reflexivity. Qed.

Lemma frame_loop_shift inc p begin n : forall st bytes i,
  frame_loop n st p bytes begin i inc = frame_loop n st p bytes 0 (i + begin) inc.
Proof.
  induction n as [|n IH]; intros st bytes i; [reflexivity|].
  cbn [frame_loop]. rewrite write_frame_shift.
  destruct (write_frame st p bytes 0 (i + begin) inc) as [[st' b']|]; [|reflexivity].
  cbn [mbind option_bind]. rewrite IH.
  replace (i + 2 + begin) with (i + begin + 2) by lia. reflexivity.
Qed.

Lemma frame_loop_app inc p begin n m : forall st bytes i,
  frame_loop (n + m) st p bytes begin i inc =
  match frame_loop n st p bytes begin i inc with
  | Some (st', bytes') => frame_loop m st' p bytes' begin (i + 2 * Z.of_nat n) inc
  | None => None
  end.
Proof.
  induction n as [|n IH]; intros st bytes i.
  - cbn [frame_loop Nat.add]. rewrite Z.add_0_r. reflexivity.
  - cbn [frame_loop Nat.add].
    destruct (write_frame st p bytes begin i inc) as [[st' b']|]; [|reflexivity].
    cbn [mbind option_bind]. rewrite IH.
    replace (i + 2 + 2 * Z.of_nat n) with (i + 2 * Z.of_nat (S n)) by lia.
    reflexivity.
Qed.

Lemma write_frame_state st p bytes begin i inc st' bytes' :
  write_frame st p bytes begin i inc = Some (st', bytes') ->
  exists ph, st' = with_phase st ph.
Proof.
  unfold write_frame.
  destruct (osc_advance inc (table_length st) (phase_double st)) as [pd pi].
  intros Hw. exists (pd, pi). unfold with_phase. cbn [fst snd].
  destruct (_ && _); [|congruence].
  destruct p; [congruence|].
  destruct (load_table _ _); [|discriminate]. cbn [mbind option_bind] in Hw.
  destruct (store16 bytes _ _); [|discriminate]. cbn [mbind option_bind] in Hw.
  destruct (store16 _ _ _); [|discriminate]. cbn [mbind option_bind] in Hw.
  congruence.
Qed.

Lemma frame_loop_state inc p begin n : forall st bytes i st' bytes',
  frame_loop n st p bytes begin i inc = Some (st', bytes') ->
  exists ph, st' = with_phase st ph.
Proof.
  induction n as [|n IH]; intros st bytes i st' bytes'.
  - intros [= <- <-]. exists (phase_of st). now rewrite with_phase_phase_of.
  - cbn [frame_loop].
    destruct (write_frame st p bytes begin i inc) as [[st1 b1]|] eqn:Hw; [|discriminate].
    cbn [mbind option_bind]. intros Hl.
    destruct (write_frame_state _ _ _ _ _ _ _ _ Hw) as [ph1 ->].
    destruct (IH _ _ _ _ _ Hl) as [ph ->].
    exists ph. reflexivity.
Qed.

Lemma write_samples_active st p bytes begin end_ :
  0 < note st ->
  write_samples st p bytes begin end_ 64 =
  frame_loop 32 st p bytes begin 0 (phase_increment_of st).
Proof.
  intros Hn. unfold write_samples.
  destruct (Z.gtb_spec (note st) 0); [reflexivity|lia].
Qed.

Lemma write_samples_silent st p bytes begin end_ length :
  note st <= 0 -> write_samples st p bytes begin end_ length = Some (st, bytes).
Proof.
  intros Hn. unfold write_samples.
  destruct (Z.gtb_spec (note st) 0); [lia|reflexivity].
Qed.

Lemma chunk_loop_silent n : forall st bytes i chunk_size,
  note st <= 0 -> chunk_loop n st bytes i chunk_size = Some (st, bytes).
Proof.
  induction n as [|n IH]; intros st bytes i chunk_size Hn; [reflexivity|].
  cbn [chunk_loop]. rewrite write_samples_silent by exact Hn.
  cbn [mbind option_bind]. apply IH, Hn.
Qed.

Lemma chunk_loop_fuse n : forall st bytes c,
  0 < note st ->
  chunk_loop n st bytes c 64 =
  frame_loop (32 * n) st Stream bytes 0 (64 * c) (phase_increment_of st).
Proof.
  induction n as [|n IH]; intros st bytes c Hn; [reflexivity|].
  replace (32 * S n)%nat with (32 + 32 * n)%nat by lia.
  rewrite frame_loop_app.
  cbn [chunk_loop]. rewrite write_samples_active by exact Hn.
  rewrite frame_loop_shift. replace (0 + c * 64) with (64 * c) by lia.
  destruct (frame_loop 32 st Stream bytes 0 (64 * c) (phase_increment_of st))
    as [[st' b']|] eqn:Hl; [|reflexivity].
  cbn [mbind option_bind].
  destruct (frame_loop_state _ _ _ _ _ _ _ _ _ Hl) as [ph ->].
  rewrite IH by exact Hn.
  rewrite phase_increment_with_phase.
  replace (64 * (c + 1)) with (64 * c + 2 * Z.of_nat 32) by lia. reflexivity.
Qed.

(** With a note on, the callback is [memset] and then one run of
    [32 * iterations] frames from slot 0. *)
Lemma audio_callback_active st byte_stream byte_stream_length :
  quit st = false -> 0 < note st ->
  audio_callback st byte_stream byte_stream_length =
  match memset byte_stream 0 byte_stream_length with
  | Some bytes =>
      frame_loop (32 * Z.to_nat (iterations_of byte_stream_length)) st Stream
        bytes 0 0 (phase_increment_of st)
  | None => None
  end.
Proof.
  intros Hq Hn. unfold audio_callback. rewrite Hq.
  destruct (memset byte_stream 0 byte_stream_length) as [bytes|]; [|reflexivity].
  cbn [mbind option_bind]. rewrite chunk_loop_fuse by exact Hn. reflexivity.
Qed.

Lemma iterations_bound L :
  0 <= L -> 0 <= iterations_of L /\ 128 * iterations_of L <= L.
Proof.
  intros HL. unfold iterations_of.
  rewrite (Z.quot_div_nonneg L 2) by lia.
  rewrite Z.quot_div_nonneg by (try apply Z.div_pos; lia).
  Z.div_mod_to_equations. lia.
Qed.

Lemma load16_replicate_zero n j :
  0 <= j -> 2 * j + 1 < Z.of_nat n -> load16 (replicate n 0) j = Some 0.
Proof.
  intros Hj Hn. apply load16_zero; [exact Hj| |];
    apply lookup_replicate_2; lia.
Qed.

(** The callback with a note on, on a buffer of [byte_stream_length]
    bytes and a table of at least [table_length] entries. *)
Lemma audio_callback_spec st byte_stream byte_stream_length :
  quit st = false -> 0 < note st ->
  byte_stream_length = Z.of_nat (length byte_stream) ->
  table_length st <= Z.of_nat (length (sine_wave_table st)) ->
  let n := (32 * Z.to_nat (iterations_of byte_stream_length))%nat in
  let inc := phase_increment_of st in
  exists bytes',
    audio_callback st byte_stream byte_stream_length =
      Some (with_phase st (osc_run inc (table_length st) n (phase_of st)), bytes') /\
    length bytes' = length byte_stream /\
    (forall k : nat,
       128 * iterations_of byte_stream_length <= Z.of_nat k < byte_stream_length ->
       bytes' !! k = Some 0) /\
    (forall f : nat, (f < n)%nat ->
       let idx := frame_index st inc f in
       (in_table st idx ->
          exists v, load_table (sine_wave_table st) idx = Some v /\
            load16 bytes' (2 * Z.of_nat f) = Some (scale_volume v) /\
            load16 bytes' (2 * Z.of_nat f + 1) = Some (scale_volume v)) /\
       (~ in_table st idx ->
          load16 bytes' (2 * Z.of_nat f) = Some 0 /\
          load16 bytes' (2 * Z.of_nat f + 1) = Some 0)).
Proof.
  intros Hq Hn HL Htab n inc.
  rewrite audio_callback_active by assumption.
  rewrite memset_full by exact HL.
  destruct (iterations_bound byte_stream_length) as [Hi0 Hi1]; [lia|].
  assert (Hnz : Z.of_nat n = 32 * iterations_of byte_stream_length)
    by (unfold n; lia).
  destruct (frame_loop_spec inc 0 n st (replicate (length byte_stream) 0) 0)
    as (b' & Hl & Hlen & Hout & Hfr).
  { exact Htab. }
  { lia. }
  { rewrite length_replicate. lia. }
  exists b'. fold n inc. split; [exact Hl|].
  rewrite length_replicate in Hlen. split; [exact Hlen|].
  split.
  { intros k Hk. rewrite Hout by lia. apply lookup_replicate_2. lia. }
  intros f Hf idx. destruct (Hfr f Hf) as [Hp Hs]. fold idx in Hp, Hs.
  replace (0 + 0 + 2 * Z.of_nat f) with (2 * Z.of_nat f) in Hp, Hs by lia.
  split; [exact Hp|].
  intros Hni. destruct (Hs Hni) as [E0 E1]. rewrite E0, E1.
  split; apply load16_replicate_zero; lia.
Qed.

(** The callback with no note on (or after [quit]): the zeroed buffer,
    the state untouched. *)
Lemma audio_callback_idle st byte_stream byte_stream_length :
  quit st = true \/ note st <= 0 ->
  byte_stream_length = Z.of_nat (length byte_stream) ->
  audio_callback st byte_stream byte_stream_length =
    Some (st, replicate (length byte_stream) 0).
Proof.
  intros Hidle HL. unfold audio_callback.
  rewrite memset_full by exact HL. cbn [mbind option_bind].
  destruct (quit st) eqn:Hq; [reflexivity|].
  destruct Hidle as [Hidle|Hidle]; [discriminate|].
  apply chunk_loop_silent, Hidle.
Qed.

End Fill.

(** ** The callback *)

(** C5. A callback during which [note <= 0] (and [quit] is clear) returns
    the buffer zeroed from end to end and leaves the state, and with it
    [phase_double] and [phase_int], as it was. *)
Theorem silent_callback_keeps_phase {D} {DD : CDouble D} {LM : Libm D}
    (st : state D) (byte_stream : list Z) (byte_stream_length : Z) :
  quit st = false -> note st <= 0 ->
  byte_stream_length = Z.of_nat (length byte_stream) ->
  exists st' bytes',
    audio_callback st byte_stream byte_stream_length = Some (st', bytes') /\
    bytes' = replicate (length byte_stream) 0 /\
    phase_double st' = phase_double st /\ phase_int st' = phase_int st /\
    st' = st.
Proof.
  intros Hq Hn HL. exists st, (replicate (length byte_stream) 0).
  split; [|auto].
  apply audio_callback_idle; auto.
Qed.

Lemma silent_callback_keeps_phase_witness :
  exists st' bytes',
    audio_callback (LM := ieee_libm) st_idle (replicate 300 7) 300 = Some (st', bytes') /\
    bytes' = replicate (length (replicate 300 7)) 0 /\
    phase_double st' = phase_double st_idle /\ phase_int st' = phase_int st_idle /\
    st' = st_idle.
Proof.
  apply (silent_callback_keeps_phase (LM := ieee_libm) st_idle (replicate 300 7) 300);
    [reflexivity | simpl; lia | reflexivity].
Defined.

(** C9. In the fill routine the table is read only under the guard
    [0 <= phase_int < table_length]: a frame whose index fails the guard
    returns with the buffer as it was, whatever the table (even an empty
    one, which no read could survive); a frame whose index passes reads
    inside a table of [table_length] entries; and so a whole callback,
    on a buffer of the length it is told, runs without an access out of
    bounds. *)
Theorem table_reads_in_bounds {D} {DD : CDouble D} {LM : Libm D}
    (st : state D) (p : int16_ptr) (bytes : list Z) (begin i : Z) (inc : D) :
  let ph := osc_advance inc (table_length st) (phase_double st) in
  (~ in_table st (snd ph) ->
     write_frame st p bytes begin i inc = Some (with_phase st ph, bytes)) /\
  (in_table st (snd ph) ->
     table_length st <= Z.of_nat (length (sine_wave_table st)) ->
     is_Some (load_table (sine_wave_table st) (snd ph))) /\
  (forall byte_stream byte_stream_length,
     byte_stream_length = Z.of_nat (length byte_stream) ->
     table_length st <= Z.of_nat (length (sine_wave_table st)) ->
     is_Some (audio_callback st byte_stream byte_stream_length)).
Proof.
  intros ph. split; [|split].
  - apply write_frame_skip.
  - intros [H0 H1] Htab. apply load_table_in_bounds. lia.
  - intros bs L HL Htab.
    destruct (quit st) eqn:Hq.
    { rewrite audio_callback_idle by auto. eauto. }
    destruct (Z_lt_le_dec 0 (note st)) as [Hn|Hn].
    + destruct (audio_callback_spec st bs L Hq Hn HL Htab) as (b' & -> & _). eauto.
    + rewrite audio_callback_idle by auto. eauto.
Qed.

Lemma table_reads_in_bounds_witness :
  is_Some (load_table (sine_wave_table st_a4)
             (snd (osc_advance (phase_increment_of (LM := ieee_libm) st_a4)
                     (table_length st_a4) (phase_double st_a4)))) /\
  is_Some (audio_callback (LM := ieee_libm) st_a4 (replicate 300 7) 300).
Proof.
  pose proof (table_reads_in_bounds (LM := ieee_libm) st_a4 Stream [] 0 0
                (phase_increment_of (LM := ieee_libm) st_a4)) as (_ & Hread & Hcb).
  split.
  - apply Hread; [vm_compute; split; [discriminate|reflexivity] | vm_compute; discriminate].
  - apply Hcb; [reflexivity | vm_compute; discriminate].
Defined.

(** C10. Only whole chunks are filled: the callback writes at most the
    first [64 * ((L/2)/64)] sample slots; the trailing [(L/2) mod 64]
    slots, and every byte from [128 * ((L/2)/64)] on, stay zero from the
    [memset]; a buffer of fewer than 64 slots comes back all zero, the
    state untouched, even with a note on. *)
Theorem trailing_slots_stay_zero {D} {DD : CDouble D} {LM : Libm D}
    (st : state D) (byte_stream : list Z) (byte_stream_length : Z) :
  byte_stream_length = Z.of_nat (length byte_stream) ->
  table_length st <= Z.of_nat (length (sine_wave_table st)) ->
  exists st' bytes',
    audio_callback st byte_stream byte_stream_length = Some (st', bytes') /\
    (forall j : Z,
       64 * Z.quot (Z.quot byte_stream_length 2) 64 <= j < Z.quot byte_stream_length 2 ->
       load16 bytes' j = Some 0) /\
    (forall k : nat,
       128 * Z.quot (Z.quot byte_stream_length 2) 64 <= Z.of_nat k < byte_stream_length ->
       bytes' !! k = Some 0) /\
    (Z.quot byte_stream_length 2 < 64 ->
       st' = st /\ bytes' = replicate (length byte_stream) 0).
Proof.
  intros HL Htab.
  assert (HL0 : 0 <= byte_stream_length) by lia.
  assert (Hhalf : 2 * Z.quot byte_stream_length 2 <= byte_stream_length).
  { rewrite Z.quot_div_nonneg by lia. Z.div_mod_to_equations. lia. }
  assert (Hzero : forall j : Z,
            0 <= j < Z.quot byte_stream_length 2 ->
            load16 (replicate (length byte_stream) 0) j = Some 0).
  { intros j Hj. apply load16_replicate_zero; lia. }
  destruct (iterations_bound byte_stream_length HL0) as [Hi0 Hi1].
  fold (iterations_of byte_stream_length).
  assert (Hidle : quit st = true \/ note st <= 0 ->
            exists st' bytes',
              audio_callback st byte_stream byte_stream_length = Some (st', bytes') /\
              (forall j : Z,
                 64 * iterations_of byte_stream_length <= j < Z.quot byte_stream_length 2 ->
                 load16 bytes' j = Some 0) /\
              (forall k : nat,
                 128 * iterations_of byte_stream_length <= Z.of_nat k < byte_stream_length ->
                 bytes' !! k = Some 0) /\
              (Z.quot byte_stream_length 2 < 64 ->
                 st' = st /\ bytes' = replicate (length byte_stream) 0)).
  { intros Hi. exists st, (replicate (length byte_stream) 0).
    split; [apply audio_callback_idle; auto|].
    split; [intros j Hj; apply Hzero; lia|].
    split; [|auto].
    intros k Hk. apply lookup_replicate_2. lia. }
  destruct (quit st) eqn:Hq; [apply Hidle; auto|].
  destruct (Z_lt_le_dec 0 (note st)) as [Hn|Hn]; [|apply Hidle; auto].
  destruct (audio_callback_spec st byte_stream byte_stream_length Hq Hn HL Htab)
    as (b' & Hcb & Hlen & Hout & _).
  eexists _, b'. split; [exact Hcb|].
  split; [|split; [exact Hout|]].
  - intros j Hj. apply load16_zero; [lia| |]; apply Hout; lia.
  - intros Hsmall.
    assert (Hit : iterations_of byte_stream_length = 0).
    { unfold iterations_of. apply Z.quot_small.
      split; [apply Z.quot_pos; lia|exact Hsmall]. }
    rewrite Hit. change (32 * Z.to_nat 0)%nat with 0%nat.
    cbn [osc_run]. rewrite with_phase_phase_of.
    split; [reflexivity|].
    apply list_eq. intros k.
    destruct (Nat.lt_ge_cases k (length byte_stream)) as [Hk|Hk].
    + rewrite Hout by lia. symmetry. apply lookup_replicate_2, Hk.
    + rewrite !lookup_ge_None_2; [reflexivity| |]; rewrite ?length_replicate; lia.
Qed.

Lemma trailing_slots_stay_zero_witness :
  exists st' bytes',
    audio_callback (LM := ieee_libm) st_a4 (replicate 300 7) 300 = Some (st', bytes') /\
    (forall j : Z,
       64 * Z.quot (Z.quot 300 2) 64 <= j < Z.quot 300 2 -> load16 bytes' j = Some 0) /\
    (forall k : nat,
       128 * Z.quot (Z.quot 300 2) 64 <= Z.of_nat k < 300 -> bytes' !! k = Some 0) /\
    (Z.quot 300 2 < 64 ->
       st' = st_a4 /\ bytes' = replicate (length (replicate 300 7)) 0).
Proof.
  apply (trailing_slots_stay_zero (LM := ieee_libm) st_a4 (replicate 300 7) 300);
    [reflexivity | vm_compute; discriminate].
Defined.

(** C6, as the code has it.  With a note on, the callback cuts the
    buffer into chunks of 64 sample slots, that is 32 stereo frames
    (not 64 frames), and calls the fill routine on the slots
    [64 c, 64 c + 64) of each chunk [c < (L/2)/64], in order.  In a chunk, and
    so over the callback, the phase advances once per frame (32 times a
    chunk), and both slots of a frame receive the same scaled table
    sample (or stay as they were when the index fails the guard). *)
Theorem callback_fills_frames {D} {DD : CDouble D} {LM : Libm D}
    (st : state D) (byte_stream : list Z) (byte_stream_length : Z) :
  quit st = false -> 0 < note st ->
  byte_stream_length = Z.of_nat (length byte_stream) ->
  table_length st <= Z.of_nat (length (sine_wave_table st)) ->
  let inc := phase_increment_of st in
  let chunks := Z.to_nat (Z.quot (Z.quot byte_stream_length 2) 64) in
  (forall (bytes : list Z) (begin end_ : Z),
     0 <= begin -> 2 * (begin + 64) <= Z.of_nat (length bytes) ->
     exists bytes',
       write_samples st Stream bytes begin end_ 64 =
         Some (with_phase st (osc_run inc (table_length st) 32 (phase_of st)), bytes') /\
       (forall k : nat,
          Z.of_nat k < 2 * begin \/ 2 * (begin + 64) <= Z.of_nat k ->
          bytes' !! k = bytes !! k) /\
       (forall f : nat, (f < 32)%nat ->
          let idx := frame_index st inc f in
          let j := begin + 2 * Z.of_nat f in
          (in_table st idx ->
             exists v, load_table (sine_wave_table st) idx = Some v /\
               load16 bytes' j = Some (scale_volume v) /\
               load16 bytes' (j + 1) = Some (scale_volume v)) /\
          (~ in_table st idx ->
             load16 bytes' j = load16 bytes j /\
             load16 bytes' (j + 1) = load16 bytes (j + 1)))) /\
  (exists bytes',
     audio_callback st byte_stream byte_stream_length =
       Some (with_phase st (osc_run inc (table_length st) (32 * chunks) (phase_of st)),
             bytes') /\
     (forall f : nat, (f < 32 * chunks)%nat ->
        let idx := frame_index st inc f in
        (in_table st idx ->
           exists v, load_table (sine_wave_table st) idx = Some v /\
             load16 bytes' (2 * Z.of_nat f) = Some (scale_volume v) /\
             load16 bytes' (2 * Z.of_nat f + 1) = Some (scale_volume v)) /\
        (~ in_table st idx ->
           load16 bytes' (2 * Z.of_nat f) = Some 0 /\
           load16 bytes' (2 * Z.of_nat f + 1) = Some 0))).
Proof.
  intros Hq Hn HL Htab inc chunks. split.
  - intros bytes begin end_ Hb Hlen.
    rewrite write_samples_active by exact Hn. fold inc.
    destruct (frame_loop_spec inc begin 32 st bytes 0) as (b' & Hl & _ & Hout & Hfr);
      [exact Htab | lia | lia |].
    exists b'. split; [exact Hl|]. split.
    + intros k Hk. apply Hout. lia.
    + intros f Hf idx j. specialize (Hfr f Hf). cbv zeta in Hfr.
      replace (0 + begin + 2 * Z.of_nat f) with j in Hfr by (unfold j; lia).
      exact Hfr.
  - destruct (audio_callback_spec st byte_stream byte_stream_length Hq Hn HL Htab)
      as (b' & Hcb & _ & _ & Hfr).
    exists b'. split; [exact Hcb|exact Hfr].
Qed.

(** The claim as the spec words it, chunks of 64 frames with one phase
    advance per frame, would have one call of the fill routine advance
    the phase 64 times; it advances it 32 times.  A buffer of 128 bytes
    (64 slots, 32 frames) is one chunk. *)
Lemma chunk_of_64_frames_counterexample :
  let inc := phase_increment_of (LM := ieee_libm) st_a4 in
  ~ (exists bytes',
       write_samples (LM := ieee_libm) st_a4 Stream (replicate 128 0) 0 64 64 =
         Some (with_phase st_a4 (osc_run inc 1024 64 (phase_of st_a4)), bytes')) /\
  (exists bytes',
     write_samples (LM := ieee_libm) st_a4 Stream (replicate 128 0) 0 64 64 =
       Some (with_phase st_a4 (osc_run inc 1024 32 (phase_of st_a4)), bytes')) /\
  snd (osc_run inc 1024 32 (phase_of st_a4)) = 326 /\
  snd (osc_run inc 1024 64 (phase_of st_a4)) = 653 /\
  iterations_of 128 = 1.
Proof.
  intros inc. split; [|split; [|split; [|split]]].
  - intros [b' Hb].
    apply (f_equal (fun r => match r with Some (s, _) => phase_int s | None => 0 end)) in Hb.
    vm_compute in Hb. discriminate.
  - eexists. vm_compute. reflexivity.
  - vm_compute. reflexivity.
  - vm_compute. reflexivity.
  - reflexivity.
Qed.

Lemma callback_fills_frames_witness :
  exists bytes',
    audio_callback (LM := ieee_libm) st_a4 (replicate 300 7) 300 =
      Some (with_phase st_a4
              (osc_run (phase_increment_of (LM := ieee_libm) st_a4) 1024 64 (phase_of st_a4)),
            bytes') /\
    load16 bytes' 126 = load16 bytes' 127.
Proof.
  destruct (callback_fills_frames (LM := ieee_libm) st_a4 (replicate 300 7) 300)
    as (_ & b' & Hcb & Hfr);
    [reflexivity | reflexivity | reflexivity | vm_compute; discriminate |].
  exists b'. split; [exact Hcb|].
  destruct (Hfr 63%nat ltac:(vm_compute; lia)) as [Hp _].
  destruct Hp as (v & _ & E0 & E1); [vm_compute; split; [discriminate|reflexivity]|].
  change (2 * Z.of_nat 63) with 126 in E0, E1. change (126 + 1) with 127 in E1.
  now rewrite E0, E1.
Defined.

(** ** The sine table *)

Section Table.
Context {D : Type} {DD : CDouble D} {LM : Libm D}.

Lemma store_table_spec (data : list Z) i v :
  0 <= i < Z.of_nat (length data) ->
  store_table data i v = Some (<[Z.to_nat i := v]> data).
Proof.
  intros Hi. unfold store_table.
  destruct (Z.leb_spec 0 i); [|lia].
  destruct (Z.ltb_spec i (Z.of_nat (length data))); [reflexivity|lia].
Qed.

Lemma sine_loop_spec inc n : forall (data : list Z) (i : Z) (phase : D),
  0 <= i -> i + Z.of_nat n <= Z.of_nat (length data) ->
  exists t,
    sine_loop n i inc phase data = Some t /\
    length t = length data /\
    (forall k : nat, Z.of_nat k < i \/ i + Z.of_nat n <= Z.of_nat k -> t !! k = data !! k) /\
    (forall f : nat, (f < n)%nat ->
       t !! (Z.to_nat i + f)%nat =
       Some (sine_sample (Nat.iter f (fun p => d_add p inc) phase))).
Proof.
  induction n as [|n IH]; intros data i phase Hi Hlen.
  - exists data. repeat split; auto. intros f Hf. lia.
  - cbn [sine_loop]. fold (sine_sample phase).
    rewrite store_table_spec by lia. cbn [mbind option_bind].
    destruct (IH (<[Z.to_nat i := sine_sample phase]> data) (i + 1) (d_add phase inc))
      as (t & Hl & Hlt & Hout & Hfr); [lia|rewrite length_insert; lia|].
    exists t. split; [exact Hl|]. rewrite length_insert in Hlt.
    split; [exact Hlt|]. split.
    + intros k Hk. rewrite Hout by lia. apply list_lookup_insert_ne. lia.
    + intros [|f] Hf.
      * rewrite Nat.add_0_r, Hout by lia. apply list_lookup_insert_eq. lia.
      * replace (Z.to_nat i + S f)%nat with (Z.to_nat (i + 1) + f)%nat by lia.
        rewrite Hfr by lia. rewrite Nat.iter_succ_r. reflexivity.
Qed.

Lemma build_sine_table_spec (data : list Z) (wave_length : Z) :
  0 <= wave_length -> Z.of_nat (length data) = wave_length ->
  exists t,
    build_sine_table data wave_length = Some t /\
    Z.of_nat (length t) = wave_length /\
    (forall i : nat, Z.of_nat i < wave_length ->
       t !! i = Some (sine_sample (sine_phase wave_length i))).
Proof.
  intros HN Hlen. unfold build_sine_table.
  destruct (sine_loop_spec (d_div (d_mul (d_of_int 2) d_pi) (d_of_int wave_length))
              (Z.to_nat wave_length) data 0 (d_of_int 0)) as (t & Hl & Hlt & _ & Hfr);
    [lia|lia|].
  exists t. split; [exact Hl|]. split; [lia|].
  intros i Hi. specialize (Hfr i ltac:(lia)). exact Hfr.
Qed.

End Table.





(** ** The pitch *)







(** ** The phase accumulator, without rounding *)

Section ExactPhase.
#[local] Open Scope Q_scope.

Lemma Qfloor_unique (y : Q) (z : Z) :
  inject_Z z <= y -> y < inject_Z (z + 1) -> Qfloor y = z.
Proof.
  intros Hlo Hhi.
  apply Qfloor_resp_le in Hlo. rewrite Qfloor_Z in Hlo.
  pose proof (Qfloor_le y) as Hfl.
  assert (Hlt : inject_Z (Qfloor y) < inject_Z (z + 1)) by (eapply Qle_lt_trans; eauto).
  rewrite <- Zlt_Qlt in Hlt. lia.
Qed.

Lemma exact_trunc_nonneg (x : Q) : 0 <= x -> Exact.trunc x = Qfloor x.
Proof.
  intros Hx. unfold Exact.trunc, Qfloor. destruct x as [n d].
  unfold Qle in Hx. cbn [Qnum Qden] in *.
  apply Z.quot_div_nonneg; lia.
Qed.

Lemma exact_fmod_reduced (x N p : Q) :
  0 < N -> 0 <= x -> reduced x N p -> Exact.fmod x N == p.
Proof.
  intros HN Hx (Hp0 & HpN & q & Hq).
  assert (Hdiv : x / N == inject_Z q + p / N) by (rewrite Hq; field; lra).
  assert (Hfrac0 : 0 <= p / N) by (apply Qle_shift_div_l; lra).
  assert (Hfrac1 : p / N < 1) by (apply Qlt_shift_div_r; lra).
  assert (Hxn : 0 <= x / N) by (apply Qle_shift_div_l; lra).
  unfold Exact.fmod. rewrite (exact_trunc_nonneg _ Hxn).
  rewrite (Qfloor_unique (x / N) q).
  - rewrite Hq. ring.
  - rewrite Hdiv. lra.
  - rewrite Hdiv, inject_Z_plus. change (inject_Z 1) with 1. lra.
Qed.

Lemma exact_double_to_int (p : Q) (N : Z) :
  0 <= p -> p < inject_Z N -> (N <= INT_MAX)%Z ->
  double_to_int p = Qfloor p.
Proof.
  intros Hp HpN HN. unfold double_to_int. cbn [d_trunc exact_double].
  rewrite (exact_trunc_nonneg p Hp).
  assert (H0 : (0 <= Qfloor p)%Z).
  { apply (Qfloor_resp_le 0 p Hp). }
  assert (H1 : (Qfloor p < N)%Z).
  { rewrite Zlt_Qlt. eapply Qle_lt_trans; [apply Qfloor_le|exact HpN]. }
  destruct (Z.leb_spec INT_MIN (Qfloor p)); [|unfold INT_MIN in *; lia].
  destruct (Z.leb_spec (Qfloor p) INT_MAX); [reflexivity|lia].
Qed.

(** One step keeps the phase reduced, and its index is the floor. *)
Lemma exact_advance_reduced (inc : Q) (N : Z) (x p : Q) :
  0 < inc -> inc < inject_Z N -> (N <= INT_MAX)%Z ->
  reduced x (inject_Z N) p ->
  let ph := osc_advance inc N p in
  reduced (x + inc) (inject_Z N) (fst ph) /\ snd ph = Qfloor (fst ph).
Proof.
  intros Hi0 HiN HN (Hp0 & HpN & q & Hq). unfold osc_advance.
  cbn [d_add d_sub d_ge d_of_int exact_double].
  destruct (Qle_bool (inject_Z N) (p + inc)) eqn:Hge; cbn [fst snd].
  - apply Qle_bool_iff in Hge.
    split.
    + split; [lra|]. split; [lra|].
      exists (q + 1)%Z. rewrite inject_Z_plus. change (inject_Z 1) with 1.
      rewrite Hq. ring.
    + apply (exact_double_to_int _ N); [lra|lra|exact HN].
  - assert (Hlt : p + inc < inject_Z N).
    { apply Qnot_le_lt. intros Hle. apply Qle_bool_iff in Hle. congruence. }
    split.
    + split; [lra|]. split; [exact Hlt|].
      exists q. rewrite Hq. ring.
    + apply (exact_double_to_int _ N); [lra|exact Hlt|exact HN].
Qed.

Lemma exact_run_reduced (inc : Q) (N : Z) (k : nat) :
  0 < inc -> inc < inject_Z N -> (N <= INT_MAX)%Z ->
  let ph := osc_run inc N k (d_of_int 0, 0%Z) in
  reduced (inject_Z (Z.of_nat k) * inc) (inject_Z N) (fst ph) /\
  snd ph = Qfloor (fst ph).
Proof.
  intros Hi0 HiN HN. induction k as [|k [IHr IHi]].
  - cbn [osc_run fst snd d_of_int exact_double].
    change (inject_Z (Z.of_nat 0)) with 0. change (inject_Z 0) with 0.
    split; [|reflexivity].
    split; [lra|]. split; [lra|].
    exists 0%Z. change (inject_Z 0) with 0. ring.
  - rewrite osc_run_snoc.
    destruct (exact_advance_reduced inc N _ _ Hi0 HiN HN IHr) as [Hr Hi].
    split; [|exact Hi].
    destruct Hr as (H0 & H1 & q & Hq). split; [exact H0|]. split; [exact H1|].
    exists q. rewrite <- Hq. rewrite Nat2Z.inj_succ, <- Z.add_1_r, inject_Z_plus.
    change (inject_Z 1) with 1. ring.
Qed.

End ExactPhase.

(** ** The phase accumulator against the modulo formula *)

Lemma phase_increment_a4 (LM : Libm float) (table : list Z) :
  (forall x : float, c_pow x 0%float = 1%float) ->
  phase_increment_of (mkState false 44100 1024 0%float 0 table 57 2 131 12) = inc_a4.
Proof.
  intros Hpow. unfold phase_increment_of, get_pitch. cbn [note sample_rate table_length].
  change (d_sub (d_of_int 57) (d_of_int 57)) with 0%float.
  rewrite Hpow. vm_compute. reflexivity.
Qed.

Lemma osc_indices_lookup {D} {DD : CDouble D} (inc : D) (N : Z) (n : nat) :
  forall (p : D) (i0 : Z) (k : nat), (k < n)%nat ->
  osc_indices inc N n p !! k = Some (snd (osc_run inc N (S k) (p, i0))).
Proof.
  induction n as [|n IH]; intros p i0 k Hk; [lia|].
  destruct k as [|k]; [reflexivity|].
  cbn [osc_indices]. rewrite lookup_cons.
  rewrite (IH _ (snd (osc_advance inc N p))) by lia.
  reflexivity.
Qed.

Lemma osc_indices_length {D} {DD : CDouble D} (inc : D) (N : Z) (n : nat) :
  forall p : D, length (osc_indices inc N n p) = n.
Proof. induction n as [|n IH]; intros p; simpl; [reflexivity|now rewrite IH]. Qed.

Lemma exact_index_is_modulo (inc : Q) (N : Z) (k : nat) :
  (0 < inc)%Q -> (inc < inject_Z N)%Q -> N <= INT_MAX ->
  snd (osc_run inc N k (d_of_int 0, 0)) = spec_index inc N (Z.of_nat k).
Proof.
  intros Hi0 HiN HN.
  destruct (exact_run_reduced inc N k Hi0 HiN HN) as [Hr Hi].
  rewrite Hi. unfold spec_index.
  cbn [d_floor d_fmod d_mul d_of_int exact_double].
  assert (HN0 : (0 < inject_Z N)%Q) by lra.
  assert (Hx : (0 <= inject_Z (Z.of_nat k) * inc)%Q).
  { apply Qmult_le_0_compat; [|lra].
    change 0%Q with (inject_Z 0). rewrite <- Zle_Qle. lia. }
  rewrite (Qfloor_comp _ _ (exact_fmod_reduced _ _ _ HN0 Hx Hr)).
  destruct Hr as (Hp0 & HpN & _).
  set (z := Qfloor (fst (osc_run inc N k (d_of_int 0, 0)))).
  assert (Hz0 : 0 <= z) by apply (Qfloor_resp_le 0 _ Hp0).
  assert (HzN : z < N).
  { rewrite Zlt_Qlt. eapply Qle_lt_trans; [apply Qfloor_le|exact HpN]. }
  rewrite (exact_double_to_int (inject_Z z) N).
  - now rewrite Qfloor_Z.
  - change 0%Q with (inject_Z 0). rewrite <- Zle_Qle. exact Hz0.
  - rewrite <- Zlt_Qlt. exact HzN.
  - exact HN.
Qed.

(** C1, as the code has it.  With sample_rate 44100, table_length 1024
    and note 57 held, the first 100 frames (indeed the first 2204) sample
    exactly the indices [floor(fmod(k * inc, 1024))], k = 1, 2, ..., with
    the formula evaluated in binary64, and the first 100 also with the
    formula evaluated exactly on the binary64 increment.  For an
    arbitrary increment [0 < inc < N] the wrap rule and the single modulo
    give the same index at every step when the additions and the product
    are exact; in binary64 they need not (see the counterexample). *)
Theorem index_sequence_is_modulo :
  (forall (LM : Libm float) (table : list Z),
     (forall x : float, c_pow x 0%float = 1%float) ->
     let st := mkState false 44100 1024 0%float 0 table 57 2 131 12 in
     let inc := phase_increment_of st in
     osc_indices inc (table_length st) 100 (phase_double st) =
       map (fun k => spec_index inc (table_length st) (Z.of_nat k)) (seq 1 100) /\
     osc_indices inc (table_length st) 2204 (phase_double st) =
       map (fun k => spec_index inc (table_length st) (Z.of_nat k)) (seq 1 2204) /\
     osc_indices inc (table_length st) 100 (phase_double st) =
       map (fun k => spec_index (Ieee.value inc) (table_length st) (Z.of_nat k)) (seq 1 100)) /\
  (forall (inc : Q) (N : Z) (n : nat),
     (0 < inc)%Q -> (inc < inject_Z N)%Q -> N <= INT_MAX ->
     osc_indices inc N n (d_of_int 0) =
       map (fun k => spec_index inc N (Z.of_nat k)) (seq 1 n)).
Proof.
  split.
  - intros LM table Hpow st inc.
    unfold inc, st. rewrite phase_increment_a4 by exact Hpow.
    cbn [table_length phase_double].
    split; [|split]; vm_compute; reflexivity.
  - intros inc N n Hi0 HiN HN.
    apply list_eq. intros k.
    destruct (Nat.lt_ge_cases k n) as [Hk|Hk].
    + rewrite (osc_indices_lookup inc N n _ 0 k Hk).
      rewrite list_lookup_fmap, lookup_seq_lt by exact Hk.
      cbn [fmap option_fmap option_map]. f_equal.
      apply (exact_index_is_modulo inc N (S k) Hi0 HiN HN).
    + rewrite !lookup_ge_None_2; [reflexivity| |].
      * rewrite length_map, length_seq. exact Hk.
      * rewrite osc_indices_length. exact Hk.
Qed.

Lemma index_sequence_is_modulo_witness :
  osc_indices (phase_increment_of (LM := ieee_libm) st_a4) 1024 100 0%float =
    map (fun k => spec_index (phase_increment_of (LM := ieee_libm) st_a4) 1024 (Z.of_nat k))
      (seq 1 100) /\
  osc_indices (D := Q) (1 # 10) 1024 10 (d_of_int 0) =
    map (fun k => spec_index (D := Q) (1 # 10) 1024 (Z.of_nat k)) (seq 1 10).
Proof.
  destruct index_sequence_is_modulo as [Hf He].
  split.
  - destruct (Hf ieee_libm ref_table) as [H100 _]; [intros x; reflexivity|].
    exact H100.
  - apply (He (1 # 10)%Q 1024 10%nat); [reflexivity | reflexivity | discriminate].
Defined.

(** In binary64 the two differ.  Ten steps of 0.1 add up to
    0.9999999999999999, index 0, while [10 * 0.1] is 1, in binary64 and
    exactly.  And with note 57 held, frame 2205 samples index 1023 (the
    running sum has reached 1023.9999999999965) where the formula in
    binary64 gives 0, the product [2205 * inc] being rounded to 22528. *)
Lemma index_sequence_counterexample :
  osc_indices 0.1%float 1024 10 0%float !! 9%nat = Some 0 /\
  spec_index 0.1%float 1024 10 = 1 /\
  spec_index (Ieee.value 0.1%float) 1024 10 = 1 /\
  (forall (LM : Libm float) (table : list Z),
     (forall x : float, c_pow x 0%float = 1%float) ->
     phase_increment_of (mkState false 44100 1024 0%float 0 table 57 2 131 12) = inc_a4) /\
  osc_indices inc_a4 1024 2205 0%float !! 2204%nat = Some 1023 /\
  spec_index inc_a4 1024 2205 = 0.
Proof.
  split; [vm_compute; reflexivity|].
  split; [vm_compute; reflexivity|].
  split; [vm_compute; reflexivity|].
  split; [exact phase_increment_a4|].
  split; vm_compute; reflexivity.
Qed.

(** ** Binary64 rounding, from the specification of the primitive floats *)

Lemma digits2_pos_size (p : positive) : digits2_pos p = Pos.size p.
Proof. induction p as [p IH|p IH|]; simpl; now rewrite ?IH. Qed.

Lemma digits2_upper (p : positive) : Zpos p < 2 ^ Zpos (digits2_pos p).
Proof.
  rewrite digits2_pos_size.
  pose proof (Pos.size_gt p) as H.
  apply Pos2Z.pos_lt_pos in H. now rewrite Pos2Z.inj_pow in H.
Qed.

Lemma digits2_lower (p : positive) : 2 ^ (Zpos (digits2_pos p) - 1) <= Zpos p.
Proof.
  rewrite digits2_pos_size.
  pose proof (Pos.size_le p) as H.
  apply Pos2Z.pos_le_pos in H. rewrite Pos2Z.inj_pow in H.
  change (Z.pos p~0) with (2 * Z.pos p) in H.
  replace (Zpos (Pos.size p)) with (Zpos (Pos.size p) - 1 + 1) in H by lia.
  rewrite Z.pow_add_r, Z.pow_1_r in H by lia. lia.
Qed.

Lemma loc_exact_iff mrs : loc_of_shr_record mrs = loc_Exact <-> inexact mrs = false.
Proof. destruct mrs as [m [|] [|]]; cbn; split; congruence. Qed.

Lemma shr_1_spec mrs :
  0 <= shr_m mrs ->
  shr_m (shr_1 mrs) = shr_m mrs / 2 /\
  inexact (shr_1 mrs) = Z.odd (shr_m mrs) || inexact mrs.
Proof.
  destruct mrs as [m r s]. cbn [shr_m]. intros Hm. unfold inexact.
  destruct m as [|[p|p|]|p]; cbn [shr_1 shr_m shr_r shr_s]; try lia.
  - split; [reflexivity|]. cbn. now destruct r, s.
  - split; [|cbn; now destruct r, s].
    rewrite Pos2Z.inj_xI. apply Z.div_unique with 1; lia.
  - split; [|cbn; now destruct r, s].
    rewrite Pos2Z.inj_xO. apply Z.div_unique with 0; lia.
  - split; [reflexivity|]. cbn. now destruct r, s.
Qed.

Lemma iter_pos_nat {A} (f : A -> A) (p : positive) : forall x,
  SpecFloat.iter_pos f p x = Nat.iter (Pos.to_nat p) f x.
Proof.
  induction p as [p IH|p IH|]; intros x; cbn [SpecFloat.iter_pos].
  - rewrite !IH, Pos2Nat.inj_xI.
    replace (S (2 * Pos.to_nat p)) with (Pos.to_nat p + (Pos.to_nat p + 1))%nat by lia.
    rewrite !Nat.iter_add. reflexivity.
  - rewrite !IH, Pos2Nat.inj_xO.
    replace (2 * Pos.to_nat p)%nat with (Pos.to_nat p + Pos.to_nat p)%nat by lia.
    rewrite Nat.iter_add. reflexivity.
  - reflexivity.
Qed.

Lemma iter_shr_spec (k : nat) mrs :
  0 <= shr_m mrs ->
  shr_m (Nat.iter k shr_1 mrs) = shr_m mrs / 2 ^ Z.of_nat k /\
  inexact (Nat.iter k shr_1 mrs) =
    inexact mrs || negb (shr_m mrs mod 2 ^ Z.of_nat k =? 0).
Proof.
  intros Hm. induction k as [|k [IHm IHi]].
  - change (Nat.iter 0 shr_1 mrs) with mrs. change (2 ^ Z.of_nat 0) with 1.
    rewrite Z.div_1_r, Z.mod_1_r. cbn. now rewrite orb_false_r.
  - rewrite Nat.iter_succ.
    assert (Hk : 0 <= shr_m (Nat.iter k shr_1 mrs)).
    { rewrite IHm. apply Z.div_pos; [lia|]. apply Z.pow_pos_nonneg; lia. }
    destruct (shr_1_spec _ Hk) as [Sm Si].
    assert (Hp : 0 < 2 ^ Z.of_nat k) by (apply Z.pow_pos_nonneg; lia).
    assert (E : 2 ^ Z.of_nat (S k) = 2 ^ Z.of_nat k * 2).
    { rewrite Nat2Z.inj_succ, Z.pow_succ_r by lia. lia. }
    split.
    + rewrite Sm, IHm, E, Z.div_div by lia. reflexivity.
    + rewrite Si, IHi, IHm, E.
      rewrite Z.rem_mul_r by lia.
      set (a := shr_m mrs mod 2 ^ Z.of_nat k).
      set (q := shr_m mrs / 2 ^ Z.of_nat k).
      assert (Ha : 0 <= a < 2 ^ Z.of_nat k) by (apply Z.mod_pos_bound; lia).
      rewrite (Zodd_mod q).
      assert (Hq : 0 <= q mod 2 < 2) by (apply Z.mod_pos_bound; lia).
      destruct (inexact mrs); [now rewrite !orb_true_r|].
      cbn [orb].
      destruct (Z.eqb_spec a 0) as [Ea|Ea]; cbn [negb orb].
      * rewrite Ea, Z.add_0_l.
        destruct (Z.eqb_spec (q mod 2) 1) as [E1|E1];
          destruct (Z.eqb_spec (2 ^ Z.of_nat k * (q mod 2)) 0); try reflexivity; nia.
      * rewrite orb_true_r.
        destruct (Z.eqb_spec (a + 2 ^ Z.of_nat k * (q mod 2)) 0); [nia|reflexivity].
Qed.

Lemma round_nearest_even_range m loc :
  m <= round_nearest_even m loc <= m + 1 /\
  (loc = loc_Exact -> round_nearest_even m loc = m).
Proof.
  destruct loc as [|[| |]]; cbn [round_nearest_even]; try destruct (Z.even m); split;
    try lia; try reflexivity; intros; congruence.
Qed.

Lemma fexp64 z : fexp prec emax z = Z.max (z - 53) (-1074).
Proof. reflexivity. Qed.

Lemma pow2_pos z : 0 <= z -> 0 < 2 ^ z.
Proof. intros. apply Z.pow_pos_nonneg; lia. Qed.

Lemma pow2_split a b : 0 <= a <= b -> 2 ^ b = 2 ^ a * 2 ^ (b - a).
Proof. intros H. rewrite <- Z.pow_add_r by lia. f_equal. lia. Qed.

Lemma pow2_lt_inv a b : 0 <= b -> 2 ^ a < 2 ^ b -> a < b.
Proof. intros Hb H. apply (Z.pow_lt_mono_r_iff 2); [lia|exact Hb|exact H]. Qed.

Lemma Zdigits2_bounds (x : Z) :
  0 < x -> 0 < Zdigits2 x /\ 2 ^ (Zdigits2 x - 1) <= x < 2 ^ Zdigits2 x.
Proof.
  destruct x as [|p|p]; try lia. intros _. cbn [Zdigits2].
  split; [lia|]. split; [apply digits2_lower|apply digits2_upper].
Qed.

(** A number below a number of the format has no larger canonical
    exponent. *)
Lemma cexp_le (x e mb eb : Z) :
  0 < x -> -1074 <= e -> fits mb eb -> sv x e <= sv mb eb ->
  fexp prec emax (Zdigits2 x + e) <= eb.
Proof.
  intros Hx He [[Hm0 Hm1] [Hb0 Hb1]] Hle. unfold sv in Hle.
  destruct (Zdigits2_bounds x Hx) as [Hd [Hlo _]].
  rewrite fexp64. apply Z.max_lub; [|lia].
  assert (Hu : 0 < 2 ^ (e + 1074)) by (apply pow2_pos; lia).
  assert (Hv : 0 < 2 ^ (eb + 1074)) by (apply pow2_pos; lia).
  assert (H1 : 2 ^ (Zdigits2 x - 1 + (e + 1074)) < 2 ^ (53 + (eb + 1074))).
  { rewrite (Z.pow_add_r 2 (Zdigits2 x - 1)), (Z.pow_add_r 2 53) by lia.
    apply Z.le_lt_trans with (x * 2 ^ (e + 1074)).
    - apply Z.mul_le_mono_nonneg_r; lia.
    - apply Z.le_lt_trans with (mb * 2 ^ (eb + 1074)); [exact Hle|].
      apply Z.mul_lt_mono_pos_r; lia. }
  apply pow2_lt_inv in H1; lia.
Qed.

Lemma shr_unified mrs e n :
  shr mrs e n = (Nat.iter (Z.to_nat n) shr_1 mrs, e + Z.max n 0).
Proof.
  destruct n as [|p|p]; cbn [shr Z.to_nat].
  - now rewrite Z.add_0_r.
  - rewrite iter_pos_nat. reflexivity.
  - cbn. now rewrite Z.add_0_r.
Qed.

(** [shr_fexp] on a nonnegative mantissa: a division by a power of two,
    with the flag telling whether it was exact. *)
Lemma shr_fexp_spec (m e : Z) :
  0 <= m ->
  let n := Z.max (fexp prec emax (Zdigits2 m + e) - e) 0 in
  let r := shr_fexp prec emax m e loc_Exact in
  shr_m (fst r) = m / 2 ^ n /\ snd r = e + n /\
  inexact (fst r) = negb (m mod 2 ^ n =? 0).
Proof.
  intros Hm n r. unfold r, shr_fexp. rewrite shr_unified. cbn [fst snd].
  cbn [shr_record_of_loc].
  destruct (iter_shr_spec (Z.to_nat (fexp prec emax (Zdigits2 m + e) - e))
              {| shr_m := m; shr_r := false; shr_s := false |} Hm) as [Em Ei].
  cbn [shr_m] in Em, Ei. unfold inexact at 2 in Ei. cbn [shr_r shr_s orb] in Ei.
  replace (Z.of_nat (Z.to_nat (fexp prec emax (Zdigits2 m + e) - e))) with n in Em, Ei
    by (unfold n; lia).
  auto.
Qed.

(** Rounding stays below every number of the format that the exact value
    is below.  [M] at exponent [e] is the exact value, with at least as
    many digits as its canonical form (what [shl_align] provides); [mb]
    at exponent [eb] is the bound. *)
Lemma round_aux_le (M e mb eb : Z) :
  0 < M -> -1074 <= e -> e <= fexp prec emax (Zdigits2 M + e) ->
  fits mb eb -> sv M e <= sv mb eb ->
  binary_round_aux prec emax false M e loc_Exact = S754_zero false \/
  exists m' e',
    binary_round_aux prec emax false M e loc_Exact = S754_finite false m' e' /\
    sv (Zpos m') e' <= sv mb eb /\ -1074 <= e'.
Proof.
  intros HM He Hcan Hfit Hle.
  pose proof (cexp_le M e mb eb HM He Hfit Hle) as Hcexp.
  destruct Hfit as [[Hm0 Hm1] [Hb0 Hb1]].
  unfold binary_round_aux.
  destruct (shr_fexp_spec M e ltac:(lia)) as (Sm & Se & Si).
  destruct (shr_fexp prec emax M e loc_Exact) as [mrs1 e1]. cbn [fst snd] in Sm, Se, Si.
  set (n := Z.max (fexp prec emax (Zdigits2 M + e) - e) 0) in *.
  assert (Hn : n = fexp prec emax (Zdigits2 M + e) - e) by (unfold n; lia).
  assert (He1 : e1 = fexp prec emax (Zdigits2 M + e)) by lia.
  assert (He1b : -1074 <= e1 <= eb) by lia.
  set (q := M / 2 ^ n) in *.
  set (m1 := round_nearest_even (shr_m mrs1) (loc_of_shr_record mrs1)).
  assert (H2n : 0 < 2 ^ n) by (apply pow2_pos; lia).
  assert (Hq0 : 0 <= q) by (apply Z.div_pos; lia).
  (* the first rounding stays below the bound *)
  set (c := mb * 2 ^ (eb - e1)).
  assert (Hu : 0 < 2 ^ (e + 1074)) by (apply pow2_pos; lia).
  assert (Hu1 : 2 ^ (e1 + 1074) = 2 ^ (e + 1074) * 2 ^ n).
  { rewrite <- Z.pow_add_r by lia. f_equal. lia. }
  assert (Hsvb : sv mb eb = c * 2 ^ (e1 + 1074)).
  { unfold sv, c. rewrite <- Z.mul_assoc, <- Z.pow_add_r by lia. do 2 f_equal. lia. }
  assert (HMc : M <= c * 2 ^ n).
  { rewrite Hsvb in Hle. unfold sv in Hle. rewrite Hu1 in Hle. nia. }
  assert (Hm1c : 0 <= m1 <= c).
  { destruct (round_nearest_even_range (shr_m mrs1) (loc_of_shr_record mrs1)) as [Hr Hex].
    fold m1 in Hr, Hex. rewrite Sm in Hr, Hex.
    pose proof (Z.div_mod M (2 ^ n) ltac:(lia)) as Hdm. fold q in Hdm.
    pose proof (Z.mod_pos_bound M (2 ^ n) H2n) as Hmod.
    destruct (Z.eqb_spec (M mod 2 ^ n) 0) as [E0|E0].
    - rewrite Hex by (apply loc_exact_iff; exact Si).
      split; [lia|]. nia.
    - split; [lia|]. nia. }
  assert (Hsv1 : sv m1 e1 <= sv mb eb).
  { rewrite Hsvb. unfold sv. apply Z.mul_le_mono_nonneg_r; [|lia].
    apply Z.lt_le_incl, pow2_pos. lia. }
  (* the second shift *)
  destruct (shr_fexp_spec m1 e1 ltac:(lia)) as (Sm2 & Se2 & _).
  destruct (shr_fexp prec emax m1 e1 loc_Exact) as [mrs2 e2]. cbn [fst snd] in Sm2, Se2.
  set (n2 := Z.max (fexp prec emax (Zdigits2 m1 + e1) - e1) 0) in *.
  assert (H2n2 : 0 < 2 ^ n2) by (apply pow2_pos; lia).
  assert (Hm2 : 0 <= shr_m mrs2) by (rewrite Sm2; apply Z.div_pos; lia).
  destruct (shr_m mrs2) as [|m2|m2] eqn:Em2; [left; reflexivity| |lia].
  right.
  assert (Hm1pos : 0 < m1).
  { destruct (Z.eq_dec m1 0) as [E|E]; [|lia].
    rewrite E, Z.div_0_l in Sm2 by lia. discriminate. }
  assert (He2 : e2 <= 971).
  { pose proof (cexp_le m1 e1 mb eb Hm1pos ltac:(lia)
                  (conj (conj Hm0 Hm1) (conj Hb0 Hb1)) Hsv1). lia. }
  destruct (Z.leb_spec e2 (emax - prec)) as [_|Hbad]; [|unfold emax, prec in Hbad; lia].
  exists m2, e2. split; [reflexivity|]. split; [|lia].
  apply Z.le_trans with (sv m1 e1); [|exact Hsv1].
  unfold sv. rewrite Sm2, Se2.
  replace (e1 + n2 + 1074) with (n2 + (e1 + 1074)) by lia.
  rewrite Z.pow_add_r, Z.mul_assoc by lia.
  apply Z.mul_le_mono_nonneg_r; [apply Z.lt_le_incl, pow2_pos; lia|].
  pose proof (Z.div_mod m1 (2 ^ n2) ltac:(lia)) as Hdm.
  pose proof (Z.mod_pos_bound m1 (2 ^ n2) H2n2) as Hmod. nia.
Qed.

Lemma iter_xO_value (m d : positive) : Zpos (Pos.iter xO m d) = Zpos m * 2 ^ Zpos d.
Proof.
  induction d as [|d IH] using Pos.peano_ind.
  - cbn [Pos.iter]. rewrite Z.pow_1_r. lia.
  - rewrite Pos.iter_succ, Pos2Z.inj_xO, IH, Pos2Z.inj_succ, Z.pow_succ_r by lia. lia.
Qed.

Lemma shl_align_spec (mx : positive) (ex ex' : Z) :
  snd (shl_align mx ex ex') = Z.min ex ex' /\
  Zpos (fst (shl_align mx ex ex')) = Zpos mx * 2 ^ (ex - Z.min ex ex').
Proof.
  unfold shl_align. destruct (ex' - ex) as [|d|d] eqn:E; cbn [fst snd].
  - replace (Z.min ex ex') with ex by lia. rewrite Z.sub_diag. lia.
  - replace (Z.min ex ex') with ex by lia. rewrite Z.sub_diag. lia.
  - replace (Z.min ex ex') with ex' by lia. rewrite iter_xO_value.
    split; [reflexivity|]. f_equal. f_equal. lia.
Qed.

Lemma sv_shift (m e e' : Z) :
  -1074 <= e' <= e -> sv (m * 2 ^ (e - e')) e' = sv m e.
Proof.
  intros H. unfold sv. rewrite <- Z.mul_assoc, <- Z.pow_add_r by lia.
  do 2 f_equal. lia.
Qed.

(** The number of digits of a positive integer is fixed by the powers of
    two around it. *)
Lemma Zdigits2_unique (x d : Z) : 0 < d -> 2 ^ (d - 1) <= x < 2 ^ d -> Zdigits2 x = d.
Proof.
  intros Hd [Hlo Hhi].
  assert (Hx : 0 < x) by (pose proof (pow2_pos (d - 1)); lia).
  destruct (Zdigits2_bounds x Hx) as [Hd' [Hlo' Hhi']].
  assert (H1 : Zdigits2 x - 1 < d) by (apply pow2_lt_inv; lia).
  assert (H2 : d - 1 < Zdigits2 x) by (apply pow2_lt_inv; lia).
  lia.
Qed.

Lemma Zdigits2_shift (x k : Z) : 0 < x -> 0 <= k -> Zdigits2 (x * 2 ^ k) = Zdigits2 x + k.
Proof.
  intros Hx Hk. destruct (Zdigits2_bounds x Hx) as [Hd [Hlo Hhi]].
  pose proof (pow2_pos k Hk) as Hp.
  apply Zdigits2_unique; [lia|].
  replace (Zdigits2 x + k - 1) with (Zdigits2 x - 1 + k) by lia.
  rewrite !Z.pow_add_r by lia. nia.
Qed.

Lemma binary_round_le (mx : positive) (ex mb eb : Z) :
  -1074 <= ex -> fits mb eb -> sv (Zpos mx) ex <= sv mb eb ->
  nonneg_finite (binary_round prec emax false mx ex) /\
  val (binary_round prec emax false mx ex) <= sv mb eb.
Proof.
  intros Hex Hfit Hle. unfold binary_round.
  destruct (shl_align_spec mx ex (fexp prec emax (Zpos (digits2_pos mx) + ex))) as [Se Sm].
  destruct (shl_align mx ex (fexp prec emax (Zpos (digits2_pos mx) + ex))) as [mz ez].
  cbn [fst snd] in Se, Sm.
  assert (Hf : -1074 <= fexp prec emax (Zpos (digits2_pos mx) + ex)) by (rewrite fexp64; lia).
  assert (Hez : -1074 <= ez <= ex) by lia.
  assert (Hsv : sv (Zpos mz) ez = sv (Zpos mx) ex).
  { rewrite Sm, <- Se. apply sv_shift. lia. }
  assert (Hdig : Zdigits2 (Zpos mz) + ez = Zpos (digits2_pos mx) + ex).
  { rewrite Sm, Zdigits2_shift by lia. cbn [Zdigits2]. lia. }
  destruct (round_aux_le (Zpos mz) ez mb eb) as [->|(m' & e' & -> & Hv & He')];
    try lia.
  - rewrite Hdig. lia.
  - exact Hfit.
  - cbn. destruct Hfit as [[? ?] [? ?]]. unfold sv.
    pose proof (pow2_pos (eb + 1074)). split; [exact I|nia].
  - cbn [nonneg_finite val]. auto.
Qed.

Lemma binary_normalize_le (M e mb eb : Z) :
  0 <= M -> -1074 <= e -> fits mb eb -> sv M e <= sv mb eb ->
  nonneg_finite (binary_normalize prec emax M e false) /\
  val (binary_normalize prec emax M e false) <= sv mb eb.
Proof.
  intros HM He Hfit Hle. destruct M as [|m|m]; [|apply binary_round_le; auto|lia].
  cbn. destruct Hfit as [[? ?] [? ?]]. unfold sv.
  pose proof (pow2_pos (eb + 1074)). split; [exact I|nia].
Qed.

Lemma val_nonneg (x : spec_float) : nonneg_finite x -> 0 <= val x.
Proof.
  destruct x as [s|s| |[|] m e]; cbn; try lia. intros He.
  pose proof (pow2_pos (e + 1074)). unfold sv. nia.
Qed.

Lemma val_finite_pos (m : positive) (e : Z) :
  -1074 <= e -> 0 < val (S754_finite false m e).
Proof. intros He. cbn. pose proof (pow2_pos (e + 1074)). unfold sv. nia. Qed.

Lemma sv_bound_nonneg (mb eb : Z) : fits mb eb -> 0 <= sv mb eb.
Proof.
  intros [[? ?] [? ?]]. unfold sv. pose proof (pow2_pos (eb + 1074)). nia.
Qed.

(** The aligned mantissas of an addition or subtraction. *)
Lemma aligned_value (mx : positive) (ex ey : Z) :
  -1074 <= ex -> -1074 <= ey ->
  sv (Zpos (fst (shl_align mx ex (Z.min ex ey)))) (Z.min ex ey) = sv (Zpos mx) ex.
Proof.
  intros Hx Hy. destruct (shl_align_spec mx ex (Z.min ex ey)) as [_ ->].
  replace (Z.min ex (Z.min ex ey)) with (Z.min ex ey) by lia.
  apply sv_shift. lia.
Qed.

Lemma sv_add (a b e : Z) : sv (a + b) e = sv a e + sv b e.
Proof. unfold sv. lia. Qed.

Lemma sv_sub (a b e : Z) : sv (a - b) e = sv a e - sv b e.
Proof. unfold sv. lia. Qed.

Lemma sv_nonneg_inv (a e : Z) : -1074 <= e -> 0 <= sv a e -> 0 <= a.
Proof. intros He H. unfold sv in H. pose proof (pow2_pos (e + 1074)). nia. Qed.

(** Addition of nonnegative finite numbers. *)
Lemma SFadd_le (x y : spec_float) (mb eb : Z) :
  nonneg_finite x -> nonneg_finite y -> fits mb eb ->
  val x + val y <= sv mb eb ->
  nonneg_finite (SFadd prec emax x y) /\ val (SFadd prec emax x y) <= sv mb eb.
Proof.
  intros Hx Hy Hfit Hle.
  pose proof (val_nonneg x Hx) as Vx. pose proof (val_nonneg y Hy) as Vy.
  pose proof (sv_bound_nonneg mb eb Hfit) as Vb.
  destruct x as [sx|sx| |[|] mx ex]; try contradiction;
    destruct y as [sy|sy| |[|] my ey]; try contradiction.
  - destruct sx, sy; cbn; auto.
  - cbn [SFadd]. split; [exact Hy|lia].
  - cbn [SFadd]. split; [exact Hx|lia].
  - cbn [SFadd cond_Zopp nonneg_finite] in *.
    apply binary_normalize_le; [lia|lia|exact Hfit|].
    rewrite sv_add, aligned_value by lia.
    rewrite (Z.min_comm ex ey), aligned_value by lia. exact Hle.
Qed.

(** Subtraction of a nonnegative finite number from a larger one. *)
Lemma SFsub_le (x y : spec_float) (mb eb : Z) :
  nonneg_finite x -> nonneg_finite y -> fits mb eb ->
  val y <= val x -> val x - val y <= sv mb eb ->
  nonneg_finite (SFsub prec emax x y) /\ val (SFsub prec emax x y) <= sv mb eb.
Proof.
  intros Hx Hy Hfit Hyx Hle.
  pose proof (val_nonneg x Hx) as Vx. pose proof (val_nonneg y Hy) as Vy.
  pose proof (sv_bound_nonneg mb eb Hfit) as Vb.
  destruct x as [sx|sx| |[|] mx ex]; try contradiction;
    destruct y as [sy|sy| |[|] my ey]; try contradiction.
  - destruct sx, sy; cbn; auto.
  - cbn [nonneg_finite] in Hy. pose proof (val_finite_pos my ey Hy).
    cbn [val] in *. lia.
  - cbn [SFsub]. split; [exact Hx|cbn [val] in *; lia].
  - cbn [SFsub cond_Zopp nonneg_finite] in *.
    assert (E : sv (Zpos (fst (shl_align mx ex (Z.min ex ey))) -
                    Zpos (fst (shl_align my ey (Z.min ex ey)))) (Z.min ex ey) =
                val (S754_finite false mx ex) - val (S754_finite false my ey)).
    { rewrite sv_sub, aligned_value by lia.
      rewrite (Z.min_comm ex ey), aligned_value by lia. reflexivity. }
    apply binary_normalize_le; [|lia|exact Hfit|rewrite E; exact Hle].
    apply (sv_nonneg_inv _ (Z.min ex ey)); [lia|]. rewrite E. lia.
Qed.

(** A canonical mantissa has at most 53 digits, and exactly 53 above the
    smallest exponent. *)
Lemma bounded_digits (m : positive) (e : Z) :
  bounded prec emax m e = true ->
  -1074 <= e <= 971 /\ Zpos m < 2 ^ 53 /\ (-1074 < e -> 2 ^ 52 <= Zpos m).
Proof.
  unfold bounded, canonical_mantissa. rewrite andb_true_iff, Z.eqb_eq, Z.leb_le, fexp64.
  change (emax - prec) with 971. intros [Hc He].
  pose proof (digits2_upper m) as Hu. pose proof (digits2_lower m) as Hl.
  split; [lia|]. split.
  - apply Z.lt_le_trans with (1 := Hu). apply Z.pow_le_mono_r; lia.
  - intros Hn. replace 52 with (Zpos (digits2_pos m) - 1) by lia. exact Hl.
Qed.

Lemma valid_fits (m : positive) (e : Z) :
  bounded prec emax m e = true -> fits (Zpos m) e.
Proof. intros H. apply bounded_digits in H. unfold fits. lia. Qed.

Lemma sv_lt_exp (m1 m2 : positive) (e1 e2 : Z) :
  bounded prec emax m1 e1 = true -> bounded prec emax m2 e2 = true ->
  e1 < e2 -> sv (Zpos m1) e1 < sv (Zpos m2) e2.
Proof.
  intros H1 H2 He.
  apply bounded_digits in H1. apply bounded_digits in H2.
  destruct H1 as (He1 & Hm1 & _). destruct H2 as (He2 & _ & Hm2).
  specialize (Hm2 ltac:(lia)). unfold sv.
  pose proof (pow2_pos (e1 + 1074) ltac:(lia)) as Hp.
  rewrite (pow2_split (e1 + 1074 + 1) (e2 + 1074)) by lia.
  pose proof (pow2_pos (e2 + 1074 - (e1 + 1074 + 1)) ltac:(lia)) as Hq.
  rewrite (Z.pow_add_r 2 (e1 + 1074) 1), Z.pow_1_r by lia.
  set (P := 2 ^ (e1 + 1074)) in *. set (Q := 2 ^ (e2 + 1074 - (e1 + 1074 + 1))) in *.
  change (2 ^ 53) with 9007199254740992 in Hm1.
  change (2 ^ 52) with 4503599627370496 in Hm2.
  apply Z.lt_le_trans with (9007199254740992 * P); [nia|].
  apply Z.le_trans with (Zpos m2 * (P * 2)); [nia|].
  apply Z.mul_le_mono_nonneg_l; [lia|]. nia.
Qed.

(** On nonnegative finite numbers of the format, the comparison is the
    comparison of the values. *)
Lemma SFcompare_val (x y : spec_float) :
  nonneg_finite x -> nonneg_finite y ->
  valid_binary x = true -> valid_binary y = true ->
  SFcompare x y = Some (val x ?= val y).
Proof.
  intros Hx Hy Vx Vy.
  destruct x as [sx|sx| |[|] mx ex]; try contradiction;
    destruct y as [sy|sy| |[|] my ey]; try contradiction;
    cbn [SFcompare val nonneg_finite valid_binary] in *.
  - reflexivity.
  - pose proof (val_finite_pos my ey Hy) as Hp. cbn [val] in Hp.
    f_equal. symmetry. apply Z.compare_lt_iff. exact Hp.
  - pose proof (val_finite_pos mx ex Hx) as Hp. cbn [val] in Hp.
    f_equal. symmetry. apply Z.compare_gt_iff. exact Hp.
  - f_equal. destruct (Z.compare_spec ex ey) as [E|E|E].
    + subst ey. unfold sv. symmetry.
      rewrite <- Zmult_compare_compat_r by (apply Z.lt_gt, pow2_pos; lia).
      reflexivity.
    + symmetry. apply Z.compare_lt_iff. apply sv_lt_exp; assumption.
    + symmetry. apply Z.compare_gt_iff. apply sv_lt_exp; assumption.
Qed.

Lemma SFltb_val (x y : spec_float) :
  nonneg_finite x -> nonneg_finite y ->
  valid_binary x = true -> valid_binary y = true ->
  SFltb x y = (val x <? val y).
Proof.
  intros. unfold SFltb. rewrite SFcompare_val by assumption.
  unfold Z.ltb. now destruct (val x ?= val y).
Qed.

Lemma SFleb_val (x y : spec_float) :
  nonneg_finite x -> nonneg_finite y ->
  valid_binary x = true -> valid_binary y = true ->
  SFleb x y = (val x <=? val y).
Proof.
  intros. unfold SFleb. rewrite SFcompare_val by assumption.
  unfold Z.leb. now destruct (val x ?= val y).
Qed.

(** A value that already has its canonical exponent is not rounded. *)
Lemma round_aux_exact (mz : positive) (e : Z) :
  e = fexp prec emax (Zpos (digits2_pos mz) + e) -> e <= 971 ->
  binary_round_aux prec emax false (Zpos mz) e loc_Exact = S754_finite false mz e.
Proof.
  intros Hcan He. unfold binary_round_aux.
  destruct (shr_fexp_spec (Zpos mz) e ltac:(lia)) as (Sm & Se & Si).
  destruct (shr_fexp prec emax (Zpos mz) e loc_Exact) as [mrs1 e1].
  cbn [fst snd Zdigits2] in Sm, Se, Si.
  rewrite <- Hcan, Z.sub_diag in Sm, Se, Si. cbn [Z.max] in Sm, Se, Si.
  change (2 ^ 0) with 1 in Sm, Si. rewrite Z.div_1_r in Sm. rewrite Z.mod_1_r in Si.
  cbn in Si. apply loc_exact_iff in Si.
  rewrite Si, Sm. cbn [round_nearest_even].
  replace e1 with e by lia.
  destruct (shr_fexp_spec (Zpos mz) e ltac:(lia)) as (Sm2 & Se2 & _).
  destruct (shr_fexp prec emax (Zpos mz) e loc_Exact) as [mrs2 e2].
  cbn [fst snd Zdigits2] in Sm2, Se2.
  rewrite <- Hcan, Z.sub_diag in Sm2, Se2. cbn [Z.max] in Sm2, Se2.
  change (2 ^ 0) with 1 in Sm2. rewrite Z.div_1_r in Sm2.
  rewrite Sm2. replace e2 with e by lia.
  destruct (Z.leb_spec e (emax - prec)) as [_|Hbad]; [reflexivity|].
  unfold emax, prec in Hbad. lia.
Qed.

(** An integer of at most 53 digits is a number of the format. *)
Lemma binary_normalize_int (N : Z) :
  0 < N < 2 ^ 53 -> val (binary_normalize prec emax N 0 false) = sv N 0.
Proof.
  intros [H0 H1]. destruct N as [|q|q]; try lia. cbn [binary_normalize].
  unfold binary_round.
  destruct (shl_align_spec q 0 (fexp prec emax (Zpos (digits2_pos q) + 0))) as [Se Sm].
  destruct (shl_align q 0 (fexp prec emax (Zpos (digits2_pos q) + 0))) as [mz ez].
  cbn [fst snd] in Se, Sm.
  destruct (Zdigits2_bounds (Zpos q) ltac:(lia)) as [Hd [Hlo Hhi]]. cbn [Zdigits2] in *.
  assert (Hd53 : Zpos (digits2_pos q) <= 53).
  { assert (Zpos (digits2_pos q) - 1 < 53) by (apply pow2_lt_inv; lia). lia. }
  rewrite fexp64 in Se, Sm.
  assert (Hez : ez = Zpos (digits2_pos q) - 53) by lia.
  assert (Hsv : sv (Zpos mz) ez = sv (Zpos q) 0).
  { rewrite Sm, <- Se. apply sv_shift. lia. }
  assert (Hdig : Zdigits2 (Zpos mz) = Zpos (digits2_pos q) + (0 - ez)).
  { rewrite Sm, <- Se. apply Zdigits2_shift; lia. }
  cbn [Zdigits2] in Hdig.
  rewrite round_aux_exact; [exact Hsv| |lia].
  rewrite fexp64, Hdig. lia.
Qed.

(** ** The phase accumulator in binary64 *)

Lemma valid_exponent (x : float) (s : bool) (m : positive) (e : Z) :
  Prim2SF x = S754_finite s m e -> bounded prec emax m e = true.
Proof.
  intros E. pose proof (Prim2SF_valid x) as V. rewrite E in V. exact V.
Qed.

Lemma fin_nonneg_leb (x y : float) :
  fin_nonneg x -> fin_nonneg y -> (x <=? y)%float = (fval x <=? fval y).
Proof.
  intros Hx Hy. rewrite leb_spec. apply SFleb_val; auto using Prim2SF_valid.
Qed.

Lemma fin_nonneg_ltb (x y : float) :
  fin_nonneg x -> fin_nonneg y -> (x <? y)%float = (fval x <? fval y).
Proof.
  intros Hx Hy. rewrite ltb_spec. apply SFltb_val; auto using Prim2SF_valid.
Qed.

Lemma fin_nonneg_zero : fin_nonneg 0%float /\ fval 0%float = 0.
Proof. split; vm_compute; auto. Qed.

(** A number between zero and a finite number is finite. *)
Lemma fin_nonneg_between (x y : float) :
  (0 <=? x)%float = true -> (x <? y)%float = true -> fin_nonneg y -> fin_nonneg x.
Proof.
  rewrite leb_spec, ltb_spec. unfold fin_nonneg.
  change (Prim2SF 0) with (S754_zero false).
  pose proof (valid_exponent x) as V.
  destruct (Prim2SF x) as [sx|[|]| |[|] mx ex]; cbn; try discriminate; auto.
  - destruct (Prim2SF y) as [sy|[|]| |[|] my ey]; cbn; try discriminate; contradiction.
  - intros _ _ _. specialize (V _ _ _ eq_refl). apply bounded_digits in V. lia.
Qed.

Lemma ltb_leb (x y : float) : (x <? y)%float = true -> (x <=? y)%float = true.
Proof.
  rewrite leb_spec, ltb_spec. unfold SFltb, SFleb.
  destruct (SFcompare (Prim2SF x) (Prim2SF y)) as [[| |]|]; congruence.
Qed.

(** The conversion of an [int] (indeed of any integer below [2^63]) is
    finite. *)
Lemma of_Z_fin_nonneg (N : Z) :
  0 <= N < 2 ^ 63 -> fin_nonneg (Ieee.of_Z N) /\ fval (Ieee.of_Z N) <= sv (2 ^ 52) 11.
Proof.
  intros HN. unfold fin_nonneg, fval.
  destruct N as [|q|q]; [vm_compute; split; [exact I|discriminate]| |lia].
  cbn [Ieee.of_Z]. rewrite of_uint63_spec, Uint63.of_Z_spec.
  rewrite Z.mod_small by (change Uint63.wB with (2 ^ 63); lia).
  apply binary_normalize_le; [lia|lia| |].
  - unfold fits. split; [split; [reflexivity|reflexivity]|lia].
  - unfold sv. change (2 ^ 52 * 2 ^ (11 + 1074)) with (2 ^ 63 * 2 ^ (0 + 1074)).
    apply Z.mul_le_mono_nonneg_r; [apply Z.lt_le_incl, pow2_pos|]; lia.
Qed.

(** A positive finite number is a mantissa at an exponent. *)
Lemma fin_pos_finite (x : float) :
  fin_nonneg x -> 0 < fval x ->
  exists m e, Prim2SF x = S754_finite false m e /\ fits (Zpos m) e /\
              fval x = sv (Zpos m) e.
Proof.
  unfold fin_nonneg, fval. intros Hx Hv.
  pose proof (valid_exponent x) as V.
  destruct (Prim2SF x) as [sx|sx| |[|] mx ex]; cbn in Hx, Hv; try contradiction; try lia.
  exists mx, ex. split; [reflexivity|]. split; [|reflexivity].
  apply valid_fits, (V _ _ _ eq_refl).
Qed.

Lemma sv_succ_exp (m e : Z) : -1074 <= e -> sv m (e + 1) = 2 * sv m e.
Proof.
  intros He. unfold sv. replace (e + 1 + 1074) with (e + 1074 + 1) by lia.
  rewrite Z.pow_add_r, Z.pow_1_r by lia. lia.
Qed.

(** A number of the format below [2^63] has a small exponent. *)
Lemma small_exponent (m e : Z) :
  fits m e -> sv m e <= sv (2 ^ 52) 11 -> e <= 63.
Proof.
  intros [[Hm0 Hm1] [He0 He1]] Hle. unfold sv in Hle.
  destruct (Z_le_gt_dec e 63) as [|Hgt]; [assumption|exfalso].
  assert (H : 2 ^ (11 + 1074) * 2 ^ 53 <= 2 ^ (e + 1074)).
  { rewrite <- Z.pow_add_r by lia. apply Z.pow_le_mono_r; lia. }
  pose proof (pow2_pos (11 + 1074) ltac:(lia)).
  change (2 ^ 53) with 9007199254740992 in *.
  change (2 ^ 52) with 4503599627370496 in *. nia.
Qed.

(** The sum of two finite nonnegative numbers below a finite [n] is
    finite and at most twice the larger; if it reaches [n], taking [n]
    off leaves a finite number below [n]. *)
Lemma advance_spec (p inc n : float) :
  fin_nonneg n -> fval n <= sv (2 ^ 52) 11 ->
  fin_nonneg p -> fin_nonneg inc ->
  fval p < fval n -> 0 < fval inc < fval n ->
  let s := (p + inc)%float in
  fin_nonneg s /\
  (fval n <= fval s -> fin_nonneg (s - n)%float /\ fval (s - n)%float < fval n).
Proof.
  intros Hn Hnb Hp Hi Hpn [Hi0 Hin] s.
  pose proof (val_nonneg _ Hp) as Hp0. fold (fval p) in Hp0.
  (* the larger of the two, as a number of the format *)
  assert (Hmax : exists m e, fits m e /\ fval p <= sv m e /\ fval inc <= sv m e /\
                             sv m e < fval n).
  { destruct (Z_le_gt_dec (fval p) (fval inc)) as [Hle|Hgt].
    - destruct (fin_pos_finite inc Hi Hi0) as (m & e & _ & Hf & Hv).
      exists (Zpos m), e. split; [exact Hf|]. rewrite <- Hv. lia.
    - destruct (fin_pos_finite p Hp ltac:(lia)) as (m & e & _ & Hf & Hv).
      exists (Zpos m), e. split; [exact Hf|]. rewrite <- Hv. lia. }
  destruct Hmax as (m & e & Hf & Hpm & Him & Hmn).
  assert (He : e <= 63) by (apply (small_exponent m e Hf); lia).
  assert (Hf2 : fits m (e + 1)) by (unfold fits in *; lia).
  assert (Hs : fin_nonneg s /\ fval s <= sv m (e + 1)).
  { unfold fin_nonneg, fval, s. rewrite add_spec.
    apply SFadd_le; [exact Hp|exact Hi|exact Hf2|].
    rewrite sv_succ_exp by (unfold fits in Hf; lia).
    fold (fval p) (fval inc). lia. }
  destruct Hs as [Hsf Hsv]. split; [exact Hsf|].
  intros Hge.
  rewrite sv_succ_exp in Hsv by (unfold fits in Hf; lia).
  assert (Hd : fin_nonneg (s - n)%float /\ fval (s - n)%float <= sv m e).
  { unfold fin_nonneg, fval. rewrite sub_spec.
    apply SFsub_le; [exact Hsf|exact Hn|exact Hf| |]; fold (fval s) (fval n); lia. }
  destruct Hd as [Hdf Hdv]. split; [exact Hdf|lia].
Qed.

(** The phase stays within [0, N): one step. *)
Lemma advance_in_range (N : Z) (p inc : float) :
  0 <= N <= INT_MAX ->
  (0 <=? p)%float = true -> (p <? Ieee.of_Z N)%float = true ->
  (0 <? inc)%float = true -> (inc <? Ieee.of_Z N)%float = true ->
  let p' := fst (osc_advance inc N p) in
  (0 <=? p')%float = true /\ (p' <? Ieee.of_Z N)%float = true.
Proof.
  intros HN Hp0 HpN Hi0 HiN.
  destruct (of_Z_fin_nonneg N) as [Hn Hnb]; [unfold INT_MAX in HN; lia|].
  destruct fin_nonneg_zero as [Hz Hzv].
  set (n := Ieee.of_Z N) in *.
  pose proof (fin_nonneg_between p n Hp0 HpN Hn) as Hp.
  pose proof (fin_nonneg_between inc n (ltb_leb _ _ Hi0) HiN Hn) as Hi.
  rewrite fin_nonneg_ltb in HpN, HiN, Hi0 by assumption.
  rewrite Hzv in Hi0. apply Z.ltb_lt in HpN, HiN, Hi0.
  destruct (advance_spec p inc n Hn Hnb Hp Hi HpN (conj Hi0 HiN)) as [Hs Hwrap].
  unfold osc_advance. cbn [d_add d_sub d_ge d_of_int ieee_double]. fold n.
  set (s := (p + inc)%float) in *.
  rewrite (fin_nonneg_leb n s Hn Hs).
  destruct (Z.leb_spec (fval n) (fval s)) as [Hge|Hlt]; cbn [fst].
  - destruct (Hwrap Hge) as [Hd Hdn].
    rewrite (fin_nonneg_leb _ _ Hz Hd), (fin_nonneg_ltb _ _ Hd Hn), Hzv.
    split; [apply Z.leb_le, val_nonneg, Hd|apply Z.ltb_lt, Hdn].
  - rewrite (fin_nonneg_leb _ _ Hz Hs), (fin_nonneg_ltb _ _ Hs Hn), Hzv.
    split; [apply Z.leb_le, val_nonneg, Hs|apply Z.ltb_lt, Hlt].
Qed.

(** The conversion of a positive [int] is exact. *)
Lemma of_Z_value (N : Z) : 0 <= N < 2 ^ 53 -> fval (Ieee.of_Z N) = sv N 0.
Proof.
  intros HN. unfold fval.
  destruct N as [|q|q]; [vm_compute; reflexivity| |lia].
  cbn [Ieee.of_Z]. rewrite of_uint63_spec, Uint63.of_Z_spec.
  rewrite Z.mod_small.
  - apply binary_normalize_int. lia.
  - change Uint63.wB with (2 ^ 63). split; [lia|].
    apply Z.lt_trans with (2 ^ 53); [lia|reflexivity].
Qed.

(** The cast to [int] of a finite nonnegative number below [N]. *)
Lemma trunc_fin_nonneg (x : float) :
  fin_nonneg x -> Ieee.trunc x = Some (fval x / 2 ^ 1074).
Proof.
  unfold fin_nonneg, fval, Ieee.trunc.
  destruct (Prim2SF x) as [sx|sx| |[|] m e]; cbn [nonneg_finite val]; try contradiction.
  - intros _. reflexivity.
  - intros He. f_equal. cbn [cond_Zopp]. unfold sv.
    destruct (Z.leb_spec 0 e) as [H0|H0].
    + rewrite Z.pow_add_r, Z.mul_assoc by lia.
      rewrite Z.div_mul; [reflexivity|]. pose proof (pow2_pos 1074). lia.
    + rewrite (pow2_split (e + 1074) 1074) by lia.
      replace (1074 - (e + 1074)) with (- e) by lia.
      rewrite (Z.mul_comm (Zpos m)).
      rewrite Z.div_mul_cancel_l; [reflexivity| |];
        [pose proof (pow2_pos (- e))|pose proof (pow2_pos (e + 1074))]; lia.
Qed.

Lemma double_to_int_in_range (N : Z) (x : float) :
  0 <= N <= INT_MAX ->
  (0 <=? x)%float = true -> (x <? Ieee.of_Z N)%float = true ->
  0 <= double_to_int x < N.
Proof.
  intros HN H0 HxN.
  destruct (of_Z_fin_nonneg N) as [Hn _]; [unfold INT_MAX in HN; lia|].
  pose proof (fin_nonneg_between x _ H0 HxN Hn) as Hx.
  rewrite fin_nonneg_ltb in HxN by assumption. apply Z.ltb_lt in HxN.
  rewrite of_Z_value in HxN by (unfold INT_MAX in HN; lia).
  unfold sv in HxN. rewrite Z.add_0_l in HxN.
  pose proof (val_nonneg _ Hx) as Hv. fold (fval x) in Hv.
  pose proof (pow2_pos 1074 ltac:(lia)) as Hp.
  assert (Hq : 0 <= fval x / 2 ^ 1074 < N).
  { split; [apply Z.div_pos; lia|]. apply Z.div_lt_upper_bound; lia. }
  unfold double_to_int. cbn [d_trunc ieee_double]. rewrite (trunc_fin_nonneg x Hx).
  unfold INT_MIN, INT_MAX in *.
  destruct (Z.leb_spec (-2147483648) (fval x / 2 ^ 1074)); [|lia].
  destruct (Z.leb_spec (fval x / 2 ^ 1074) 2147483647); cbn [andb]; lia.
Qed.

Lemma advance_index (inc : float) (N : Z) (p : float) :
  snd (osc_advance inc N p) = double_to_int (fst (osc_advance inc N p)).
Proof. unfold osc_advance. destruct (d_ge _ _); reflexivity. Qed.

(** Any number of steps: the phase stays in range, and so does each
    index cast from it. *)
Lemma run_in_range (N : Z) (p inc : float) :
  0 <= N <= INT_MAX ->
  phase_in_range N p -> increment_in_range N inc ->
  forall (k : nat) (i : Z),
    phase_in_range N (fst (osc_run inc N k (p, i))) /\
    (k <> 0%nat -> 0 <= snd (osc_run inc N k (p, i)) < N).
Proof.
  intros HN Hp [Hi0 HiN] k i.
  assert (Hstep : forall q, phase_in_range N q ->
            phase_in_range N (fst (osc_advance inc N q))).
  { intros q [Hq0 HqN]. apply advance_in_range; assumption. }
  induction k as [|k [IHp IHi]].
  - cbn [osc_run fst]. split; [exact Hp|congruence].
  - rewrite osc_run_snoc. split; [apply Hstep, IHp|].
    intros _. rewrite advance_index.
    destruct (Hstep _ IHp) as [H0 H1].
    apply double_to_int_in_range; assumption.
Qed.

(** C2. In binary64, for every table length N (an [int]), every phase
    in [0, N) and every increment in (0, N), the advance-and-wrap step
    leaves the phase in [0, N); so the phase is in [0, N) after any
    number of steps, and each index it is cast to is in [0, N) too. *)
Theorem phase_stays_in_range (N : Z) (p inc : float) :
  0 <= N <= INT_MAX ->
  phase_in_range N p -> increment_in_range N inc ->
  phase_in_range N (fst (osc_advance inc N p)) /\
  (forall (k : nat) (i : Z),
     phase_in_range N (fst (osc_run inc N k (p, i))) /\
     (k <> 0%nat -> 0 <= snd (osc_run inc N k (p, i)) < N)).
Proof.
  intros HN Hp Hi. split.
  - destruct Hp as [Hp0 HpN], Hi as [Hi0 HiN]. apply advance_in_range; assumption.
  - apply run_in_range; assumption.
Qed.

Lemma phase_stays_in_range_witness :
  phase_in_range 1024 (fst (osc_advance inc_a4 1024 0%float)) /\
  (forall (k : nat) (i : Z),
     phase_in_range 1024 (fst (osc_run inc_a4 1024 k (0%float, i))) /\
     (k <> 0%nat -> 0 <= snd (osc_run inc_a4 1024 k (0%float, i)) < 1024)).
Proof.
  apply (phase_stays_in_range 1024 0%float inc_a4);
    [unfold INT_MAX; lia | split; reflexivity | split; reflexivity].
Defined.

Lemma octave_keys_at_boundary_witness :
  octave (handle_note_keys (set_note_octave st_a4 117 6) SDLK_PLUS) = 6 /\
  note (handle_note_keys (set_note_octave st_a4 117 6) SDLK_PLUS) = 117 /\
  octave (handle_note_keys (set_note_octave st_a4 12 0) SDLK_MINUS) = 0 /\
  note (handle_note_keys (set_note_octave st_a4 12 0) SDLK_MINUS) = 12 /\
  octave (handle_note_keys st_a4 SDLK_PLUS) = 3 /\
  note (handle_note_keys st_a4 SDLK_PLUS) = Z.min (57 + 12) 131.
Proof.
  destruct (octave_keys_at_boundary (set_note_octave st_a4 117 6)) as (Hp & _).
  destruct (octave_keys_at_boundary (set_note_octave st_a4 12 0)) as (_ & Hm & _).
  destruct (octave_keys_at_boundary st_a4) as (_ & _ & _ & _ & Hup & _).
  destruct (Hp eq_refl) as [Hp1 Hp2].
  destruct (Hm eq_refl) as [Hm1 Hm2].
  destruct Hup as [Hu1 Hu2]; [simpl; lia | unfold INT_MIN, INT_MAX; simpl; lia |].
  repeat split; assumption.
Defined.

(** ** Further properties *)

(** X1. With the increment in (0, table_length) and the phase in
    [0, table_length), the guard of line 249 holds at every frame: the
    defensive branch is never taken, every frame writes its sample. *)
Theorem guard_always_holds (st : state float) (inc : float) (f : nat) :
  0 <= table_length st <= INT_MAX ->
  phase_in_range (table_length st) (phase_double st) ->
  increment_in_range (table_length st) inc ->
  in_table st (frame_index st inc f).
Proof.
  intros HN Hp Hi. unfold in_table, frame_index, phase_of.
  destruct (run_in_range _ _ _ HN Hp Hi (S f) (phase_int st)) as [_ Hidx].
  apply Hidx. discriminate.
Qed.

Lemma guard_always_holds_witness :
  in_table st_a4 (frame_index st_a4 inc_a4 2204).
Proof.
  apply (guard_always_holds st_a4 inc_a4 2204);
    [unfold INT_MAX; simpl; lia | split; reflexivity | split; reflexivity].
Defined.

(** X2. Once [quit] is set the callback only zeroes the buffer. *)
Theorem quit_callback_silent {D} {DD : CDouble D} {LM : Libm D}
    (st : state D) (byte_stream : list Z) (byte_stream_length : Z) :
  quit st = true ->
  byte_stream_length = Z.of_nat (length byte_stream) ->
  audio_callback st byte_stream byte_stream_length =
    Some (st, replicate (length byte_stream) 0).
Proof. intros Hq HL. apply audio_callback_idle; auto. Qed.

Lemma quit_callback_silent_witness :
  audio_callback (LM := ieee_libm)
    (mkState true 44100 1024 0%float 0 ref_table 57 2 131 12) (replicate 300 7) 300 =
    Some (mkState true 44100 1024 0%float 0 ref_table 57 2 131 12,
          replicate (length (replicate 300 7)) 0).
Proof.
  apply (quit_callback_silent (LM := ieee_libm)
           (mkState true 44100 1024 0%float 0 ref_table 57 2 131 12) (replicate 300 7) 300);
    reflexivity.
Defined.

(** X3. A note key selects its note in the current octave, and leaves the
    octave. *)
Theorem note_key_selects_note {D} (st : state D) (sym : SDL_Keycode) (n : Z) :
  key_note sym = Some n -> 0 <= octave st <= 6 ->
  note (handle_note_keys st sym) = n + 12 * octave st /\
  octave (handle_note_keys st sym) = octave st.
Proof.
  intros Hk Ho. pose proof (key_note_range sym n Hk) as Hn.
  assert (E : handle_note_keys st sym =
              set_note_octave st (wrap32 (n + wrap32 (octave st * 12))) (octave st)).
  { unfold handle_note_keys. rewrite Hk.
    destruct (Z.gtb_spec n (-1)); [|lia].
    destruct sym; try reflexivity; discriminate. }
  rewrite E. cbn [note octave set_note_octave].
  rewrite (wrap32_id (octave st * 12)) by (unfold INT_MIN, INT_MAX; lia).
  rewrite wrap32_id by (unfold INT_MIN, INT_MAX; lia).
  split; [lia|reflexivity].
Qed.

Lemma note_key_selects_note_witness :
  note (handle_note_keys st_a4 SDLK_y) = 33 + 12 * octave st_a4 /\
  octave (handle_note_keys st_a4 SDLK_y) = octave st_a4.
Proof.
  apply (note_key_selects_note st_a4 SDLK_y 33); [reflexivity | simpl; lia].
Defined.

(** ** Runs of integers *)

Lemma all_from_spec (f : Z -> bool) (n : nat) : forall z,
  all_from f n z = true -> forall k, z <= k < z + Z.of_nat n -> f k = true.
Proof.
  induction n as [|n IH]; intros z Hall k Hk; [lia|].
  cbn [all_from] in Hall. apply andb_prop in Hall. destruct Hall as [Hz Hall].
  destruct (Z.eq_dec k z) as [->|Hne]; [exact Hz|].
  apply (IH (z + 1) Hall). lia.
Qed.

(** ** The keyboard, again *)

Lemma reachable_inv_initial `{CDouble D} (table : list Z) :
  reachable_inv (initial_state table).
Proof. unfold reachable_inv, initial_state; cbn. lia. Qed.

Lemma handle_note_keys_reachable {D} (st : state D) (sym : SDL_Keycode) :
  reachable_inv st -> reachable_inv (handle_note_keys st sym).
Proof.
  intros (Ho & Hmin & Hmax & Hoff).
  assert (Hw : forall z, -1000 <= z <= 1000 -> wrap32 z = z)
    by (intros z Hz; apply wrap32_id; unfold INT_MIN, INT_MAX; lia).
  unfold reachable_inv.
  destruct (key_note sym) as [n|] eqn:Hk.
  - pose proof (key_note_range sym n Hk) as Hn.
    assert (E : handle_note_keys st sym =
                set_note_octave st (wrap32 (n + wrap32 (octave st * 12))) (octave st)).
    { unfold handle_note_keys. rewrite Hk.
      destruct (Z.gtb_spec n (-1)); [|lia].
      destruct sym; try reflexivity; discriminate. }
    rewrite E. cbn [note octave min_note max_note set_note_octave].
    rewrite (Hw (octave st * 12)) by lia. rewrite Hw by lia. lia.
  - destruct sym; try discriminate; cbn [handle_note_keys key_note].
    + rewrite (Hw (octave st + 1)) by lia.
      destruct (Z.gtb_spec (octave st + 1) 6);
        cbn [note octave min_note max_note set_note_octave]; [lia|].
      rewrite (Hw (note st + 12)) by lia.
      destruct (Z.gtb_spec (note st + 12) (max_note st)); lia.
    + rewrite (Hw (octave st - 1)) by lia.
      destruct (Z.ltb_spec (octave st - 1) 0);
        cbn [note octave min_note max_note set_note_octave]; [lia|].
      rewrite (Hw (note st - 12)) by lia.
      destruct (Z.ltb_spec (note st - 12) (min_note st)); lia.
    + repeat split; try lia.
Qed.

Lemma handle_keys_reachable {D} (keys : list SDL_Keycode) : forall st : state D,
  reachable_inv st -> reachable_inv (handle_keys st keys).
Proof.
  unfold handle_keys. induction keys as [|sym keys IH]; intros st Hst; [exact Hst|].
  cbn [foldl]. apply IH, handle_note_keys_reachable, Hst.
Qed.

Lemma handle_keys_app {D} (st : state D) (ks1 ks2 : list SDL_Keycode) :
  handle_keys st (ks1 ++ ks2) = handle_keys (handle_keys st ks1) ks2.
Proof. unfold handle_keys. apply foldl_app. Qed.

(** The octave keys on a state of the invariant: no clamp is applied to
    the note, but for the step from the initial offset at octave 1. *)
Lemma octave_key_steps {D} (st : state D) :
  reachable_inv st ->
  (octave st < 6 ->
     handle_note_keys st SDLK_PLUS = set_note_octave st (note st + 12) (octave st + 1)) /\
  (octave st = 6 -> handle_note_keys st SDLK_PLUS = set_note_octave st (note st) 6) /\
  (0 < octave st -> 12 <= note st - 12 * octave st ->
     handle_note_keys st SDLK_MINUS = set_note_octave st (note st - 12) (octave st - 1)) /\
  (octave st = 0 -> handle_note_keys st SDLK_MINUS = set_note_octave st (note st) 0).
Proof.
  intros (Ho & Hmin & Hmax & Hoff).
  assert (Hw : forall z, -1000 <= z <= 1000 -> wrap32 z = z)
    by (intros z Hz; apply wrap32_id; unfold INT_MIN, INT_MAX; lia).
  cbn [handle_note_keys].
  rewrite (Hw (octave st + 1)), (Hw (octave st - 1)) by lia.
  rewrite (Hw (note st + 12)), (Hw (note st - 12)) by lia.
  refine (conj _ (conj _ (conj _ _))).
  - intros H6. destruct (Z.gtb_spec (octave st + 1) 6); [lia|].
    destruct (Z.gtb_spec (note st + 12) (max_note st)); [lia|reflexivity].
  - intros H6. destruct (Z.gtb_spec (octave st + 1) 6); [reflexivity|lia].
  - intros H0 H12. destruct (Z.ltb_spec (octave st - 1) 0); [lia|].
    destruct (Z.ltb_spec (note st - 12) (min_note st)); [lia|reflexivity].
  - intros H0. destruct (Z.ltb_spec (octave st - 1) 0); [reflexivity|lia].
Qed.

(** X4. Whatever keys are pressed from the initial state, the note
    stays within 12 and 112 and is a key offset (or the initial offset
    6) above twelve times the octave; so the clamp at [max_note] is
    never applied: below octave 6 the plus key raises the note by
    exactly 12. *)
Theorem keyboard_note_range `{CDouble D} (table : list Z) (keys : list SDL_Keycode) :
  let st := handle_keys (initial_state table) keys in
  12 <= note st <= 112 /\
  (12 <= note st - 12 * octave st <= 40 \/ note st - 12 * octave st = 6) /\
  (octave st < 6 ->
     note (handle_note_keys st SDLK_PLUS) = note st + 12 /\
     octave (handle_note_keys st SDLK_PLUS) = octave st + 1).
Proof.
  intros st.
  pose proof (handle_keys_reachable keys _ (reachable_inv_initial table)) as Hinv.
  fold st in Hinv.
  destruct (octave_key_steps st Hinv) as (Hplus & _).
  destruct Hinv as (Ho & Hmin & Hmax & Hoff).
  split; [lia|]. split; [lia|].
  intros H6. rewrite (Hplus H6). cbn [note octave set_note_octave]. lia.
Qed.

Lemma octave_keys_keep_offset {D} (keys : list SDL_Keycode) : forall st : state D,
  octave_keys keys -> reachable_inv st -> 12 <= note st - 12 * octave st ->
  note (handle_keys st keys) - 12 * octave (handle_keys st keys) =
    note st - 12 * octave st.
Proof.
  unfold handle_keys.
  induction keys as [|sym keys IH]; intros st Hks Hinv H12; [reflexivity|].
  apply Forall_cons in Hks. destruct Hks as [Hsym Hks].
  cbn [foldl].
  pose proof (handle_note_keys_reachable st sym Hinv) as Hinv'.
  destruct (octave_key_steps st Hinv) as (Hp & Hp6 & Hm & Hm0).
  destruct Hinv as (Ho & _).
  assert (E : note (handle_note_keys st sym) - 12 * octave (handle_note_keys st sym) =
              note st - 12 * octave st \/
              (octave (handle_note_keys st sym) = octave st /\
               note (handle_note_keys st sym) = note st)).
  { destruct Hsym as [-> | ->].
    - destruct (Z.eq_dec (octave st) 6) as [E6|E6].
      + right. rewrite (Hp6 E6). cbn [note octave set_note_octave]. lia.
      + left. rewrite Hp by lia. cbn [note octave set_note_octave]. lia.
    - destruct (Z.eq_dec (octave st) 0) as [E0|E0].
      + right. rewrite (Hm0 E0). cbn [note octave set_note_octave]. lia.
      + left. rewrite Hm by lia. cbn [note octave set_note_octave]. lia. }
  rewrite IH; [lia | exact Hks | exact Hinv' | lia].
Qed.

(** X5. Once a note key has been pressed, the octave keys transpose
    it by whole octaves: after any run of plus and minus keys the note
    is the key's offset above twelve times the octave, with no clamp
    applied. *)
Theorem octave_keys_transpose {D} (st : state D) (sym : SDL_Keycode) (n : Z)
    (keys : list SDL_Keycode) :
  0 <= octave st <= 6 -> min_note st = 12 -> max_note st = 131 ->
  key_note sym = Some n -> octave_keys keys ->
  let st' := handle_keys (handle_note_keys st sym) keys in
  note st' = n + 12 * octave st' /\ 0 <= octave st' <= 6.
Proof.
  intros Ho Hmin Hmax Hk Hks st'.
  pose proof (key_note_range sym n Hk) as Hn.
  assert (E : handle_note_keys st sym =
              set_note_octave st (n + 12 * octave st) (octave st)).
  { transitivity (set_note_octave st (wrap32 (n + wrap32 (octave st * 12))) (octave st)).
    - unfold handle_note_keys. rewrite Hk.
      destruct (Z.gtb_spec n (-1)); [|lia].
      destruct sym; try reflexivity; discriminate.
    - rewrite (wrap32_id (octave st * 12)) by (unfold INT_MIN, INT_MAX; lia).
      rewrite wrap32_id by (unfold INT_MIN, INT_MAX; lia).
      f_equal. lia. }
  assert (Hinv : reachable_inv (handle_note_keys st sym)).
  { rewrite E. unfold reachable_inv. cbn [note octave min_note max_note set_note_octave]. lia. }
  pose proof (octave_keys_keep_offset keys _ Hks Hinv) as Hoff.
  pose proof (handle_keys_reachable keys _ Hinv) as (Ho' & _).
  fold st' in Hoff, Ho'.
  rewrite E in Hoff. cbn [note octave set_note_octave] in Hoff.
  split; [lia|exact Ho'].
Qed.

Lemma octave_keys_transpose_witness :
  let st' := handle_keys (handle_note_keys st_a4 SDLK_y)
               [SDLK_PLUS; SDLK_PLUS; SDLK_PLUS; SDLK_PLUS; SDLK_PLUS; SDLK_MINUS] in
  note st' = 33 + 12 * octave st' /\ 0 <= octave st' <= 6.
Proof.
  apply (octave_keys_transpose st_a4 SDLK_y 33
           [SDLK_PLUS; SDLK_PLUS; SDLK_PLUS; SDLK_PLUS; SDLK_PLUS; SDLK_MINUS]);
    [simpl; lia | reflexivity | reflexivity | reflexivity |].
  repeat (apply List.Forall_cons; [auto|]). apply List.Forall_nil.
Defined.

Lemma set_note_octave_same {D} (st : state D) :
  set_note_octave st (note st) (octave st) = st.
Proof. destruct st; reflexivity. Qed.

Lemma set_note_octave_twice {D} (st : state D) (n o n' o' : Z) :
  set_note_octave (set_note_octave st n o) n' o' = set_note_octave st n' o'.
Proof. reflexivity. Qed.

(** X6. Away from the limits the octave keys undo each other: plus
    then minus, and minus then plus, give the state back.  At octave 6
    plus does nothing, so plus then minus ends an octave lower. *)
Theorem octave_keys_round_trip {D} (st : state D) :
  INT_MIN <= min_note st -> max_note st <= INT_MAX ->
  min_note st <= note st <= max_note st ->
  (0 <= octave st < 6 -> note st + 12 <= max_note st ->
     handle_keys st [SDLK_PLUS; SDLK_MINUS] = st) /\
  (0 < octave st <= 6 -> min_note st <= note st - 12 ->
     handle_keys st [SDLK_MINUS; SDLK_PLUS] = st) /\
  (octave st = 6 -> min_note st <= note st - 12 ->
     handle_keys st [SDLK_PLUS; SDLK_MINUS] = set_note_octave st (note st - 12) 5).
Proof.
  intros Hlo Hhi Hn. unfold INT_MIN, INT_MAX in *.
  assert (Hw : forall z, -2147483648 <= z <= 2147483647 -> wrap32 z = z)
    by (intros z Hz; apply wrap32_id; unfold INT_MIN, INT_MAX; lia).
  unfold handle_keys. cbn [foldl].
  refine (conj _ (conj _ _)).
  - intros Ho H12.
    assert (E : handle_note_keys st SDLK_PLUS =
                set_note_octave st (note st + 12) (octave st + 1)).
    { cbn [handle_note_keys]. rewrite (Hw (octave st + 1)), (Hw (note st + 12)) by lia.
      destruct (Z.gtb_spec (octave st + 1) 6); [lia|].
      destruct (Z.gtb_spec (note st + 12) (max_note st)); [lia|reflexivity]. }
    rewrite E. cbn [handle_note_keys note octave min_note set_note_octave].
    rewrite (Hw (octave st + 1 - 1)), (Hw (note st + 12 - 12)) by lia.
    destruct (Z.ltb_spec (octave st + 1 - 1) 0); [lia|].
    destruct (Z.ltb_spec (note st + 12 - 12) (min_note st)); [lia|].
    replace (note st + 12 - 12) with (note st) by lia.
    replace (octave st + 1 - 1) with (octave st) by lia.
    destruct st; reflexivity.
  - intros Ho H12.
    assert (E : handle_note_keys st SDLK_MINUS =
                set_note_octave st (note st - 12) (octave st - 1)).
    { cbn [handle_note_keys]. rewrite (Hw (octave st - 1)), (Hw (note st - 12)) by lia.
      destruct (Z.ltb_spec (octave st - 1) 0); [lia|].
      destruct (Z.ltb_spec (note st - 12) (min_note st)); [lia|reflexivity]. }
    rewrite E. cbn [handle_note_keys note octave max_note set_note_octave].
    rewrite (Hw (octave st - 1 + 1)), (Hw (note st - 12 + 12)) by lia.
    destruct (Z.gtb_spec (octave st - 1 + 1) 6); [lia|].
    destruct (Z.gtb_spec (note st - 12 + 12) (max_note st)); [lia|].
    replace (note st - 12 + 12) with (note st) by lia.
    replace (octave st - 1 + 1) with (octave st) by lia.
    destruct st; reflexivity.
  - intros Ho H12.
    assert (E : handle_note_keys st SDLK_PLUS = set_note_octave st (note st) 6).
    { cbn [handle_note_keys]. rewrite (Hw (octave st + 1)) by lia.
      destruct (Z.gtb_spec (octave st + 1) 6); [reflexivity|lia]. }
    rewrite E. cbn [handle_note_keys note octave min_note set_note_octave].
    change (wrap32 (6 - 1)) with 5. rewrite (Hw (note st - 12)) by lia.
    cbn [Z.ltb Z.compare].
    destruct (Z.ltb_spec (note st - 12) (min_note st)); [lia|reflexivity].
Qed.

Lemma octave_keys_round_trip_witness :
  handle_keys st_a4 [SDLK_PLUS; SDLK_MINUS] = st_a4 /\
  handle_keys st_a4 [SDLK_MINUS; SDLK_PLUS] = st_a4 /\
  handle_keys (set_note_octave st_a4 105 6) [SDLK_PLUS; SDLK_MINUS] =
    set_note_octave (set_note_octave st_a4 105 6) (105 - 12) 5.
Proof.
  assert (H1 := octave_keys_round_trip st_a4).
  assert (H2 := octave_keys_round_trip (set_note_octave st_a4 105 6)).
  destruct H1 as (Ha & Hb & _);
    [unfold INT_MIN; simpl; lia | unfold INT_MAX; simpl; lia | simpl; lia |].
  destruct H2 as (_ & _ & Hc);
    [unfold INT_MIN; simpl; lia | unfold INT_MAX; simpl; lia | simpl; lia |].
  split; [apply Ha; simpl; lia|].
  split; [apply Hb; simpl; lia|].
  apply Hc; [reflexivity | simpl; lia].
Defined.

(** X7. Every note from 12 to 112 can be reached from the initial
    state: the octave keys lead to any octave from 0 to 6, and the note
    keys cover every offset from 12 to 40. *)
Theorem keyboard_reaches_every_note `{CDouble D} (table : list Z) (n : Z) :
  12 <= n <= 112 ->
  exists keys,
    note (handle_keys (initial_state table) keys) = n /\
    octave (handle_keys (initial_state table) keys) = Z.min 6 ((n - 12) / 12).
Proof.
  intros Hn. exists (keys_to n).
  pose proof (all_from_spec
    (fun n => (note (handle_keys (initial_state table) (keys_to n)) =? n) &&
              (octave (handle_keys (initial_state table) (keys_to n)) =?
                 Z.min 6 ((n - 12) / 12)))
    (Z.to_nat 101) 12 ltac:(vm_compute; reflexivity) n ltac:(lia)) as Hall.
  cbv beta in Hall. apply andb_prop in Hall. destruct Hall as [H1 H2].
  apply Z.eqb_eq in H1. apply Z.eqb_eq in H2. auto.
Qed.

Lemma keyboard_reaches_every_note_witness :
  exists keys,
    note (handle_keys (initial_state (D := float) ref_table) keys) = 112 /\
    octave (handle_keys (initial_state (D := float) ref_table) keys) =
      Z.min 6 ((112 - 12) / 12).
Proof. apply (keyboard_reaches_every_note ref_table 112). lia. Defined.

(** ** Note names *)

Lemma named_notes_spec (n : Z) : 12 <= n <= 131 -> In n named_notes.
Proof.
  intros Hn. unfold named_notes. apply in_map_iff.
  exists (Z.to_nat n). split; [lia|]. apply in_seq. lia.
Qed.

Lemma named_notes_forall (f : Z -> bool) :
  forallb f named_notes = true -> forall n, 12 <= n <= 131 -> f n = true.
Proof.
  intros Hall n Hn. rewrite forallb_forall in Hall.
  apply Hall, named_notes_spec, Hn.
Qed.

Lemma note_to_char_err (note : Z) :
  note < 12 \/ 131 < note -> note_to_char note = "err".
Proof.
  intros Hn. destruct note as [|p|p]; [reflexivity| |reflexivity].
  do 8 (destruct p as [p|p|]; try reflexivity; try lia).
Qed.

(** X8. For every note from 12 to 131 the table of [note_to_char] holds
    the name the earlier [print_note] computes, the pitch class of
    [note % 12] followed by the octave [note / 12 - 1]; the names are
    pairwise different; every other note, and only those, gives
    ["err"]. *)
Theorem note_to_char_names (note : Z) :
  (12 <= note <= 131 ->
     print_note note = Some (note_to_char note) /\
     note_to_char note <> "err" /\
     (forall note', 12 <= note' <= 131 ->
        note_to_char note' = note_to_char note -> note' = note)) /\
  (note < 12 \/ 131 < note -> note_to_char note = "err").
Proof.
  split; [|apply note_to_char_err].
  intros Hn. refine (conj _ (conj _ _)).
  - pose proof (named_notes_forall
      (fun n => match print_note n with
                | Some s => String.eqb s (note_to_char n)
                | None => false
                end)) as Hall.
    specialize (Hall ltac:(vm_compute; reflexivity) note Hn). cbv beta in Hall.
    destruct (print_note note) as [s|]; [|discriminate].
    apply String.eqb_eq in Hall. now rewrite Hall.
  - pose proof (named_notes_forall
      (fun n => negb (String.eqb (note_to_char n) "err"))) as Hall.
    specialize (Hall ltac:(vm_compute; reflexivity) note Hn). cbv beta in Hall.
    intros E. rewrite E in Hall. discriminate.
  - intros note' Hn' E.
    assert (Hnd : NoDup (map note_to_char named_notes)).
    { apply (bool_decide_unpack _). vm_compute. exact I. }
    assert (Hl : forall n, 12 <= n <= 131 ->
              map note_to_char named_notes !! (Z.to_nat (n - 12)) = Some (note_to_char n)).
    { intros n Hr. unfold named_notes.
      rewrite !list_lookup_fmap, lookup_seq_lt by lia.
      cbn [fmap option_fmap option_map]. do 2 f_equal. lia. }
    assert (Hinj : Z.to_nat (note' - 12) = Z.to_nat (note - 12)).
    { eapply NoDup_lookup; [exact Hnd | apply Hl, Hn' | rewrite E; apply Hl, Hn]. }
    lia.
Qed.

(** X9. Whatever keys are pressed from the initial state, the name the
    handler prints with the note is never ["err"]. *)
Theorem printed_name_valid `{CDouble D} (table : list Z) (keys : list SDL_Keycode) :
  let st := handle_keys (initial_state table) keys in
  note_to_char (note st) <> "err" /\
  print_note (note st) = Some (note_to_char (note st)).
Proof.
  intros st.
  pose proof (handle_keys_reachable keys _ (reachable_inv_initial table)) as Hinv.
  fold st in Hinv. destruct Hinv as (Ho & Hmin & Hmax & Hoff).
  assert (Hn : 12 <= note st <= 131) by lia.
  pose proof (named_notes_forall
    (fun n => negb (String.eqb (note_to_char n) "err") &&
              match print_note n with
              | Some s => String.eqb s (note_to_char n)
              | None => false
              end)) as Hall.
  specialize (Hall ltac:(vm_compute; reflexivity) (note st) Hn). cbv beta in Hall.
  apply andb_prop in Hall. destruct Hall as [H1 H2]. split.
  - intros E. rewrite E in H1. discriminate.
  - destruct (print_note (note st)) as [s|]; [|discriminate].
    apply String.eqb_eq in H2. now rewrite H2.
Qed.

(** ** Events *)

Lemma set_quit_quit {D} (st : state D) : set_quit st (quit st) = st.
Proof. destruct st; reflexivity. Qed.

Lemma handle_note_keys_set_quit {D} (st : state D) (q : bool) (sym : SDL_Keycode) :
  handle_note_keys (set_quit st q) sym = set_quit (handle_note_keys st sym) q.
Proof.
  unfold handle_note_keys.
  destruct sym; cbn [note octave min_note max_note set_quit];
    repeat match goal with |- context [if ?b then _ else _] => destruct b end;
    reflexivity.
Qed.

Lemma handle_note_keys_quit {D} (st : state D) (sym : SDL_Keycode) :
  quit (handle_note_keys st sym) = quit st.
Proof.
  unfold handle_note_keys.
  destruct sym; cbn [key_note];
    repeat match goal with |- context [if ?b then _ else _] => destruct b end;
    reflexivity.
Qed.

Lemma handle_keys_set_quit {D} (keys : list SDL_Keycode) : forall (st : state D) (q : bool),
  handle_keys (set_quit st q) keys = set_quit (handle_keys st keys) q.
Proof.
  unfold handle_keys. induction keys as [|sym keys IH]; intros st q; [reflexivity|].
  cbn [foldl]. rewrite handle_note_keys_set_quit. apply IH.
Qed.

Lemma check_sdl_events_app {D} (p1 p2 : list SDL_Event) : forall st : state D,
  check_sdl_events st (p1 ++ p2) = check_sdl_events (check_sdl_events st p1) p2.
Proof.
  induction p1 as [|event p1 IH]; intros st; [reflexivity|].
  cbn [app check_sdl_events]. apply IH.
Qed.

Lemma check_sdl_events_keys {D} (pending : list SDL_Event) : forall st : state D,
  check_sdl_events st pending =
    set_quit (handle_keys st (key_downs pending)) (quit st || has_quit pending).
Proof.
  induction pending as [|event pending IH]; intros st.
  - cbn. rewrite orb_false_r. symmetry. apply set_quit_quit.
  - cbn [check_sdl_events]. rewrite IH.
    destruct event as [|sym|sym|];
      cbn [key_downs omap list_omap has_quit existsb quit set_quit handle_key_down
           handle_key_up orb].
    + rewrite handle_keys_set_quit, orb_true_r. reflexivity.
    + rewrite handle_note_keys_quit. reflexivity.
    + reflexivity.
    + reflexivity.
Qed.

Lemma handle_note_keys_frame {D} (st : state D) (sym : SDL_Keycode) :
  exists n o, handle_note_keys st sym = set_note_octave st n o.
Proof.
  unfold handle_note_keys.
  destruct sym; cbn [key_note];
    repeat match goal with |- context [if ?b then _ else _] => destruct b end;
    try (eexists _, _; reflexivity);
    exists (note st), (octave st); symmetry; apply set_note_octave_same.
Qed.

Lemma handle_keys_frame {D} (keys : list SDL_Keycode) : forall st : state D,
  exists n o, handle_keys st keys = set_note_octave st n o.
Proof.
  unfold handle_keys. induction keys as [|sym keys IH]; intros st.
  - exists (note st), (octave st). symmetry. apply set_note_octave_same.
  - cbn [foldl]. destruct (handle_note_keys_frame st sym) as (n & o & E).
    destruct (IH (handle_note_keys st sym)) as (n' & o' & E').
    exists n', o'. rewrite E', E. reflexivity.
Qed.

(** X10. One poll handles every pending event, in order: the note and
    the octave become what the key handler makes of the key-down events,
    key-up and other events change nothing, and [quit] is set when it was
    set or an [SDL_QUIT] is among the events, never cleared.  An
    [SDL_QUIT] does not end the poll: the keys behind it are still
    handled.  No event touches the phase of the oscillator or the table,
    so a new note sounds from the phase the old one had reached. *)
Theorem check_sdl_events_handles_all {D} (st : state D) (pending : list SDL_Event) :
  let st' := check_sdl_events st pending in
  st' = set_quit (handle_keys st (key_downs pending)) (quit st || has_quit pending) /\
  phase_double st' = phase_double st /\ phase_int st' = phase_int st /\
  sine_wave_table st' = sine_wave_table st /\
  table_length st' = table_length st /\ sample_rate st' = sample_rate st.
Proof.
  intros st'. unfold st'. rewrite check_sdl_events_keys.
  split; [reflexivity|].
  destruct (handle_keys_frame (key_downs pending) st) as (n & o & E).
  rewrite E. cbn. auto.
Qed.

Lemma run_loop_running {D} (turns : list (list SDL_Event)) : forall st : state D,
  quit st = false -> Forall (fun pending => has_quit pending = false) turns ->
  run_loop st turns = None /\
  forall pending after,
    has_quit pending = true ->
    run_loop st (turns ++ pending :: after) =
      Some (check_sdl_events st (concat turns ++ pending), after).
Proof.
  induction turns as [|p turns IH]; intros st Hq Hno.
  - split; [cbn; now rewrite Hq|].
    intros pending after Hp. cbn [app concat run_loop]. rewrite Hq.
    unfold main_loop.
    assert (Hq' : quit (check_sdl_events st pending) = true).
    { rewrite check_sdl_events_keys. cbn [quit set_quit]. rewrite Hp. apply orb_true_r. }
    destruct after; cbn [run_loop]; rewrite Hq'; reflexivity.
  - apply Forall_cons in Hno. destruct Hno as [Hp Hno].
    assert (Hq' : quit (main_loop st p) = false).
    { unfold main_loop. rewrite check_sdl_events_keys. cbn [quit set_quit].
      rewrite Hq, Hp. reflexivity. }
    destruct (IH (main_loop st p) Hq' Hno) as [IH1 IH2].
    split; [cbn [run_loop]; rewrite Hq; exact IH1|].
    intros pending after Hpq. cbn [app concat run_loop]. rewrite Hq.
    rewrite (IH2 pending after Hpq). unfold main_loop.
    rewrite <- app_assoc, (check_sdl_events_app p). reflexivity.
Qed.

(** X11. The main loop runs until the first turn whose events hold an
    [SDL_QUIT]: it handles every event of the turns up to and including
    that one (also the events behind the [SDL_QUIT]), leaves with [quit]
    set, and takes no later turn.  While no [SDL_QUIT] arrives it does
    not leave. *)
Theorem run_loop_until_quit {D} (st : state D)
    (before : list (list SDL_Event)) (pending : list SDL_Event)
    (after : list (list SDL_Event)) :
  quit st = false ->
  Forall (fun pending => has_quit pending = false) before ->
  has_quit pending = true ->
  run_loop st (before ++ pending :: after) =
    Some (check_sdl_events st (concat before ++ pending), after) /\
  quit (check_sdl_events st (concat before ++ pending)) = true /\
  run_loop st before = None.
Proof.
  intros Hq Hno Hp.
  destruct (run_loop_running before st Hq Hno) as [Hnone Hsome].
  refine (conj (Hsome pending after Hp) (conj _ Hnone)).
  rewrite check_sdl_events_keys. cbn [quit set_quit].
  unfold has_quit. rewrite existsb_app. fold (has_quit pending). rewrite Hp.
  rewrite !orb_true_r. reflexivity.
Qed.

Lemma run_loop_until_quit_witness :
  run_loop st_a4 ([[SDL_KEYDOWN SDLK_y]; [SDL_KEYUP SDLK_y]] ++
                  [SDL_QUIT; SDL_KEYDOWN SDLK_PLUS] :: [[SDL_KEYDOWN SDLK_z]]) =
    Some (check_sdl_events st_a4
            (concat [[SDL_KEYDOWN SDLK_y]; [SDL_KEYUP SDLK_y]] ++
             [SDL_QUIT; SDL_KEYDOWN SDLK_PLUS]),
          [[SDL_KEYDOWN SDLK_z]]) /\
  quit (check_sdl_events st_a4
          (concat [[SDL_KEYDOWN SDLK_y]; [SDL_KEYUP SDLK_y]] ++
           [SDL_QUIT; SDL_KEYDOWN SDLK_PLUS])) = true /\
  run_loop st_a4 [[SDL_KEYDOWN SDLK_y]; [SDL_KEYUP SDLK_y]] = None.
Proof.
  apply (run_loop_until_quit st_a4 [[SDL_KEYDOWN SDLK_y]; [SDL_KEYUP SDLK_y]]
           [SDL_QUIT; SDL_KEYDOWN SDLK_PLUS] [[SDL_KEYDOWN SDLK_z]]);
    [reflexivity | | reflexivity].
  repeat (apply List.Forall_cons; [reflexivity|]). apply List.Forall_nil.
Defined.

(** ** The fill routine on other arguments *)

Section FillEdges.
Context {D : Type} {DD : CDouble D} {LM : Libm D}.
Implicit Types (st : state D) (bytes : list Z).





Lemma store16_out_of_bounds bytes j v :
  Z.of_nat (length bytes) <= 2 * j + 1 -> store16 bytes j v = None.
Proof.
  intros Hj. unfold store16.
  destruct (Z.ltb_spec (2 * j + 1) (Z.of_nat (length bytes))); [lia|].
  now rewrite andb_false_r.
Qed.



End FillEdges.


(** ** Callbacks in a row *)

Section Callbacks.
Context {D : Type} {DD : CDouble D} {LM : Libm D}.
Implicit Types (st : state D) (bytes : list Z).

Lemma frame_index_add st inc (n f : nat) :
  frame_index (with_phase st (osc_run inc (table_length st) n (phase_of st))) inc f =
  frame_index st inc (n + f).
Proof.
  unfold frame_index. rewrite phase_of_with_phase.
  cbn [table_length with_phase set_phase].
  rewrite <- osc_run_add. f_equal. f_equal. lia.
Qed.

(** X14. The oscillator carries on from one callback to the next: two
    callbacks in a row leave the phase where one run of all their frames
    leaves it, and frame [f] of the second buffer holds the sample of
    frame [n1 + f] of that run, [n1] the frames of the first. *)
Theorem callbacks_continue st (bs1 bs2 : list Z) (len1 len2 : Z) :
  quit st = false -> 0 < note st ->
  len1 = Z.of_nat (length bs1) -> len2 = Z.of_nat (length bs2) ->
  table_length st <= Z.of_nat (length (sine_wave_table st)) ->
  let inc := phase_increment_of st in
  let n1 := (32 * Z.to_nat (iterations_of len1))%nat in
  let n2 := (32 * Z.to_nat (iterations_of len2))%nat in
  exists st1 bytes1 st2 bytes2,
    audio_callback st bs1 len1 = Some (st1, bytes1) /\
    audio_callback st1 bs2 len2 = Some (st2, bytes2) /\
    st2 = with_phase st (osc_run inc (table_length st) (n1 + n2) (phase_of st)) /\
    (forall f : nat, (f < n2)%nat ->
       let idx := frame_index st inc (n1 + f) in
       in_table st idx ->
       exists v, load_table (sine_wave_table st) idx = Some v /\
         load16 bytes2 (2 * Z.of_nat f) = Some (scale_volume v) /\
         load16 bytes2 (2 * Z.of_nat f + 1) = Some (scale_volume v)).
Proof.
  intros Hq Hn H1 H2 Htab inc n1 n2.
  destruct (audio_callback_spec st bs1 len1 Hq Hn H1 Htab) as (b1 & Hcb1 & _).
  fold inc n1 in Hcb1.
  set (st1 := with_phase st (osc_run inc (table_length st) n1 (phase_of st))) in *.
  assert (Einc : phase_increment_of st1 = inc) by apply phase_increment_with_phase.
  assert (Eph : phase_of st1 = osc_run inc (table_length st) n1 (phase_of st))
    by apply phase_of_with_phase.
  assert (EN : table_length st1 = table_length st) by reflexivity.
  assert (Ewp : forall ph, with_phase st1 ph = with_phase st ph)
    by (intros ph; apply with_phase_twice).
  assert (Efi : forall f, frame_index st1 inc f = frame_index st inc (n1 + f))
    by (intros f; apply frame_index_add).
  destruct (audio_callback_spec st1 bs2 len2 Hq Hn H2 Htab) as (b2 & Hcb2 & _ & _ & Hfr).
  fold n2 in Hcb2, Hfr.
  rewrite Einc, Ewp, Eph, EN, <- osc_run_add in Hcb2.
  exists st1, b1. eexists _, b2. refine (conj Hcb1 (conj Hcb2 (conj eq_refl _))).
  intros f Hf idx Hin. destruct (Hfr f Hf) as [Hplay _]. cbv zeta in Hplay.
  rewrite Einc, Efi in Hplay. apply Hplay. exact Hin.
Qed.

End Callbacks.

Lemma callbacks_continue_witness :
  exists st1 bytes1 st2 bytes2,
    audio_callback (LM := ieee_libm) st_a4 (replicate 300 7) 300 = Some (st1, bytes1) /\
    audio_callback (LM := ieee_libm) st1 (replicate 128 7) 128 = Some (st2, bytes2) /\
    st2 = with_phase st_a4
            (osc_run (phase_increment_of (LM := ieee_libm) st_a4) (table_length st_a4)
               (32 * Z.to_nat (iterations_of 300) + 32 * Z.to_nat (iterations_of 128))
               (phase_of st_a4)) /\
    (forall f : nat, (f < 32 * Z.to_nat (iterations_of 128))%nat ->
       let idx := frame_index st_a4 (phase_increment_of (LM := ieee_libm) st_a4)
                    (32 * Z.to_nat (iterations_of 300) + f) in
       in_table st_a4 idx ->
       exists v, load_table (sine_wave_table st_a4) idx = Some v /\
         load16 bytes2 (2 * Z.of_nat f) = Some (scale_volume (D := float) v) /\
         load16 bytes2 (2 * Z.of_nat f + 1) = Some (scale_volume (D := float) v)).
Proof.
  apply (callbacks_continue (LM := ieee_libm) st_a4 (replicate 300 7) (replicate 128 7)
           300 128);
    [reflexivity | reflexivity | reflexivity | reflexivity | vm_compute; discriminate].
Defined.

(** ** The volume scaling in binary64 *)

Lemma double_to_int_between (q : Z) (x : float) :
  0 <= q < INT_MAX ->
  (0 <=? x)%float = true ->
  (Ieee.of_Z q <=? x)%float = true -> (x <? Ieee.of_Z (q + 1))%float = true ->
  double_to_int x = q.
Proof.
  intros Hq H0 Hlo Hhi. unfold INT_MAX in Hq.
  assert (Hq1 : 0 <= q + 1 < 2 ^ 53) by lia.
  assert (Hq0 : 0 <= q < 2 ^ 53) by lia.
  destruct (of_Z_fin_nonneg (q + 1)) as [Hf1 _]; [lia|].
  destruct (of_Z_fin_nonneg q) as [Hf0 _]; [lia|].
  pose proof (fin_nonneg_between x _ H0 Hhi Hf1) as Hfx.
  rewrite (fin_nonneg_leb _ _ Hf0 Hfx) in Hlo.
  rewrite (fin_nonneg_ltb _ _ Hfx Hf1) in Hhi.
  rewrite (of_Z_value q Hq0) in Hlo. rewrite (of_Z_value (q + 1) Hq1) in Hhi.
  apply Z.leb_le in Hlo. apply Z.ltb_lt in Hhi.
  unfold sv in Hlo, Hhi. change (0 + 1074) with 1074 in *.
  unfold double_to_int. cbn [d_trunc ieee_double].
  rewrite (trunc_fin_nonneg x Hfx).
  assert (E : fval x / 2 ^ 1074 = q).
  { symmetry. apply (Z.div_unique_pos _ _ q (fval x - q * 2 ^ 1074)); lia. }
  rewrite E.
  destruct (Z.leb_spec INT_MIN q); [|unfold INT_MIN in *; lia].
  destruct (Z.leb_spec q INT_MAX); [|unfold INT_MAX in *; lia].
  reflexivity.
Qed.

Lemma SFmul_opp (x y : spec_float) :
  SFmul prec emax (SFopp x) y = SFopp (SFmul prec emax x y).
Proof.
  destruct x as [sx|sx| |sx mx ex], y as [sy|sy| |sy my ey]; cbn [SFmul SFopp];
    rewrite <- ?Bool.negb_xorb_l; try reflexivity.
  unfold binary_round_aux.
  destruct (shr_fexp prec emax (Z.pos (mx * my)) (ex + ey) loc_Exact) as [mrs e'].
  destruct (shr_fexp prec emax _ e' loc_Exact) as [mrs' e''].
  destruct (shr_m mrs'); [reflexivity| |reflexivity].
  destruct (e'' <=? emax - prec); reflexivity.
Qed.

Lemma mul_opp (a b : float) : (- a * b = - (a * b))%float.
Proof.
  apply Prim2SF_inj.
  rewrite mul_spec, !opp_spec, mul_spec. apply SFmul_opp.
Qed.

Lemma trunc_opp (x : float) (q : Z) :
  Ieee.trunc x = Some q -> Ieee.trunc (- x)%float = Some (- q).
Proof.
  unfold Ieee.trunc. rewrite opp_spec.
  destruct (Prim2SF x) as [s|s| |s m e]; cbn [SFopp]; try discriminate.
  - intros [= <-]. reflexivity.
  - intros [= <-]. f_equal. destruct s; cbn [negb cond_Zopp]; lia.
Qed.

Lemma scaled_between_all (s : Z) : 0 <= s <= 32768 -> scaled_between s = true.
Proof.
  intros Hs.
  apply (all_from_spec scaled_between (Z.to_nat 32769) 0); [vm_compute; reflexivity|lia].
Qed.

Lemma double_to_int_scaled (s : Z) :
  0 <= s <= 32768 ->
  Ieee.trunc (Ieee.of_Z s * 0.3)%float = Some (3 * s / 10).
Proof.
  intros Hs. pose proof (scaled_between_all s Hs) as Hb.
  unfold scaled_between in Hb. cbv zeta in Hb.
  apply andb_prop in Hb. destruct Hb as [Hb Hhi].
  apply andb_prop in Hb. destruct Hb as [H0 Hlo].
  assert (Hq : 0 <= 3 * s / 10 < INT_MAX).
  { unfold INT_MAX. split; [apply Z.div_pos; lia|].
    apply Z.div_lt_upper_bound; lia. }
  pose proof (double_to_int_between _ _ Hq H0 Hlo Hhi) as E.
  unfold double_to_int in E. cbn [d_trunc ieee_double] in E.
  destruct (Ieee.trunc (Ieee.of_Z s * 0.3)%float) as [z|] eqn:Ez.
  - destruct ((INT_MIN <=? z) && (z <=? INT_MAX)); [now rewrite E|].
    unfold INT_MIN in E. lia.
  - unfold INT_MIN in E. lia.
Qed.

(** In binary64 the scaling [sample *= 0.3] is the exact quotient
    [3 * sample / 10] cut toward zero. *)
Lemma scale_volume_quot (s : Z) :
  -32768 <= s <= 32768 -> scale_volume (D := float) s = Z.quot (3 * s) 10.
Proof.
  intros Hs. unfold scale_volume, double_to_int.
  cbn [d_mul d_of_int d_volume d_trunc ieee_double].
  assert (Hr : forall q, -9831 <= q <= 9831 ->
            (if (INT_MIN <=? q) && (q <=? INT_MAX) then q else INT_MIN) = q).
  { intros q Hq. destruct (Z.leb_spec INT_MIN q); [|unfold INT_MIN in *; lia].
    destruct (Z.leb_spec q INT_MAX); [reflexivity|unfold INT_MAX in *; lia]. }
  destruct s as [|p|p].
  - vm_compute. reflexivity.
  - rewrite (double_to_int_scaled (Z.pos p)) by lia.
    assert (Hq : 0 <= 3 * Z.pos p / 10 <= 9831).
    { split; [apply Z.div_pos; lia|]. apply Z.lt_succ_r, Z.div_lt_upper_bound; lia. }
    rewrite Hr by lia. rewrite to_int16_id by lia.
    rewrite Z.quot_div_nonneg by lia. reflexivity.
  - change (Ieee.of_Z (Z.neg p)) with (- Ieee.of_Z (Z.pos p))%float.
    rewrite mul_opp.
    rewrite (trunc_opp _ _ (double_to_int_scaled (Z.pos p) ltac:(lia))).
    assert (Hq : 0 <= 3 * Z.pos p / 10 <= 9831).
    { split; [apply Z.div_pos; lia|]. apply Z.lt_succ_r, Z.div_lt_upper_bound; lia. }
    rewrite Hr by lia. rewrite to_int16_id by lia.
    change (3 * Z.neg p) with (- (3 * Z.pos p)).
    rewrite Z.quot_opp_l by lia. rewrite Z.quot_div_nonneg by lia. reflexivity.
Qed.

Lemma scale_volume_range (s : Z) :
  -32768 <= s <= 32767 -> -9830 <= scale_volume (D := float) s <= 9830.
Proof.
  intros Hs. rewrite scale_volume_quot by lia.
  Z.quot_rem_to_equations. lia.
Qed.

(** ** The callback in binary64 *)

Lemma int16_table_lookup (table : list Z) (i v : Z) :
  int16_table table -> load_table table i = Some v -> -32768 <= v <= 32767.
Proof.
  intros Ht Hl. unfold load_table in Hl.
  destruct (0 <=? i); [|discriminate].
  exact (proj1 (Forall_lookup _ _) Ht _ _ Hl).
Qed.

(** X15. In binary64 the scaling [sample *= 0.3] gives exactly
    [3 * sample / 10] cut toward zero for every [int16_t] sample, the
    value exact arithmetic gives: the rounding of the product never shows
    in the result, which lies between -9830 and 9830. *)
Theorem volume_scaling_exact (sample : Z) :
  -32768 <= sample <= 32767 ->
  scale_volume (D := float) sample = Z.quot (3 * sample) 10 /\
  scale_volume (D := float) sample = scale_volume (D := Q) sample /\
  -9830 <= scale_volume (D := float) sample <= 9830.
Proof.
  intros Hs. rewrite scale_volume_quot by lia.
  refine (conj eq_refl (conj _ _)).
  - unfold scale_volume, double_to_int. cbn [d_mul d_of_int d_volume d_trunc exact_double].
    unfold Exact.trunc, Qmult, inject_Z. cbn [Qnum Qden].
    change (Z.pos (1 * 10)) with 10. replace (sample * 3) with (3 * sample) by lia.
    assert (Hq : -9830 <= Z.quot (3 * sample) 10 <= 9830)
      by (Z.quot_rem_to_equations; lia).
    destruct (Z.leb_spec INT_MIN (Z.quot (3 * sample) 10)); [|unfold INT_MIN in *; lia].
    destruct (Z.leb_spec (Z.quot (3 * sample) 10) INT_MAX); [|unfold INT_MAX in *; lia].
    cbn [andb]. rewrite to_int16_id by lia. reflexivity.
  - Z.quot_rem_to_equations. lia.
Qed.

Lemma volume_scaling_exact_witness :
  scale_volume (D := float) (-32767) = Z.quot (3 * -32767) 10 /\
  scale_volume (D := float) (-32767) = scale_volume (D := Q) (-32767) /\
  -9830 <= scale_volume (D := float) (-32767) <= 9830.
Proof. apply (volume_scaling_exact (-32767)). lia. Defined.

(** X16. A callback leaves in every 16-bit slot of the buffer a value
    between -9830 and 9830, whatever the note, the phase and the length
    of the buffer. *)
Theorem callback_output_bounded (LM : Libm float) (st : state float)
    (byte_stream : list Z) (byte_stream_length : Z) :
  byte_stream_length = Z.of_nat (length byte_stream) ->
  table_length st <= Z.of_nat (length (sine_wave_table st)) ->
  int16_table (sine_wave_table st) ->
  exists st' bytes',
    audio_callback st byte_stream byte_stream_length = Some (st', bytes') /\
    forall j : Z, 0 <= j < Z.quot byte_stream_length 2 ->
      exists v, load16 bytes' j = Some v /\ -9830 <= v <= 9830.
Proof.
  intros HL Htab Hint.
  assert (HL0 : 0 <= byte_stream_length) by lia.
  destruct (quit st) eqn:Hq; [|destruct (Z_lt_le_dec 0 (note st)) as [Hn|Hn]].
  - rewrite (audio_callback_idle st byte_stream byte_stream_length (or_introl Hq) HL).
    eexists _, _. split; [reflexivity|].
    intros j Hj. exists 0. split; [|lia].
    rewrite Z.quot_div_nonneg in Hj by lia.
    apply load16_replicate_zero; [lia|]. Z.div_mod_to_equations. lia.
  - destruct (audio_callback_spec st byte_stream byte_stream_length Hq Hn HL Htab)
      as (b' & Hcb & Hlen & Hzero & Hfr).
    eexists _, b'. split; [exact Hcb|].
    intros j Hj. rewrite Z.quot_div_nonneg in Hj by lia.
    destruct (iterations_bound byte_stream_length HL0) as [Hit0 Hit].
    destruct (Z_lt_le_dec j (64 * iterations_of byte_stream_length)) as [Hlt|Hge].
    + assert (Hf : (Z.to_nat (j / 2) < 32 * Z.to_nat (iterations_of byte_stream_length))%nat).
      { apply Nat2Z.inj_lt. rewrite Nat2Z.inj_mul, !Z2Nat.id by (try apply Z.div_pos; lia).
        change (Z.of_nat 32) with 32. Z.div_mod_to_equations. lia. }
      destruct (Hfr _ Hf) as [Hplay Hskip]. cbv zeta in Hplay, Hskip.
      rewrite Z2Nat.id in Hplay, Hskip by (apply Z.div_pos; lia).
      set (idx := frame_index st (phase_increment_of st) (Z.to_nat (j / 2))) in *.
      assert (Hj2 : j = 2 * (j / 2) \/ j = 2 * (j / 2) + 1)
        by (Z.div_mod_to_equations; lia).
      destruct (in_table_dec st idx) as [Hin|Hout].
      * destruct (Hplay Hin) as (v & Hv & E1 & E2).
        pose proof (scale_volume_range v (int16_table_lookup _ _ _ Hint Hv)) as Hr.
        exists (scale_volume (D := float) v). split; [|exact Hr].
        destruct Hj2 as [E|E]; rewrite E; assumption.
      * destruct (Hskip Hout) as [E1 E2].
        exists 0. split; [|lia].
        destruct Hj2 as [E|E]; rewrite E; assumption.
    + exists 0. split; [|lia].
      apply load16_zero; [lia| |]; apply Hzero; Z.div_mod_to_equations; lia.
  - rewrite (audio_callback_idle st byte_stream byte_stream_length (or_intror Hn) HL).
    eexists _, _. split; [reflexivity|].
    intros j Hj. exists 0. split; [|lia].
    rewrite Z.quot_div_nonneg in Hj by lia.
    apply load16_replicate_zero; [lia|]. Z.div_mod_to_equations. lia.
Qed.

(** The table the builder makes holds [int16_t] values. *)
Lemma build_sine_table_int16 {D} {DD : CDouble D} {LM : Libm D}
    (data : list Z) (wave_length : Z) (t : list Z) :
  0 <= wave_length -> Z.of_nat (length data) = wave_length ->
  build_sine_table data wave_length = Some t -> int16_table t.
Proof.
  intros Hw Hlen Hb.
  destruct (build_sine_table_spec data wave_length Hw Hlen) as (t' & Hb' & Hlen' & Hent).
  rewrite Hb in Hb'. injection Hb' as <-.
  apply Forall_lookup. intros i v Hi.
  assert (Hlt : Z.of_nat i < wave_length).
  { apply lookup_lt_Some in Hi. lia. }
  rewrite (Hent i Hlt) in Hi. injection Hi as <-.
  unfold sine_sample. apply to_int16_range.
Qed.

Lemma ref_table_int16 : int16_table ref_table.
Proof.
  destruct (build_sine_table (LM := ieee_libm) (replicate 1024 0) 1024) as [t|] eqn:E.
  - unfold ref_table. rewrite E. cbn [default].
    apply (build_sine_table_int16 (LM := ieee_libm) (replicate 1024 0) 1024 t);
      [lia | reflexivity | exact E].
  - unfold ref_table. rewrite E. apply Forall_nil. exact I.
Qed.

Lemma callback_output_bounded_witness :
  exists st' bytes',
    audio_callback (LM := ieee_libm) st_a4 (replicate 300 7) 300 = Some (st', bytes') /\
    forall j : Z, 0 <= j < Z.quot 300 2 ->
      exists v, load16 bytes' j = Some v /\ -9830 <= v <= 9830.
Proof.
  apply (callback_output_bounded ieee_libm st_a4 (replicate 300 7) 300);
    [reflexivity | vm_compute; discriminate | exact ref_table_int16].
Defined.

(** X17. With a note on, the phase in [0, table_length) and the
    increment in (0, table_length), a callback on a buffer of a multiple
    of 128 bytes writes every frame of it: frame [f] holds in both
    channels the scaled table entry at the index the oscillator reaches
    at frame [f], no frame is skipped or left silent, and the phase is
    again in [0, table_length) for the next callback. *)
Theorem callback_fills_whole_buffer (LM : Libm float) (st : state float)
    (byte_stream : list Z) (byte_stream_length : Z) :
  quit st = false -> 0 < note st ->
  byte_stream_length = Z.of_nat (length byte_stream) ->
  byte_stream_length mod 128 = 0 ->
  0 <= table_length st <= INT_MAX ->
  table_length st <= Z.of_nat (length (sine_wave_table st)) ->
  phase_in_range (table_length st) (phase_double st) ->
  increment_in_range (table_length st) (phase_increment_of st) ->
  let inc := phase_increment_of st in
  exists st' bytes',
    audio_callback st byte_stream byte_stream_length = Some (st', bytes') /\
    phase_in_range (table_length st') (phase_double st') /\
    phase_increment_of st' = inc /\
    forall f : nat, 4 * Z.of_nat f < byte_stream_length ->
      exists v,
        sine_wave_table st !! Z.to_nat (frame_index st inc f) = Some v /\
        0 <= frame_index st inc f < table_length st /\
        load16 bytes' (2 * Z.of_nat f) = Some (scale_volume (D := float) v) /\
        load16 bytes' (2 * Z.of_nat f + 1) = Some (scale_volume (D := float) v).
Proof.
  intros Hq Hn HL Hmod HN Htab Hp Hi inc.
  destruct (audio_callback_spec st byte_stream byte_stream_length Hq Hn HL Htab)
    as (b' & Hcb & _ & _ & Hfr).
  fold inc in Hcb, Hfr.
  set (n := (32 * Z.to_nat (iterations_of byte_stream_length))%nat) in *.
  pose proof (run_in_range _ _ _ HN Hp Hi) as Hrun. fold inc in Hrun.
  eexists _, b'. split; [exact Hcb|].
  cbn [table_length phase_double with_phase set_phase].
  split; [apply (Hrun n (phase_int st))|].
  split; [apply phase_increment_with_phase|].
  intros f Hf.
  assert (Hfn : (f < n)%nat).
  { assert (HL0 : 0 <= byte_stream_length) by lia.
    unfold n, iterations_of.
    rewrite (Z.quot_div_nonneg byte_stream_length 2) by lia.
    rewrite (Z.quot_div_nonneg (byte_stream_length / 2) 64)
      by (try apply Z.div_pos; lia).
    apply Nat2Z.inj_lt. rewrite Nat2Z.inj_mul, Z2Nat.id by (repeat apply Z.div_pos; lia).
    change (Z.of_nat 32) with 32.
    clear - Hf Hmod HL0. Z.div_mod_to_equations. lia. }
  destruct (Hfr f Hfn) as [Hplay _]. cbv zeta in Hplay.
  assert (Hin : in_table st (frame_index st inc f)).
  { unfold in_table, frame_index, phase_of.
    apply (Hrun (S f) (phase_int st)). discriminate. }
  destruct (Hplay Hin) as (v & Hv & E1 & E2).
  exists v. unfold load_table in Hv.
  destruct (Z.leb_spec 0 (frame_index st inc f)); [|discriminate].
  unfold in_table in Hin. auto.
Qed.

Lemma callback_fills_whole_buffer_witness :
  exists st' bytes',
    audio_callback (LM := ieee_libm) st_a4 (replicate 256 7) 256 = Some (st', bytes') /\
    phase_in_range (table_length st') (phase_double st') /\
    phase_increment_of (LM := ieee_libm) st' = phase_increment_of (LM := ieee_libm) st_a4 /\
    forall f : nat, 4 * Z.of_nat f < 256 ->
      exists v,
        sine_wave_table st_a4 !!
          Z.to_nat (frame_index st_a4 (phase_increment_of (LM := ieee_libm) st_a4) f) = Some v /\
        0 <= frame_index st_a4 (phase_increment_of (LM := ieee_libm) st_a4) f
          < table_length st_a4 /\
        load16 bytes' (2 * Z.of_nat f) = Some (scale_volume (D := float) v) /\
        load16 bytes' (2 * Z.of_nat f + 1) = Some (scale_volume (D := float) v).
Proof.
  apply (callback_fills_whole_buffer ieee_libm st_a4 (replicate 256 7) 256);
    [reflexivity | reflexivity | reflexivity | reflexivity
    | unfold INT_MAX; simpl; lia | vm_compute; discriminate
    | split; reflexivity | split; vm_compute; reflexivity].
Defined.

(** ** The sine table on any block *)

Section TableEdges.
Context {D : Type} {DD : CDouble D} {LM : Libm D}.

Lemma sine_loop_overrun inc n : forall (data : list Z) (i : Z) (phase : D),
  0 <= i <= Z.of_nat (length data) -> Z.of_nat (length data) < i + Z.of_nat n ->
  sine_loop n i inc phase data = None.
Proof.
  induction n as [|n IH]; intros data i phase Hi Hn; [lia|].
  cbn [sine_loop]. unfold store_table.
  destruct (Z.ltb_spec i (Z.of_nat (length data))) as [Hlt|Hge].
  - destruct (Z.leb_spec 0 i); [|lia]. cbn [andb mbind option_bind].
    apply IH; rewrite length_insert; lia.
  - rewrite andb_false_r. reflexivity.
Qed.

(** X18. The table builder on any block: it fills the first
    [wave_length] cells with the samples and reads none of them, so the
    table does not depend on what the fresh block held; the cells behind
    stay as they were; a [wave_length] of zero or less leaves the block
    alone; and a [wave_length] above the size of the block stores out of
    bounds. *)
Theorem build_sine_table_on_block (data : list Z) (wave_length : Z) :
  (wave_length <= 0 -> build_sine_table data wave_length = Some data) /\
  (0 <= wave_length <= Z.of_nat (length data) ->
     build_sine_table data wave_length =
       Some (map (fun i => sine_sample (sine_phase wave_length i))
                 (seq 0 (Z.to_nat wave_length))
             ++ drop (Z.to_nat wave_length) data)) /\
  (Z.of_nat (length data) < wave_length -> build_sine_table data wave_length = None).
Proof.
  refine (conj _ (conj _ _)).
  - intros Hw. unfold build_sine_table.
    replace (Z.to_nat wave_length) with 0%nat by lia. reflexivity.
  - intros Hw. unfold build_sine_table.
    set (inc := d_div (d_mul (d_of_int 2) d_pi) (d_of_int wave_length)).
    destruct (sine_loop_spec inc (Z.to_nat wave_length) data 0 (d_of_int 0))
      as (t & Ht & Hlen & Hout & Hin); [lia | lia |].
    rewrite Ht. f_equal. apply list_eq. intros k.
    destruct (Nat.lt_ge_cases k (Z.to_nat wave_length)) as [Hk|Hk].
    + rewrite lookup_app_l by (rewrite length_map, length_seq; exact Hk).
      rewrite list_lookup_fmap, lookup_seq_lt by exact Hk.
      cbn [fmap option_fmap option_map].
      specialize (Hin k Hk). change (Z.to_nat 0 + k)%nat with k in Hin.
      rewrite Hin. reflexivity.
    + rewrite lookup_app_r by (rewrite length_map, length_seq; exact Hk).
      rewrite length_map, length_seq, lookup_drop.
      rewrite Hout by lia. f_equal. lia.
  - intros Hw. unfold build_sine_table. apply sine_loop_overrun; lia.
Qed.

End TableEdges.

(** ** The noise callback *)

Section NoiseFill.
Context {D : Type} {DD : CDouble D}.
Variable rand : nat -> Z.

Lemma scale_volume_int16 (s : Z) : -32768 <= scale_volume s <= 32767.
Proof. unfold scale_volume. apply to_int16_range. Qed.

Lemma noise_loop_spec n : forall (bytes : list Z) (i : Z) (calls : nat),
  0 <= i -> 2 * (i + 2 * Z.of_nat n) <= Z.of_nat (length bytes) ->
  exists bytes',
    Noise.noise_loop rand n bytes i calls = Some (bytes', (calls + n)%nat) /\
    length bytes' = length bytes /\
    (forall k : nat,
       Z.of_nat k < 2 * i \/ 2 * (i + 2 * Z.of_nat n) <= Z.of_nat k ->
       bytes' !! k = bytes !! k) /\
    (forall f : nat, (f < n)%nat ->
       let sample := scale_volume (Noise.raw_sample (rand (calls + f))) in
       load16 bytes' (i + 2 * Z.of_nat f) = Some sample /\
       load16 bytes' (i + 2 * Z.of_nat f + 1) = Some sample).
Proof.
  induction n as [|n IH]; intros bytes i calls Hi Hlen.
  - exists bytes. cbn [Noise.noise_loop]. rewrite Nat.add_0_r.
    refine (conj eq_refl (conj eq_refl (conj _ _)));
      [intros; reflexivity | intros f Hf; lia].
  - cbn [Noise.noise_loop].
    set (sample := scale_volume (Noise.raw_sample (rand calls))).
    destruct (store16_in_bounds bytes i sample) as [b1 E1]; [lia | lia |].
    pose proof (store16_length _ _ _ _ E1) as L1.
    destruct (store16_in_bounds b1 (i + 1) sample) as [b2 E2]; [lia | lia |].
    pose proof (store16_length _ _ _ _ E2) as L2.
    rewrite E1. cbn [mbind option_bind]. rewrite E2. cbn [mbind option_bind].
    destruct (IH b2 (i + 2) (S calls)) as (b' & Hb' & Hl' & Hout & Hin); [lia | lia |].
    exists b'. rewrite Hb'.
    refine (conj _ (conj _ (conj _ _))).
    + do 2 f_equal. lia.
    + lia.
    + intros k Hk. rewrite Hout by lia.
      rewrite (store16_other _ _ _ _ k E2) by lia.
      apply (store16_other _ _ _ _ k E1); lia.
    + intros f Hf. cbv zeta.
      destruct f as [|f].
      * rewrite Nat.add_0_r. change (Z.of_nat 0) with 0.
        replace (i + 2 * 0) with i by lia. fold sample.
        assert (Hs : -32768 <= sample <= 32767) by apply scale_volume_int16.
        split.
        -- rewrite (load16_ext b2 b' i) by (apply Hout; lia).
           rewrite (load16_store16_other b1 (i + 1) sample b2 i E2) by lia.
           apply (load16_store16_eq _ _ _ _ E1 Hs).
        -- rewrite (load16_ext b2 b' (i + 1)) by (apply Hout; lia).
           apply (load16_store16_eq _ _ _ _ E2 Hs).
      * specialize (Hin f ltac:(lia)). cbv zeta in Hin.
        replace (S calls + f)%nat with (calls + S f)%nat in Hin by lia.
        replace (i + 2 + 2 * Z.of_nat f) with (i + 2 * Z.of_nat (S f)) in Hin by lia.
        exact Hin.
Qed.

Lemma noise_loop_overrun n : forall (bytes : list Z) (i : Z) (calls : nat),
  0 <= i -> (0 < n)%nat ->
  2 * (i + 2 * Z.of_nat n) - 2 <= Z.of_nat (length bytes) < 2 * (i + 2 * Z.of_nat n) ->
  Noise.noise_loop rand n bytes i calls = None.
Proof.
  induction n as [|n IH]; intros bytes i calls Hi Hn Hlen; [lia|].
  cbn [Noise.noise_loop].
  set (sample := scale_volume (Noise.raw_sample (rand calls))).
  destruct n as [|n].
  - destruct (store16 bytes i sample) as [b1|] eqn:E1; [|reflexivity].
    cbn [mbind option_bind].
    rewrite store16_out_of_bounds; [reflexivity|].
    rewrite (store16_length _ _ _ _ E1). lia.
  - destruct (store16_in_bounds bytes i sample) as [b1 E1]; [lia | lia |].
    pose proof (store16_length _ _ _ _ E1) as L1.
    destruct (store16_in_bounds b1 (i + 1) sample) as [b2 E2]; [lia | lia |].
    pose proof (store16_length _ _ _ _ E2) as L2.
    rewrite E1. cbn [mbind option_bind]. rewrite E2. cbn [mbind option_bind].
    apply IH; lia.
Qed.

(** X19. The noise callback fills a buffer whose length is a multiple
    of four bytes completely: frame [f] holds in both channels the scaled
    sample of the [f]-th value of [rand()] of this callback, one value a
    frame.  When the number of 16-bit slots is odd, the last frame
    stores its second sample one slot past the end of the buffer. *)
Theorem noise_callback_fills (calls : nat) (byte_stream : list Z)
    (byte_stream_length : Z) :
  byte_stream_length = Z.of_nat (length byte_stream) ->
  (byte_stream_length mod 4 = 0 ->
     exists bytes',
       Noise.audio_callback false rand calls byte_stream byte_stream_length =
         Some (bytes', (calls + Z.to_nat (byte_stream_length / 4))%nat) /\
       length bytes' = length byte_stream /\
       forall f : nat, 4 * Z.of_nat f < byte_stream_length ->
         let sample := scale_volume (Noise.raw_sample (rand (calls + f))) in
         load16 bytes' (2 * Z.of_nat f) = Some sample /\
         load16 bytes' (2 * Z.of_nat f + 1) = Some sample) /\
  (Z.odd (byte_stream_length / 2) = true ->
     Noise.audio_callback false rand calls byte_stream byte_stream_length = None) /\
  Noise.audio_callback true rand calls byte_stream byte_stream_length =
    Some (replicate (length byte_stream) 0, calls).
Proof.
  intros HL. assert (HL0 : 0 <= byte_stream_length) by lia.
  unfold Noise.audio_callback. rewrite (memset_full _ _ HL). cbn [mbind option_bind].
  rewrite Z.quot_div_nonneg by lia.
  refine (conj _ (conj _ eq_refl)).
  - intros Hmod.
    assert (Hfc : frame_count (byte_stream_length / 2) = Z.to_nat (byte_stream_length / 4)).
    { unfold frame_count. f_equal. Z.div_mod_to_equations. lia. }
    rewrite Hfc.
    destruct (noise_loop_spec (Z.to_nat (byte_stream_length / 4))
                (replicate (length byte_stream) 0) 0 calls)
      as (b' & Hb' & Hlen & _ & Hin).
    { lia. }
    { rewrite length_replicate, Z2Nat.id by (apply Z.div_pos; lia).
      Z.div_mod_to_equations. lia. }
    exists b'. rewrite Hb'. rewrite length_replicate in Hlen.
    refine (conj eq_refl (conj Hlen _)).
    intros f Hf.
    assert (Hfn : (f < Z.to_nat (byte_stream_length / 4))%nat).
    { apply Nat2Z.inj_lt. rewrite Z2Nat.id by (apply Z.div_pos; lia).
      Z.div_mod_to_equations. lia. }
    exact (Hin f Hfn).
  - intros Hodd. rewrite (Zodd_mod (byte_stream_length / 2)) in Hodd.
    apply Z.eqb_eq in Hodd.
    apply noise_loop_overrun; [lia | |].
    + unfold frame_count. apply Nat2Z.inj_lt.
      rewrite Z2Nat.id by (apply Z.div_pos; Z.div_mod_to_equations; lia).
      Z.div_mod_to_equations. lia.
    + rewrite length_replicate. unfold frame_count.
      rewrite Z2Nat.id by (apply Z.div_pos; Z.div_mod_to_equations; lia).
      Z.div_mod_to_equations. lia.
Qed.

End NoiseFill.

(** X20. The noise sample: although the cast to [Sint16] is applied
    before [INT16_MAX] is subtracted, the sample is the remainder of
    [rand()] by 65534 less 32767, between -32767 and 32766; in binary64
    the scaled sample is three tenths of it cut toward zero, between
    -9830 and 9829. *)
Theorem noise_sample_range (r : Z) :
  0 <= r ->
  Noise.raw_sample r = r mod 65534 - 32767 /\
  -32767 <= Noise.raw_sample r <= 32766 /\
  scale_volume (D := float) (Noise.raw_sample r) = Z.quot (3 * (r mod 65534 - 32767)) 10 /\
  -9830 <= scale_volume (D := float) (Noise.raw_sample r) <= 9829.
Proof.
  intros Hr.
  assert (E : Noise.raw_sample r = r mod 65534 - 32767).
  { unfold Noise.raw_sample, INT16_MAX. change (32767 * 2) with 65534.
    rewrite Z.rem_mod_nonneg by lia.
    pose proof (Z.mod_pos_bound r 65534 ltac:(lia)) as Hm.
    unfold to_int16. Z.div_mod_to_equations. lia. }
  pose proof (Z.mod_pos_bound r 65534 ltac:(lia)) as Hm.
  rewrite E. rewrite scale_volume_quot by lia.
  refine (conj eq_refl (conj _ (conj eq_refl _))); [lia|].
  Z.quot_rem_to_equations. lia.
Qed.

Lemma noise_sample_range_witness :
  Noise.raw_sample 2147483647 = 2147483647 mod 65534 - 32767 /\
  -32767 <= Noise.raw_sample 2147483647 <= 32766 /\
  scale_volume (D := float) (Noise.raw_sample 2147483647) =
    Z.quot (3 * (2147483647 mod 65534 - 32767)) 10 /\
  -9830 <= scale_volume (D := float) (Noise.raw_sample 2147483647) <= 9829.
Proof. apply (noise_sample_range 2147483647). lia. Defined.

Lemma noise_callback_fills_witness :
  (8 mod 4 = 0 ->
     exists bytes',
       Noise.audio_callback (D := float) false (fun k => 40000 * Z.of_nat k) 3
         (replicate 8 7) 8 =
         Some (bytes', (3 + Z.to_nat (8 / 4))%nat) /\
       length bytes' = length (replicate 8 7) /\
       forall f : nat, 4 * Z.of_nat f < 8 ->
         let sample :=
           scale_volume (D := float) (Noise.raw_sample (40000 * Z.of_nat (3 + f))) in
         load16 bytes' (2 * Z.of_nat f) = Some sample /\
         load16 bytes' (2 * Z.of_nat f + 1) = Some sample) /\
  (Z.odd (6 / 2) = true ->
     Noise.audio_callback (D := float) false (fun k => 40000 * Z.of_nat k) 3
       (replicate 6 7) 6 = None).
Proof.
  destruct (noise_callback_fills (D := float) (fun k => 40000 * Z.of_nat k) 3
              (replicate 8 7) 8 eq_refl) as (H1 & _ & _).
  destruct (noise_callback_fills (D := float) (fun k => 40000 * Z.of_nat k) 3
              (replicate 6 7) 6 eq_refl) as (_ & H2 & _).
  exact (conj H1 H2).
Defined.

(** ** Allocation *)

(** X21. A successful [malloc] in [init_data] raises [alloc_count] by
    one and gives a table of [table_length] entries that does not
    depend on what the fresh block held; [cleanup_data] then brings the
    count back.  [init_data] does not test the pointer: when [malloc]
    fails and [table_length] is positive, the builder stores through
    [NULL].  Freeing [NULL] changes nothing. *)
Theorem init_cleanup_balance {D} {DD : CDouble D} {LM : Libm D}
    (st : state D) (alloc_count : Z) (block : list Z) :
  0 < table_length st -> Z.of_nat (length block) = table_length st ->
  INT_MIN < alloc_count < INT_MAX ->
  let table := map (fun i => sine_sample (sine_phase (table_length st) i))
                   (seq 0 (Z.to_nat (table_length st))) in
  init_data st alloc_count (Some block) =
    Some (set_table st table, Some table, alloc_count + 1) /\
  cleanup_data (Some table) (alloc_count + 1) = alloc_count /\
  init_data st alloc_count None = None /\
  cleanup_data None alloc_count = alloc_count.
Proof.
  intros HN Hlen Hac table. unfold INT_MIN, INT_MAX in Hac.
  destruct (build_sine_table_on_block block (table_length st)) as (_ & Hb & _).
  destruct (build_sine_table_on_block [] (table_length st)) as (_ & _ & Hnull).
  refine (conj _ (conj _ (conj _ eq_refl))).
  - unfold init_data, alloc_memory. cbn [from_option id].
    rewrite Hb by lia. cbn [mbind option_bind].
    rewrite drop_ge, app_nil_r by lia.
    rewrite wrap32_id by (unfold INT_MIN, INT_MAX; lia). reflexivity.
  - unfold cleanup_data, free_memory. cbn [snd].
    rewrite wrap32_id by (unfold INT_MIN, INT_MAX; lia). lia.
  - unfold init_data, alloc_memory. cbn [from_option id].
    rewrite Hnull by (cbn [length]; lia). reflexivity.
Qed.

Lemma init_cleanup_balance_witness :
  let table := map (fun i => sine_sample (LM := ieee_libm) (sine_phase 1024 i))
                   (seq 0 (Z.to_nat 1024)) in
  init_data (LM := ieee_libm) st_a4 0 (Some (replicate 1024 7)) =
    Some (set_table st_a4 table, Some table, 0 + 1) /\
  cleanup_data (Some table) (0 + 1) = 0 /\
  init_data (LM := ieee_libm) st_a4 0 None = None /\
  cleanup_data None 0 = 0.
Proof.
  apply (init_cleanup_balance (LM := ieee_libm) st_a4 0 (replicate 1024 7));
    [reflexivity | reflexivity | unfold INT_MIN, INT_MAX; lia].
Defined.

(** ** The whole run *)

(** X22. When [malloc] succeeds, [run] returns exactly when some turn
    of the main loop finds an [SDL_QUIT]: it has then handled the events
    up to the end of that turn on the table [init_data] built, and the
    count [cleanup_data] prints is 0, every block freed.  Without an
    [SDL_QUIT] it stays in the loop, and when [malloc] fails it stores
    through [NULL] before the loop is entered. *)
Theorem run_frees_table {D} {DD : CDouble D} {LM : Libm D}
    (block : list Z) (before : list (list SDL_Event)) (pending : list SDL_Event)
    (after : list (list SDL_Event)) :
  length block = 1024%nat ->
  Forall (fun pending => has_quit pending = false) before ->
  has_quit pending = true ->
  let table := map (fun i => sine_sample (sine_phase 1024 i)) (seq 0 1024) in
  run (Some block) (before ++ pending :: after) =
    Finished (check_sdl_events (initial_state table) (concat before ++ pending)) 0 /\
  run (Some block) before = Running /\
  run None (before ++ pending :: after) = Undefined (D := D).
Proof.
  intros Hlen Hno Hq table.
  destruct (init_cleanup_balance static_state 0 block) as (Hinit & Hclean & Hnull & _);
    [reflexivity | cbn [table_length static_state]; lia | unfold INT_MIN, INT_MAX; lia |].
  cbn [table_length static_state] in Hinit, Hclean.
  change (Z.to_nat 1024) with 1024%nat in Hinit, Hclean. fold table in Hinit, Hclean.
  change (set_table static_state table) with (initial_state table) in Hinit.
  destruct (run_loop_running before (initial_state table) eq_refl Hno) as [Hrun Hstop].
  unfold run. rewrite Hinit, Hnull.
  refine (conj _ (conj _ eq_refl)).
  - rewrite (Hstop pending after Hq). rewrite Hclean. reflexivity.
  - rewrite Hrun. reflexivity.
Qed.

Lemma run_frees_table_witness :
  let table := map (fun i => sine_sample (LM := ieee_libm) (sine_phase 1024 i)) (seq 0 1024) in
  run (LM := ieee_libm) (Some (replicate 1024 7))
      ([[SDL_KEYDOWN SDLK_y]] ++ [SDL_QUIT] :: [[SDL_KEYDOWN SDLK_z]]) =
    Finished (check_sdl_events (initial_state table)
                (concat [[SDL_KEYDOWN SDLK_y]] ++ [SDL_QUIT])) 0 /\
  run (LM := ieee_libm) (Some (replicate 1024 7)) [[SDL_KEYDOWN SDLK_y]] = Running /\
  run (LM := ieee_libm) None ([[SDL_KEYDOWN SDLK_y]] ++ [SDL_QUIT] :: [[SDL_KEYDOWN SDLK_z]]) =
    Undefined (D := float).
Proof.
  apply (run_frees_table (LM := ieee_libm) (replicate 1024 7) [[SDL_KEYDOWN SDLK_y]]
           [SDL_QUIT] [[SDL_KEYDOWN SDLK_z]]);
    [reflexivity | | reflexivity].
  repeat (apply List.Forall_cons; [reflexivity|]). apply List.Forall_nil.
Defined.
